(** * Vultos / Vultus: a shallow embedding of the in-memory search engine

    The repository holds two generations of the same engine.

    - [src/vultus.js] (class [Vultus]): the flat engine.  Scoring, text
      normalisation and the edit distance are private methods of the class.
    - [vultos.js] (class [Vultos]): the indexed engine.  It keeps an
      inverted index, validates its parameters, and imports the scorer
      ([score.js]), the field class ([field.js]) and the text utilities
      ([textUtils.js]).

    JavaScript values are embedded as follows.

    - A number is an exact rational in canonical form ([Qc]), so that [===]
      on numbers is Leibniz equality.  Rounding, [NaN] and the infinities
      are outside the model.
    - A string is a [string]; a code unit is an [ascii] character.
    - A [Map] is an association list in insertion order (module [JsMap]).
    - A thrown exception is the [Throw] case of [outcome]; state that was
      mutated before the throw stays mutated. *)

From Stdlib Require Import String Ascii Bool Arith Lia ZArith List.
From Stdlib Require Import QArith Qcanon.
From Stdlib Require Import Sorted Permutation.
Import ListNotations.

Set Implicit Arguments.
Unset Strict Implicit.

Local Open Scope nat_scope.
Local Open Scope list_scope.

(** ** Insertion-ordered maps (JavaScript [Map]) *)

Module JsMap.
Section WithKey.
Variables (K V : Type).
Variable K_eq_dec : forall x y : K, {x = y} + {x <> y}.

Definition t := list (K * V).

Definition empty : t := [].

Fixpoint get (k : K) (m : t) : option V :=
match m with
| [] => None
| (k', v) :: m' => if K_eq_dec k k' then Some v else get k m'
end.

Definition has (k : K) (m : t) : bool :=
match get k m with Some _ => true | None => false end.

(** [set] overwrites in place when the key exists and appends otherwise,
  which is the iteration order a [Map] shows. *)
Fixpoint set (k : K) (v : V) (m : t) : t :=
match m with
| [] => [(k, v)]
| (k', v') :: m' =>
    if K_eq_dec k k' then (k', v) :: m' else (k', v') :: set k v m'
end.

Fixpoint delete (k : K) (m : t) : t :=
match m with
| [] => []
| (k', v') :: m' =>
    if K_eq_dec k k' then m' else (k', v') :: delete k m'
end.

Definition keys (m : t) : list K := map fst m.

Lemma get_set_same k v m : get k (set k v m) = Some v.
Proof.
induction m as [|[k' v'] m IH]; simpl.
- destruct (K_eq_dec k k); congruence.
- destruct (K_eq_dec k k') as [E|N]; simpl.
  + destruct (K_eq_dec k k'); congruence.
  + destruct (K_eq_dec k k'); [contradiction | exact IH].
Qed.

Lemma get_set_other k k' v m : k <> k' -> get k' (set k v m) = get k' m.
Proof.
intros N. induction m as [|[k0 v0] m IH]; simpl.
- destruct (K_eq_dec k' k); congruence.
- destruct (K_eq_dec k k0) as [E|N0]; simpl.
  + subst k0. destruct (K_eq_dec k' k); congruence.
  + destruct (K_eq_dec k' k0); [reflexivity | exact IH].
Qed.

Lemma set_set k v v' m : set k v' (set k v m) = set k v' m.
Proof.
induction m as [|[k0 v0] m IH]; simpl.
- destruct (K_eq_dec k k); congruence.
- destruct (K_eq_dec k k0) as [E|N]; simpl.
  + destruct (K_eq_dec k k0); congruence.
  + destruct (K_eq_dec k k0); [contradiction | now rewrite IH].
Qed.

Lemma get_In k v m : get k m = Some v -> In (k, v) m.
Proof.
induction m as [|[k0 v0] m IH]; simpl; [discriminate|].
destruct (K_eq_dec k k0) as [->|N].
- intros [= ->]. now left.
- intros H. right. auto.
Qed.

Lemma set_In k v m p : In p (set k v m) -> In p m \/ p = (k, v).
Proof.
induction m as [|[k0 v0] m IH]; simpl.
- intros [<-|[]]. now right.
- destruct (K_eq_dec k k0) as [->|N]; simpl.
  + intros [<-|H]; auto.
  + intros [<-|H]; auto. destruct (IH H); auto.
Qed.

Lemma has_get k m : has k m = true <-> exists v, get k m = Some v.
Proof.
unfold has. destruct (get k m); split; eauto; try discriminate.
intros [v [=]].
Qed.

Lemma has_false_get k m : has k m = false <-> get k m = None.
Proof. unfold has. destruct (get k m); split; congruence. Qed.
End WithKey.
End JsMap.

(** ** Edit distance: what the distance of two strings is

    A single edit inserts, deletes or replaces one character anywhere in
    the string.  [edits n s t] chains [n] of them; [min_edits] is the least
    such [n].  This is the notion the table of [levenshteinDistance] is
    compared with. *)

Module EditDistance.

Inductive edit1 : list ascii -> list ascii -> Prop :=
| edit_insert c s : edit1 s (c :: s)
| edit_delete c s : edit1 (c :: s) s
| edit_subst c c' s : edit1 (c :: s) (c' :: s)
| edit_under c s s' : edit1 s s' -> edit1 (c :: s) (c :: s').

Inductive edits : nat -> list ascii -> list ascii -> Prop :=
| edits_done s : edits 0 s s
| edits_step n s t u : edit1 s t -> edits n t u -> edits (S n) s u.

Definition min_edits (a b : list ascii) (n : nat) : Prop :=
  edits n a b /\ forall m, edits m a b -> n <= m.

(** An alignment reads both strings left to right; its cost counts the
    columns that are not a match. *)
Inductive align : nat -> list ascii -> list ascii -> Prop :=
| al_nil : align 0 [] []
| al_keep n c s t : align n s t -> align n (c :: s) (c :: t)
| al_subst n c c' s t : align n s t -> align (S n) (c :: s) (c' :: t)
| al_delete n c s t : align n s t -> align (S n) (c :: s) t
| al_insert n c s t : align n s t -> align (S n) s (c :: t).

(** The recursive distance, heads first.  On equal heads it takes the
    diagonal alone, as the table does. *)
Fixpoint dist (a b : list ascii) : nat :=
  match a with
  | [] => length b
  | x :: a' =>
      (fix inner (b : list ascii) : nat :=
         match b with
         | [] => length a
         | y :: b' =>
             if Ascii.eqb x y then dist a' b'
             else Nat.min (dist a' b' + 1)
                          (Nat.min (dist a' b + 1) (inner b' + 1))
         end) b
  end.

Lemma dist_nil_r a : dist a [] = length a.
Proof. destruct a; reflexivity. Qed.

Lemma dist_cons x a y b :
  dist (x :: a) (y :: b) =
  if Ascii.eqb x y then dist a b
  else Nat.min (dist a b + 1)
               (Nat.min (dist a (y :: b) + 1) (dist (x :: a) b + 1)).
Proof. reflexivity. Qed.

(** *** Alignments and edit chains *)

Lemma align_refl s : align 0 s s.
Proof. induction s; constructor; auto. Qed.

Lemma align_sym n s t : align n s t -> align n t s.
Proof. induction 1; constructor; auto. Qed.

Lemma align_app n s t n' s' t' :
  align n s t -> align n' s' t' -> align (n + n') (s ++ s') (t ++ t').
Proof.
  intros H H'. induction H; simpl; try (constructor; assumption).
  assumption.
Qed.

Lemma align_rev n s t : align n s t -> align n (rev s) (rev t).
Proof.
  induction 1; simpl.
  - constructor.
  - replace n with (n + 0) by lia. apply align_app; auto.
    apply al_keep, al_nil.
  - replace (S n) with (n + 1) by lia. apply align_app; auto.
    apply al_subst, al_nil.
  - replace (S n) with (n + 1) by lia.
    rewrite <- (app_nil_r (rev t)). apply align_app; auto.
    apply al_delete, al_nil.
  - replace (S n) with (n + 1) by lia.
    rewrite <- (app_nil_r (rev s)). apply align_app; auto.
    apply al_insert, al_nil.
Qed.

Lemma edit1_sym s t : edit1 s t -> edit1 t s.
Proof. induction 1; constructor; auto. Qed.

Lemma edits_under c n s t : edits n s t -> edits n (c :: s) (c :: t).
Proof.
  induction 1; [constructor|].
  econstructor; [apply edit_under; eassumption | assumption].
Qed.

Lemma edits_trans n m s t u :
  edits n s t -> edits m t u -> edits (n + m) s u.
Proof.
  induction 1; simpl; auto. intros Hm.
  econstructor; [eassumption | auto].
Qed.

Lemma edits_one s t : edit1 s t -> edits 1 s t.
Proof. intros H. econstructor; [exact H | constructor]. Qed.

(** Every alignment of cost [n] is a chain of [n] edits. *)
Lemma align_edits n s t : align n s t -> edits n s t.
Proof.
  induction 1.
  - constructor.
  - now apply edits_under.
  - apply (@edits_step n (c :: s) (c' :: s) (c' :: t)).
    + constructor.
    + now apply edits_under.
  - apply (@edits_step n (c :: s) s t); [constructor | assumption].
  - replace (S n) with (n + 1) by lia.
    apply (@edits_trans n 1 s t (c :: t)); auto.
    apply edits_one. constructor.
Qed.

(** One more edit in front of an alignment costs at most one more. *)
Lemma align_delete_head c s :
  forall n t, align n (c :: s) t -> exists m, m <= S n /\ align m s t.
Proof.
  intros n t H. remember (c :: s) as cs eqn:E.
  induction H; try discriminate.
  - injection E as -> ->. exists (S n). split; [lia|]. now constructor.
  - injection E as -> ->. exists (S n). split; [lia|]. now constructor.
  - injection E as -> ->. exists n. split; [lia | assumption].
  - destruct (IHalign E) as [m [Hm Ha]].
    exists (S m). split; [lia|]. now constructor.
Qed.

Lemma align_subst_head c c' s :
  forall n t, align n (c :: s) t ->
              exists m, m <= S n /\ align m (c' :: s) t.
Proof.
  intros n t H. remember (c :: s) as cs eqn:E.
  induction H; try discriminate.
  - injection E as -> ->. exists (S n). split; [lia|]. now constructor.
  - injection E as -> ->. exists (S n). split; [lia|]. now constructor.
  - injection E as -> ->. exists (S n). split; [lia|]. now constructor.
  - destruct (IHalign E) as [m [Hm Ha]].
    exists (S m). split; [lia|]. now constructor.
Qed.

Lemma align_under c s s' :
  (forall n t, align n s t -> exists m, m <= S n /\ align m s' t) ->
  forall n t, align n (c :: s) t ->
              exists m, m <= S n /\ align m (c :: s') t.
Proof.
  intros IH n t H. remember (c :: s) as cs eqn:E.
  induction H; try discriminate.
  - injection E as -> ->. destruct (IH _ _ H) as [m [Hm Ha]].
    exists m. split; [lia|]. now constructor.
  - injection E as -> ->. destruct (IH _ _ H) as [m [Hm Ha]].
    exists (S m). split; [lia|]. now constructor.
  - injection E as -> ->. destruct (IH _ _ H) as [m [Hm Ha]].
    exists (S m). split; [lia|]. now constructor.
  - destruct (IHalign E) as [m [Hm Ha]].
    exists (S m). split; [lia|]. now constructor.
Qed.

Lemma align_edit1 s s' :
  edit1 s s' ->
  forall n t, align n s t -> exists m, m <= S n /\ align m s' t.
Proof.
  induction 1; intros n t Ha.
  - exists (S n). split; [lia|]. now constructor.
  - eapply align_delete_head; eassumption.
  - eapply align_subst_head; eassumption.
  - eapply align_under; eassumption.
Qed.

(** Every chain of [n] edits is matched by an alignment of cost at most
    [n]. *)
Lemma edits_align n s t : edits n s t -> exists m, m <= n /\ align m s t.
Proof.
  induction 1 as [s | n s t u H1 Hn [m [Hm Ha]]].
  - exists 0. split; [lia | apply align_refl].
  - destruct (align_edit1 (edit1_sym H1) Ha) as [m' [Hm' Ha']].
    exists m'. split; [lia | assumption].
Qed.

(** *** The recursive distance is the least alignment cost *)

Lemma align_nil_l t : align (length t) [] t.
Proof. induction t; simpl; constructor; auto. Qed.

Lemma align_nil_r s : align (length s) s [].
Proof. induction s; simpl; constructor; auto. Qed.

Lemma dist_align a : forall b, align (dist a b) a b.
Proof.
  induction a as [|x a IHa]; intros b.
  - simpl. apply align_nil_l.
  - induction b as [|y b IHb].
    + rewrite dist_nil_r. apply align_nil_r.
    + rewrite dist_cons. destruct (Ascii.eqb_spec x y) as [->|N].
      * constructor. apply IHa.
      * specialize (IHa b) as Hd. specialize (IHa (y :: b)) as Hl.
        destruct (Nat.min_spec (dist a b + 1)
                    (Nat.min (dist a (y :: b) + 1) (dist (x :: a) b + 1)))
          as [[_ ->]|[_ ->]].
        -- rewrite Nat.add_1_r. now constructor.
        -- destruct (Nat.min_spec (dist a (y :: b) + 1)
                       (dist (x :: a) b + 1)) as [[_ ->]|[_ ->]];
             rewrite Nat.add_1_r; now constructor.
Qed.

Lemma align_length_l n t : align n [] t -> n = length t.
Proof.
  remember [] as s eqn:E. induction 1; try discriminate; simpl; auto.
Qed.

Lemma align_length_r n s : align n s [] -> n = length s.
Proof.
  remember [] as t eqn:E. induction 1; try discriminate; simpl; auto.
Qed.

(** No alignment is cheaper than [dist].  The induction is on the total
    length, because the case of equal heads below a deletion or an
    insertion goes through a shorter pair. *)
Lemma dist_le_align_sized k :
  forall n a b, length a + length b <= k -> align n a b -> dist a b <= n.
Proof.
  induction k as [|k IH]; intros n a b Hk Ha.
  - destruct a, b; simpl in Hk; try lia.
    apply align_length_l in Ha. simpl in *. lia.
  - destruct Ha as [|n c s t Ha|n c c' s t Ha|n c s t Ha|n c s t Ha].
    + simpl. lia.
    + rewrite dist_cons, Ascii.eqb_refl. apply IH; simpl in *; [lia|auto].
    + assert (dist s t <= n) by (apply IH; simpl in *; [lia|auto]).
      rewrite dist_cons. destruct (Ascii.eqb c c'); lia.
    + destruct t as [|y t].
      * rewrite dist_nil_r. apply align_length_r in Ha. simpl. lia.
      * rewrite dist_cons. destruct (Ascii.eqb_spec c y) as [->|N].
        -- destruct (align_delete_head (align_sym Ha)) as [m [Hm Hb]].
           apply align_sym in Hb.
           assert (dist s t <= m) by (apply IH; simpl in *; [lia|auto]).
           lia.
        -- assert (dist s (y :: t) <= n)
             by (apply IH; simpl in *; [lia|auto]).
           lia.
    + destruct s as [|x s].
      * apply align_length_l in Ha. simpl. lia.
      * rewrite dist_cons. destruct (Ascii.eqb_spec x c) as [->|N].
        -- destruct (align_delete_head Ha) as [m [Hm Hb]].
           assert (dist s t <= m) by (apply IH; simpl in *; [lia|auto]).
           lia.
        -- assert (dist (x :: s) t <= n)
             by (apply IH; simpl in *; [lia|auto]).
           lia.
Qed.

Lemma dist_le_align n a b : align n a b -> dist a b <= n.
Proof. apply (@dist_le_align_sized (length a + length b)). lia. Qed.

(** [dist] is the least number of single edits. *)
Lemma dist_min_edits a b : min_edits a b (dist a b).
Proof.
  split.
  - apply align_edits, dist_align.
  - intros m Hm. destruct (edits_align Hm) as [k [Hk Ha]].
    apply dist_le_align in Ha. lia.
Qed.

Lemma min_edits_unique a b n m : min_edits a b n -> min_edits a b m -> n = m.
Proof.
  intros [H1 H2] [H3 H4]. apply H2 in H3. apply H4 in H1. lia.
Qed.

(** Reading both strings backwards does not change the distance; the
    table works on prefixes, that is, from the last character. *)
Lemma dist_rev a b : dist (rev a) (rev b) = dist a b.
Proof.
  apply Nat.le_antisymm.
  - apply dist_le_align, align_rev, dist_align.
  - rewrite <- (rev_involutive a) at 1. rewrite <- (rev_involutive b) at 1.
    apply dist_le_align, align_rev, dist_align.
Qed.

End EditDistance.

(** ** Strings as lists of code units *)

Module Str.

Definition chars (s : string) : list ascii := list_ascii_of_string s.
Definition ofChars (l : list ascii) : string := string_of_list_ascii l.

Lemma chars_ofChars l : chars (ofChars l) = l.
Proof. apply list_ascii_of_string_of_list_ascii. Qed.

Lemma ofChars_chars s : ofChars (chars s) = s.
Proof. apply string_of_list_ascii_of_string. Qed.

Lemma length_chars s : length (chars s) = String.length s.
Proof. induction s; simpl; auto. Qed.

Lemma chars_append s t : chars (s ++ t)%string = chars s ++ chars t.
Proof. induction s; simpl; [reflexivity | now f_equal]. Qed.

(** [s.charAt(n)]: [None] stands for the empty string JavaScript returns
    out of range. *)
Definition charAt (s : string) (n : nat) : option ascii := String.get n s.

Lemma charAt_chars s : forall n, charAt s n = nth_error (chars s) n.
Proof.
  unfold charAt. induction s as [|c s IH]; intros [|n]; simpl; auto.
Qed.

(** [x === y] on the results of [charAt]. *)
Definition charEqb (x y : option ascii) : bool :=
  match x, y with
  | Some c, Some d => Ascii.eqb c d
  | None, None => true
  | _, _ => false
  end.

(** [s.substring(i, i + n)] for [i + n] within the string. *)
Definition substring (i n : nat) (s : string) : string :=
  String.substring i n s.

Lemma chars_substring s : forall i n,
  chars (substring i n s) = firstn n (skipn i (chars s)).
Proof.
  unfold substring.
  induction s as [|c s IH]; intros [|i] [|n]; simpl; auto.
  now rewrite (IH 0 n).
Qed.

(** The separator of the memo keys. *)
Definition sep : ascii := ":"%char.

Fixpoint sepFree (s : string) : bool :=
  match s with
  | EmptyString => true
  | String c s' => negb (Ascii.eqb c sep) && sepFree s'
  end.

Definition pairKey (a b : string) : string := (a ++ ":" ++ b)%string.

(** On separator-free left parts the key determines the pair. *)
Lemma pairKey_inj a : forall b a' b',
  sepFree a = true -> sepFree b = true ->
  pairKey a b = pairKey a' b' -> a = a' /\ b = b'.
Proof.
  unfold pairKey.
  induction a as [|c a IH]; intros b a' b' Ha Hb E.
  - destruct a' as [|c' a']; simpl in E.
    + injection E as ->. auto.
    + injection E as <- ->. exfalso.
      clear -Hb. induction a' as [|d a' IH']; simpl in Hb.
      * discriminate.
      * apply andb_prop in Hb as [_ Hb]. auto.
  - simpl in Ha. apply andb_prop in Ha as [Hc Ha].
    destruct a' as [|c' a']; simpl in E.
    + injection E as -> _. discriminate.
    + injection E as <- E. destruct (IH _ _ _ Ha Hb E) as [-> ->]. auto.
Qed.

End Str.

(** ** Arrays written by index *)

Module JsArray.
Section WithElem.
Variable X : Type.

(** [l[k] = v] for [k <= l.length]: an update inside the array, a push at
  its end. *)
Definition setAt (k : nat) (v : X) (l : list X) : list X :=
firstn k l ++ v :: skipn (S k) l.

Lemma setAt_end v l : setAt (length l) v l = l ++ [v].
Proof.
unfold setAt. rewrite firstn_all, skipn_all2 by (simpl; lia). reflexivity.
Qed.

Lemma setAt_middle v pre x post :
setAt (length pre) v (pre ++ x :: post) = pre ++ v :: post.
Proof.
unfold setAt. induction pre as [|y pre IH]; simpl; [reflexivity|].
now f_equal.
Qed.

(** A counting loop [for (k = start; k < start + n; k++)] keeps an
  invariant indexed by the counter. *)
Lemma loop_invariant (S' : Type) (P : nat -> S' -> Prop)
    (f : S' -> nat -> S') :
forall n start s,
  P start s ->
  (forall k s, start <= k < start + n -> P k s -> P (S k) (f s k)) ->
  P (start + n) (fold_left f (seq start n) s).
Proof.
induction n as [|n IH]; intros start s H0 Hstep; simpl.
- now rewrite Nat.add_0_r.
- rewrite <- Nat.add_succ_comm. apply IH.
  + apply Hstep; [lia | assumption].
  + intros k s' Hk. apply Hstep. lia.
Qed.
End WithElem.
End JsArray.

(** ** The flat engine ([src/vultus.js]): edit distance *)

Module Levenshtein.
Import Str JsArray EditDistance.

Definition Matrix := list (list nat).

Definition getCell (m : Matrix) (i j : nat) : nat := nth j (nth i m []) 0.

(** [matrix[i][j] = v] *)
Definition setCell (m : Matrix) (i j v : nat) : Matrix :=
  setAt i (setAt j v (nth i m [])) m.

Section Table.
Variables a b : string.

(** [for (i = 0; i <= b.length; i++) matrix[i] = [i]] *)
Definition newRows : Matrix :=
  fold_left (fun m i => setAt i [i] m) (seq 0 (S (String.length b))) [].

(** [for (j = 0; j <= a.length; j++) matrix[0][j] = j] *)
Definition firstRow (m : Matrix) : Matrix :=
  fold_left (fun m j => setCell m 0 j j) (seq 0 (S (String.length a))) m.

(** The body of the inner loop: the value written to [matrix[i][j]]. *)
Definition cell (m : Matrix) (i j : nat) : nat :=
  if charEqb (charAt b (i - 1)) (charAt a (j - 1))
  then getCell m (i - 1) (j - 1)
  else Nat.min (getCell m (i - 1) (j - 1) + 1)
               (Nat.min (getCell m i (j - 1) + 1)
                        (getCell m (i - 1) j + 1)).

(** [for (j = 1; j <= a.length; j++) matrix[i][j] = ...] *)
Definition fillRow (m : Matrix) (i : nat) : Matrix :=
  fold_left (fun m j => setCell m i j (cell m i j))
            (seq 1 (String.length a)) m.

(** [for (i = 1; i <= b.length; i++) ...] *)
Definition levenshteinTable : Matrix :=
  fold_left fillRow (seq 1 (String.length b)) (firstRow newRows).

Definition tableDistance : nat :=
  getCell levenshteinTable (String.length b) (String.length a).

(** *** The table holds the distances of the prefixes *)

Let A := chars a.
Let B := chars b.
Let la := String.length a.
Let lb := String.length b.

(** Row [i], column [j]: the first [i] characters of [b] against the
    first [j] characters of [a]. *)
Definition prefixDist (i j : nat) : nat :=
  dist (rev (firstn j A)) (rev (firstn i B)).

Definition fullRow (i : nat) : list nat :=
  map (prefixDist i) (seq 0 (S la)).

Lemma nth_map_seq (f : nat -> nat) s n k d :
  k < n -> nth k (map f (seq s n)) d = f (s + k).
Proof.
  intros H. rewrite (nth_indep _ d (f 0)) by (rewrite length_map, length_seq; lia).
  rewrite map_nth. now rewrite seq_nth.
Qed.

Lemma firstn_snoc (X : Type) (l : list X) k x :
  nth_error l k = Some x -> firstn (S k) l = firstn k l ++ [x].
Proof.
  revert k. induction l as [|y l IH]; intros [|k]; simpl; try discriminate.
  - now intros [= ->].
  - intros H. f_equal. now apply IH.
Qed.

Lemma prefixDist_0_l j : j <= la -> prefixDist 0 j = j.
Proof.
  intros H. unfold prefixDist. simpl. rewrite dist_nil_r, length_rev.
  rewrite length_firstn. unfold A. rewrite length_chars. fold la. lia.
Qed.

Lemma prefixDist_0_r i : i <= lb -> prefixDist i 0 = i.
Proof.
  intros H. unfold prefixDist. simpl. rewrite length_rev.
  rewrite length_firstn. unfold B. rewrite length_chars. fold lb. lia.
Qed.

Lemma charEqb_sym x y : charEqb x y = charEqb y x.
Proof. destruct x, y; simpl; auto. apply Ascii.eqb_sym. Qed.

Lemma prefixDist_step i j :
  1 <= i <= lb -> 1 <= j <= la ->
  prefixDist i j =
  if charEqb (charAt b (i - 1)) (charAt a (j - 1))
  then prefixDist (i - 1) (j - 1)
  else Nat.min (prefixDist (i - 1) (j - 1) + 1)
               (Nat.min (prefixDist i (j - 1) + 1)
                        (prefixDist (i - 1) j + 1)).
Proof.
  intros Hi Hj. unfold prefixDist.
  destruct i as [|i]; [lia|]. destruct j as [|j]; [lia|].
  simpl Nat.sub. rewrite !Nat.sub_0_r.
  rewrite !charAt_chars. fold A B.
  destruct (nth_error B i) as [y|] eqn:Ey.
  2:{ apply nth_error_None in Ey. unfold B in Ey.
      rewrite length_chars in Ey. fold lb in Ey. lia. }
  destruct (nth_error A j) as [x|] eqn:Ex.
  2:{ apply nth_error_None in Ex. unfold A in Ex.
      rewrite length_chars in Ex. fold la in Ex. lia. }
  rewrite (firstn_snoc Ey), (firstn_snoc Ex), !rev_unit.
  rewrite dist_cons. simpl charEqb. rewrite (Ascii.eqb_sym y x).
  reflexivity.
Qed.

Lemma newRows_eq : newRows = map (fun i => [i]) (seq 0 (S lb)).
Proof.
  unfold newRows. fold lb.
  apply (@loop_invariant Matrix
           (fun k m => m = map (fun i => [i]) (seq 0 k))
           (fun m i => setAt i [i] m) (S lb) 0 []); [reflexivity|].
  intros k m _ ->.
  replace k with (length (map (fun i => [i]) (seq 0 k))) at 1
    by (rewrite length_map, length_seq; reflexivity).
  rewrite setAt_end, seq_S, map_app. reflexivity.
Qed.

Lemma setCell_row pre row post i j v :
  length pre = i ->
  setCell (pre ++ row :: post) i j v = pre ++ setAt j v row :: post.
Proof.
  intros <-. unfold setCell. rewrite nth_middle. apply setAt_middle.
Qed.

Lemma firstRow_eq rest :
  firstRow ([0] :: rest) = seq 0 (S la) :: rest.
Proof.
  unfold firstRow. fold la.
  apply (@loop_invariant Matrix
           (fun k m => m = seq 0 (Nat.max 1 k) :: rest)
           (fun m j => setCell m 0 j j) (S la) 0 ([0] :: rest));
    [reflexivity|].
  intros k m _ ->.
  change (seq 0 (Nat.max 1 k) :: rest)
    with ([] ++ seq 0 (Nat.max 1 k) :: rest).
  rewrite (@setCell_row [] _ rest 0 k k eq_refl). simpl app. f_equal.
  destruct k as [|k]; [reflexivity|].
  replace (Nat.max 1 (S k)) with (S k) by lia.
  replace (Nat.max 1 (S (S k))) with (S (S k)) by lia.
  replace (S k) with (length (seq 0 (S k))) at 1
    by (rewrite length_seq; reflexivity).
  rewrite setAt_end. now rewrite <- seq_S.
Qed.

Lemma fillRow_eq i pre post :
  1 <= i <= lb -> length pre = i ->
  nth (i - 1) pre [] = fullRow (i - 1) ->
  fillRow (pre ++ [i] :: post) i = pre ++ fullRow i :: post.
Proof.
  intros Hi Hlen Hprev. unfold fillRow, fullRow. fold la.
  replace (S la) with (1 + la) by lia.
  apply (@loop_invariant Matrix
           (fun k m => m = pre ++ map (prefixDist i) (seq 0 k) :: post)
           (fun m j => setCell m i j (cell m i j)) la 1
           (pre ++ [i] :: post)).
  - simpl. rewrite prefixDist_0_r by lia. reflexivity.
  - intros k m Hk ->. rewrite (setCell_row _ _ _ _ Hlen).
    f_equal. f_equal.
    replace k with (length (map (prefixDist i) (seq 0 k))) at 1
      by (rewrite length_map, length_seq; reflexivity).
    rewrite setAt_end, seq_S, map_app. simpl. f_equal. f_equal.
    rewrite prefixDist_step by lia.
    unfold cell, getCell.
    assert (Hup : nth (i - 1) (pre ++ map (prefixDist i) (seq 0 k) :: post) []
                  = fullRow (i - 1)).
    { rewrite app_nth1 by lia. exact Hprev. }
    assert (Hcur : nth i (pre ++ map (prefixDist i) (seq 0 k) :: post) []
                   = map (prefixDist i) (seq 0 k)).
    { rewrite <- Hlen. apply nth_middle. }
    rewrite Hup, Hcur. unfold fullRow.
    rewrite !nth_map_seq by lia. simpl. reflexivity.
Qed.

Lemma fullRow_0 : fullRow 0 = seq 0 (S la).
Proof.
  unfold fullRow. rewrite <- (map_id (seq 0 (S la))) at 2.
  apply map_ext_in. intros j Hj. apply in_seq in Hj.
  apply prefixDist_0_l. lia.
Qed.

Lemma levenshteinTable_eq :
  levenshteinTable = map fullRow (seq 0 (S lb)).
Proof.
  unfold levenshteinTable. rewrite newRows_eq. fold lb.
  rewrite <- cons_seq. simpl map at 1. rewrite firstRow_eq.
  assert (H : fold_left fillRow (seq 1 lb)
                (seq 0 (S la) :: map (fun i => [i]) (seq 1 lb)) =
              map fullRow (seq 0 (1 + lb))
              ++ map (fun i => [i]) (seq (1 + lb) (S lb - (1 + lb)))).
  { apply (@loop_invariant Matrix
             (fun k m => m = map fullRow (seq 0 k)
                             ++ map (fun i => [i]) (seq k (S lb - k)))
             fillRow lb 1).
    - simpl. rewrite Nat.sub_0_r. now rewrite fullRow_0.
    - intros k m Hk ->.
      replace (S lb - k) with (S (lb - k)) by lia.
      rewrite <- (cons_seq (lb - k) k). cbn [map].
      rewrite fillRow_eq.
      + rewrite seq_S, map_app, <- app_assoc. cbn [map app Nat.add].
        replace (S lb - S k) with (lb - k) by lia. reflexivity.
      + lia.
      + rewrite length_map, length_seq. reflexivity.
      + rewrite (nth_indep _ [] (fullRow 0))
          by (rewrite length_map, length_seq; lia).
        rewrite map_nth, seq_nth by lia. reflexivity. }
  fold lb. rewrite H.
  replace (S lb - (1 + lb)) with 0 by lia. simpl seq at 2.
  simpl map at 2. now rewrite app_nil_r.
Qed.

Lemma levenshteinTable_rows : length levenshteinTable = lb + 1.
Proof.
  rewrite levenshteinTable_eq, length_map, length_seq. lia.
Qed.

Lemma levenshteinTable_cols :
  Forall (fun row => length row = la + 1) levenshteinTable.
Proof.
  rewrite levenshteinTable_eq. apply Forall_forall. intros row Hrow.
  apply in_map_iff in Hrow as [i [<- _]].
  unfold fullRow. rewrite length_map, length_seq. lia.
Qed.

Lemma getCell_table i j :
  i <= lb -> j <= la -> getCell levenshteinTable i j = prefixDist i j.
Proof.
  intros Hi Hj. unfold getCell. rewrite levenshteinTable_eq.
  rewrite (nth_indep _ [] (fullRow 0))
    by (rewrite length_map, length_seq; lia).
  rewrite map_nth, seq_nth by lia. unfold fullRow.
  rewrite nth_map_seq by lia. reflexivity.
Qed.

Lemma tableDistance_dist : tableDistance = dist A B.
Proof.
  unfold tableDistance. rewrite getCell_table by (unfold lb, la; lia).
  unfold prefixDist.
  rewrite !firstn_all2
    by (unfold A, B; rewrite length_chars; unfold la, lb; lia).
  apply dist_rev.
Qed.

Lemma tableDistance_min_edits : min_edits A B tableDistance.
Proof. rewrite tableDistance_dist. apply dist_min_edits. Qed.
End Table.

(** *** The memo table in front of the distance

    [this.levenshteinCache] maps the key [`${a}:${b}`] to the distance
    that was computed for it. *)

Definition LevCache := JsMap.t string nat.

Definition levenshteinDistance (a b : string) (c : LevCache)
  : nat * LevCache :=
  let cacheKey := pairKey a b in
  match JsMap.get string_dec cacheKey c with
  | Some d => (d, c)
  | None =>
      let result := tableDistance a b in
      (result, JsMap.set string_dec cacheKey result c)
  end.

(** The table after the calls of [history], oldest first, on a fresh
    engine. *)
Definition replay (history : list (string * string)) : LevCache :=
  fold_left (fun c p => snd (levenshteinDistance (fst p) (snd p) c))
            history (JsMap.empty string nat).

(** Every entry holds the distance of every pair that reads it. *)
Definition exact (c : LevCache) : Prop :=
  forall a b d,
    JsMap.get string_dec (pairKey a b) c = Some d -> d = tableDistance a b.

(** Every entry holds the distance of the separator-free pair that reads
    it.  Unlike [exact], this survives calls on arbitrary strings. *)
Definition sound (c : LevCache) : Prop :=
  forall a b d,
    sepFree a = true -> sepFree b = true ->
    JsMap.get string_dec (pairKey a b) c = Some d -> d = tableDistance a b.

Lemma exact_sound c : exact c -> sound c.
Proof. intros H a b d _ _. apply H. Qed.

Lemma exact_empty : exact (JsMap.empty string nat).
Proof. intros a b d. discriminate. Qed.

Lemma levenshteinDistance_exact a b c :
  exact c -> fst (levenshteinDistance a b c) = tableDistance a b.
Proof.
  intros Hc. unfold levenshteinDistance.
  destruct (JsMap.get string_dec (pairKey a b) c) as [d|] eqn:E; simpl; auto.
Qed.

Lemma levenshteinDistance_sound a b c :
  sound c -> sepFree a = true -> sepFree b = true ->
  fst (levenshteinDistance a b c) = tableDistance a b.
Proof.
  intros Hc Ha Hb. unfold levenshteinDistance.
  destruct (JsMap.get string_dec (pairKey a b) c) as [d|] eqn:E; simpl; auto.
Qed.

Lemma exact_step a b c :
  sepFree a = true -> sepFree b = true ->
  exact c -> exact (snd (levenshteinDistance a b c)).
Proof.
  intros Ha Hb Hc. unfold levenshteinDistance.
  destruct (JsMap.get string_dec (pairKey a b) c) as [d|] eqn:E; simpl; auto.
  intros a' b' d'.
  destruct (string_dec (pairKey a b) (pairKey a' b')) as [K|K].
  - rewrite <- K, JsMap.get_set_same. intros [= <-].
    destruct (pairKey_inj Ha Hb K) as [<- <-]. reflexivity.
  - rewrite JsMap.get_set_other by assumption. apply Hc.
Qed.

Lemma sound_step a b c :
  sound c -> sound (snd (levenshteinDistance a b c)).
Proof.
  intros Hc. unfold levenshteinDistance.
  destruct (JsMap.get string_dec (pairKey a b) c) as [d|] eqn:E; simpl; auto.
  intros a' b' d' Ha' Hb'.
  destruct (string_dec (pairKey a b) (pairKey a' b')) as [K|K].
  - rewrite <- K, JsMap.get_set_same. intros [= <-].
    symmetry in K. destruct (pairKey_inj Ha' Hb' K) as [<- <-]. reflexivity.
  - rewrite JsMap.get_set_other by assumption. now apply Hc.
Qed.

Definition sepFreePair (p : string * string) : Prop :=
  sepFree (fst p) = true /\ sepFree (snd p) = true.

Lemma exact_fold history : forall c,
  Forall sepFreePair history -> exact c ->
  exact (fold_left (fun c p => snd (levenshteinDistance (fst p) (snd p) c))
                   history c).
Proof.
  induction history as [|[a b] h IH]; intros c Hh Hc; simpl; auto.
  inversion Hh as [|? ? [Ha Hb] Hh']; subst.
  apply IH; auto. now apply exact_step.
Qed.

Lemma exact_replay history :
  Forall sepFreePair history -> exact (replay history).
Proof. intros H. apply exact_fold; [assumption | apply exact_empty]. Qed.

End Levenshtein.

(** ** Text utilities of the flat engine

    [#sanitizeText] and the tokenizer [split(/\s+/)], on code units below
    256.  [\w] is [A-Za-z0-9_]; [\s] is tab, line feed, vertical tab, form
    feed, carriage return, space and no-break space. *)

Module Text.
Import Str.

Definition code (c : ascii) : N := N_of_ascii c.

Definition inRange (lo hi : N) (c : ascii) : bool :=
  (lo <=? code c)%N && (code c <=? hi)%N.

Definition isWordChar (c : ascii) : bool :=
  inRange 48 57 c || inRange 65 90 c || inRange 97 122 c
  || (code c =? 95)%N.

Definition isSpace (c : ascii) : bool :=
  inRange 9 13 c || (code c =? 32)%N || (code c =? 160)%N.

Definition lowerChar (c : ascii) : ascii :=
  if inRange 65 90 c || (inRange 192 222 c && negb (code c =? 215)%N)
  then ascii_of_N (code c + 32)
  else c.

Definition toLowerCase (s : string) : string :=
  ofChars (map lowerChar (chars s)).

(** [text.replace(/[^\w\s]/gi, '').toLowerCase()] *)
Definition sanitizeText (text : string) : string :=
  toLowerCase (ofChars (filter (fun c => isWordChar c || isSpace c)
                               (chars text))).

(** [s.split(/\s+/)]: every maximal run of white space separates two
    tokens, so a leading or trailing run yields an empty token, and the
    empty string yields one empty token. *)
Fixpoint splitFrom (cur : list ascii) (inRun : bool) (s : list ascii)
  : list string :=
  match s with
  | [] => [ofChars (rev cur)]
  | c :: s' =>
      if isSpace c
      then if inRun then splitFrom [] true s'
           else ofChars (rev cur) :: splitFrom [] true s'
      else splitFrom (c :: cur) false s'
  end.

Definition split (s : string) : list string := splitFrom [] false (chars s).

(** [words.join(' ')] *)
Fixpoint join (words : list string) : string :=
  match words with
  | [] => ""
  | [w] => w
  | w :: ws => (w ++ " " ++ join ws)%string
  end.

Example split_plain : split "the  great gatsby" = ["the"; "great"; "gatsby"]%string.
Proof. reflexivity. Qed.

Example split_edges : split " a " = [""; "a"; ""]%string.
Proof. reflexivity. Qed.

Example split_empty : split "" = [""]%string.
Proof. reflexivity. Qed.

Example sanitizeText_ex : sanitizeText "F. Scott's  Age_1!" = "f scotts  age_1"%string.
Proof. reflexivity. Qed.

(** Normalised text never holds the separator of the memo keys. *)
Lemma lowerChar_not_sep c :
  isWordChar c || isSpace c = true -> Ascii.eqb (lowerChar c) sep = false.
Proof.
  destruct c as [[] [] [] [] [] [] [] []]; vm_compute; congruence.
Qed.

Lemma sepFree_ofChars l :
  Forall (fun c => Ascii.eqb c sep = false) l -> sepFree (ofChars l) = true.
Proof.
  induction 1 as [|c l Hc _ IH]; simpl; auto. now rewrite Hc, IH.
Qed.

Lemma sepFree_chars s :
  sepFree s = true -> Forall (fun c => Ascii.eqb c sep = false) (chars s).
Proof.
  induction s as [|c s IH]; simpl; intros H; constructor.
  - apply andb_prop in H as [H _]. now apply negb_true_iff.
  - apply andb_prop in H as [_ H]. auto.
Qed.

Lemma sanitizeText_sepFree text : sepFree (sanitizeText text) = true.
Proof.
  unfold sanitizeText, toLowerCase. apply sepFree_ofChars.
  rewrite chars_ofChars. apply Forall_forall. intros c Hc.
  apply in_map_iff in Hc as [c0 [<- Hc0]].
  apply filter_In in Hc0 as [_ Hc0]. now apply lowerChar_not_sep.
Qed.

Lemma In_firstn (X : Type) n (l : list X) x : In x (firstn n l) -> In x l.
Proof.
  intros H. rewrite <- (firstn_skipn n l). apply in_or_app. now left.
Qed.

Lemma In_skipn (X : Type) n (l : list X) x : In x (skipn n l) -> In x l.
Proof.
  intros H. rewrite <- (firstn_skipn n l). apply in_or_app. now right.
Qed.

Lemma substring_sepFree i n s :
  sepFree s = true -> sepFree (substring i n s) = true.
Proof.
  intros H. rewrite <- (ofChars_chars (substring i n s)).
  apply sepFree_ofChars. rewrite chars_substring.
  apply sepFree_chars in H. apply Forall_forall. intros c Hc.
  apply In_firstn, In_skipn in Hc.
  revert c Hc. now apply Forall_forall.
Qed.

(** Two or more words joined by a space are never the empty string. *)
Lemma join_length words :
  1 < length words -> exists c, In c (chars (join words)) /\ isSpace c = true.
Proof.
  destruct words as [|w [|w' ws]]; simpl; try lia. intros _.
  exists " "%char. split; [|reflexivity].
  rewrite chars_append. apply in_or_app. right. now left.
Qed.

Lemma sanitizeText_join_length words :
  1 < length words -> 1 <= String.length (sanitizeText (join words)).
Proof.
  intros H. destruct (join_length H) as [c [Hc Hs]].
  unfold sanitizeText, toLowerCase.
  rewrite <- length_chars, chars_ofChars, length_map, chars_ofChars.
  assert (Hin : In c (filter (fun c => isWordChar c || isSpace c)
                             (chars (join words)))).
  { apply filter_In. split; [assumption|]. rewrite Hs. apply orb_true_r. }
  destruct (filter _ _); [contradiction | simpl; lia].
Qed.

End Text.

(** ** The stemmer of the flat engine

    The two suffix tables come from [lists.js], which is not among the
    sources; they are parameters.  A table suffix is taken to be plain
    text, so that [new RegExp(suffix + "$")] matches exactly the suffix
    [endsWith] found. *)

Class Lists := {
  list_2_3 : list (string * string);
  list_4 : list string
}.

Module Stemmer.
Import Str.

Fixpoint isPrefix (p l : list ascii) : bool :=
  match p, l with
  | [], _ => true
  | x :: p', y :: l' => Ascii.eqb x y && isPrefix p' l'
  | _ :: _, [] => false
  end.

Definition endsWith (suffix word : string) : bool :=
  isPrefix (rev (chars suffix)) (rev (chars word)).

Definition dropEnd (n : nat) (word : string) : string :=
  ofChars (rev (skipn n (rev (chars word)))).

(** [/(s1|s2|...)$/.test(word)] *)
Definition testEnd (alternatives : list string) (word : string) : bool :=
  existsb (fun suffix => endsWith suffix word) alternatives.

(** The match of [/(s1|s2|...)$/] starts as far left as possible: it is
    the longest alternative the word ends with. *)
Definition matchEnd (alternatives : list string) (word : string)
  : option string :=
  fold_left
    (fun best suffix =>
       if endsWith suffix word
       then match best with
            | Some s => if String.length s <? String.length suffix
                        then Some suffix else best
            | None => Some suffix
            end
       else best)
    alternatives None.

(** [word.replace(/(s1|s2|...)$/, replacement)] *)
Definition replaceEnd (alternatives : list string) (replacement word : string)
  : string :=
  match matchEnd alternatives word with
  | Some suffix => (dropEnd (String.length suffix) word ++ replacement)%string
  | None => word
  end.

Definition oneOf (set : string) (c : ascii) : bool :=
  existsb (Ascii.eqb c) (chars set).

(** [word.replace(/([^s])s$/, "$1")] *)
Definition dropPluralS (word : string) : string :=
  match rev (chars word) with
  | s :: c :: _ =>
      if Ascii.eqb s "s" && negb (Ascii.eqb c "s") then dropEnd 1 word
      else word
  | _ => word
  end.

(** [/([^aeiouylsz])\1$/.test(base)] *)
Definition reDoubleConsonant (base : string) : bool :=
  match rev (chars base) with
  | c2 :: c1 :: _ => negb (oneOf "aeiouylsz" c1) && Ascii.eqb c1 c2
  | _ => false
  end.

(** [/[^aeiou][aeiouy][^aeiouwxy]$/.test(base)] *)
Definition reCvc (base : string) : bool :=
  match rev (chars base) with
  | c3 :: c2 :: c1 :: _ =>
      negb (oneOf "aeiou" c1) && oneOf "aeiouy" c2
      && negb (oneOf "aeiouwxy" c3)
  | _ => false
  end.

Definition reEdIngLy : list string := ["ed"; "edly"; "ing"; "ingly"]%string.
Definition reAtBlIz : list string := ["at"; "bl"; "iz"]%string.

Definition stemmer {L : Lists} (word : string) : string :=
  let word := replaceEnd ["sses"; "ies"]%string "ss" word in
  let word := dropPluralS word in
  let word :=
    if testEnd ["eed"; "eedly"]%string word
    then replaceEnd ["eed"; "eedly"]%string "ee" word
    else if testEnd reEdIngLy word
    then let base := replaceEnd reEdIngLy "" word in
         if testEnd reAtBlIz base then (base ++ "e")%string
         else if reDoubleConsonant base then dropEnd 1 base
         else if reCvc base then (base ++ "e")%string
         else base
    else word in
  let word := replaceEnd ["y"; "Y"]%string "i" word in
  match find (fun entry => endsWith (fst entry) word) list_2_3 with
  | Some (suffix, replacement) =>
      (dropEnd (String.length suffix) word ++ replacement)%string
  | None =>
      match find (fun suffix => endsWith suffix word) list_4 with
      | Some suffix => dropEnd (String.length suffix) word
      | None =>
          let word := replaceEnd ["e"]%string "" word in
          replaceEnd ["ll"]%string "l" word
      end
  end.

End Stemmer.

(** ** Numbers, values, documents, schema, fields, errors *)

Definition num (z : Z) : Qc := Q2Qc (inject_Z z).
Definition ofNat (n : nat) : Qc := num (Z.of_nat n).

Definition Qcltb (x y : Qc) : bool :=
  match (x ?= y)%Qc with Lt => true | _ => false end.

Definition Qcleb (x y : Qc) : bool :=
  match (x ?= y)%Qc with Gt => false | _ => true end.

Definition Qceqb (x y : Qc) : bool :=
  if Qc_eq_dec x y then true else false.

Inductive Value : Type :=
| VString (s : string)
| VNumber (n : Qc)
| VBoolean (b : bool).

Definition typeof (v : Value) : string :=
  match v with
  | VString _ => "string"
  | VNumber _ => "number"
  | VBoolean _ => "boolean"
  end.

Definition Value_eq_dec (x y : Value) : {x = y} + {x <> y}.
Proof.
  decide equality; [apply string_dec | apply Qc_eq_dec | apply bool_dec].
Defined.

Definition Props_eq_dec (x y : list (string * Value)) : {x = y} + {x <> y}.
Proof.
  apply list_eq_dec. decide equality; [apply Value_eq_dec | apply string_dec].
Defined.

(** [x === y] on field values. *)
Definition strictEq (x y : option Value) : bool :=
  match x, y with
  | Some v, Some v' => if Value_eq_dec v v' then true else false
  | None, None => true
  | _, _ => false
  end.

(** A document is a JavaScript object: [ref] is its identity, [props] its
    own properties in insertion order.  The engine never writes to a
    document. *)
Record Doc : Type := { ref : nat; props : list (string * Value) }.

(** [doc[key]]; [None] is [undefined]. *)
Definition prop (doc : Doc) (key : string) : option Value :=
  JsMap.get string_dec key (props doc).

(** The schema maps a field name to the name of a type. *)
Definition Schema := list (string * string).

Definition schemaType (schema : Schema) (key : string) : option string :=
  JsMap.get string_dec key schema.

Definition hasOwnProperty (V : Type) (o : list (string * V)) (key : string)
  : bool := JsMap.has string_dec key o.

(** Modelled from the spec: the class [Field] of [field.js], which is not
    among the sources.  "Field: name (from schema), weight (number, default
    1, clamped to [1,5] whenever set)."  [setWeight] stores the weight it is
    given; the clamping is done by [#setParameters] of the indexed engine
    before it calls [setWeight]. *)
Record Field : Type := { name : string; weight : Qc }.

Definition newField (key : string) : Field := {| name := key; weight := 1 |}.

Definition setWeight (w : Qc) (f : Field) : Field :=
  {| name := name f; weight := w |}.

Inductive Error : Type :=
| DocumentDoesNotMatchSchema
| UnexpectedParameterKey (key : string)
| FieldNotInSchema (fieldName : string)
| FieldDoesNotExist (key : string)
| UnrecognizedCondition (conditionKey key : string)
| ExpectedBoolean (key typeOfCondition : string)
| InvalidScoreCondition (key : string)
| InvalidScoreValue (score : Qc)
| TypeError (message : string)
| ErrorOf (cause : Error).

Inductive outcome (A : Type) : Type :=
| Ok (a : A)
| Throw (e : Error).
Arguments Ok {A} a.
Arguments Throw {A} e.

(** [for (const key in schema)]: both engines accept a document when every
    schema key is an own property whose [typeof] is the declared type. *)
Definition validateDoc (schema : Schema) (doc : Doc) : bool :=
  forallb (fun key =>
             match prop doc key, schemaType schema key with
             | Some v, Some ty => String.eqb (typeof v) ty
             | _, _ => false
             end)
          (JsMap.keys schema).

(** ** The flat engine ([src/vultus.js]): scoring

    The scorer reads and fills the memo table of the edit distance, so it
    is written in a state monad over that table.  A run either returns,
    throws, or does not terminate ([Loop]: the bounded loop below ran out
    of steps). *)

Module Vultus.
Import Str Text Stemmer.
Import Levenshtein.

Inductive run (A : Type) : Type :=
| Ret (a : A) (c : LevCache)
| Exn (e : Error) (c : LevCache)
| Loop.
Arguments Ret {A} a c.
Arguments Exn {A} e c.
Arguments Loop {A}.

Definition M (A : Type) : Type := LevCache -> run A.

Definition ret (A : Type) (a : A) : M A := fun c => Ret a c.

Definition bind (A B : Type) (m : M A) (f : A -> M B) : M B :=
  fun c => match m c with
           | Ret a c' => f a c'
           | Exn e c' => Exn e c'
           | Loop => Loop
           end.

Definition raise (A : Type) (e : Error) : M A := fun c => Exn e c.
Arguments raise {A} e.

Notation "x <- m ;; k" := (bind m (fun x => k))
  (at level 61, m at next level, right associativity).

(** [for (const x of l) { s = body(x, s) }] *)
Fixpoint forEach (X S : Type) (l : list X) (body : X -> S -> M S) (s : S)
  : M S :=
  match l with
  | [] => ret s
  | x :: l' => s' <- body x s ;; forEach l' body s'
  end.

(** [this.#levenshteinDistance(a, b)] *)
Definition levenshteinDistance (a b : string) : M nat :=
  fun c => let (d, c') := Levenshtein.levenshteinDistance a b c in Ret d c'.

Section Scoring.
Context {L : Lists}.

(** [Number(word)] on a query word; [None] when the result is no finite
    number, so that [!isNaN(word) && Number(word) === x] is false for
    every number [x] of the model. *)
Variable Number : string -> option Qc.

(** The loop of [#calculatePhraseScore], with [i] and [score] as its
    variables.  [fuel] bounds the number of times the condition is
    tested. *)
Fixpoint phraseLoop (fuel : nat) (fieldContent fullQuery : string)
         (fieldWeight : Qc) (i : nat) (score : Qc) : M Qc :=
  match fuel with
  | 0 => fun _ => Loop
  | S fuel' =>
      if (Z.of_nat i <=? Z.of_nat (String.length fieldContent)
                         - Z.of_nat (String.length fullQuery))%Z
      then
        let substring :=
          substring i (String.length fullQuery) fieldContent in
        distance <- levenshteinDistance fullQuery substring ;;
        if distance <? 3
        then phraseLoop fuel' fieldContent fullQuery fieldWeight
                        (i + String.length fullQuery)
                        (score + fieldWeight * num 5 / (ofNat distance + 1))%Qc
        else phraseLoop fuel' fieldContent fullQuery fieldWeight
                        (i + 1) score
      else ret score
  end.

Definition calculatePhraseScore (fieldContent : string)
           (queryWords : list string) (fieldWeight : Qc) : M Qc :=
  let fullQuery := sanitizeText (join queryWords) in
  phraseLoop (String.length fieldContent + 2) fieldContent fullQuery
             fieldWeight 0 0%Qc.

Definition calculateWordScore (fieldContent : string)
           (queryWords : list string) (fieldWeight : Qc) : M Qc :=
  let sanitizedQueryWords :=
    map (fun word => stemmer (sanitizeText word)) queryWords in
  let fieldContentWords := map stemmer (split fieldContent) in
  forEach sanitizedQueryWords
    (fun word score =>
       forEach fieldContentWords
         (fun fieldWord score =>
            distance <- levenshteinDistance word fieldWord ;;
            ret (if distance <? 3
                 then (score + fieldWeight / (ofNat distance + 1))%Qc
                 else score))
         score)
    0%Qc.

Definition calculateNumberScore (fieldContent : Value)
           (queryWords : list string) (fieldWeight : Qc) : Qc :=
  fold_left
    (fun score queryWord =>
       match Number queryWord, fieldContent with
       | Some n, VNumber x =>
           if Qceqb n x then (score + fieldWeight)%Qc else score
       | _, _ => score
       end)
    queryWords 0%Qc.

Definition calculateBooleanScore (fieldContent : Value)
           (queryWords : list string) (fieldWeight : Qc) : Qc :=
  let booleanQueryWords :=
    map (fun word =>
           if String.eqb word "true" then Some true
           else if String.eqb word "false" then Some false
           else None)
        queryWords in
  fold_left
    (fun score queryWord =>
       match queryWord, fieldContent with
       | Some q, VBoolean x =>
           if Bool.eqb q x then (score + fieldWeight)%Qc else score
       | _, _ => score
       end)
    booleanQueryWords 0%Qc.

(** [field.weight || 1] *)
Definition weightOrOne (field : Field) : Qc :=
  if Qceqb (weight field) 0 then 1%Qc else weight field.

(** The branch of [#calculateScore] for a field declared ['string']. *)
Definition scoreString (fieldContent : Value) (queryWords : list string)
           (fieldWeight : Qc) (score : Qc) : M Qc :=
  match fieldContent with
  | VString text =>
      let sanitizedFieldContent := sanitizeText text in
      score <- (if 1 <? length queryWords
                then p <- calculatePhraseScore sanitizedFieldContent
                                               queryWords fieldWeight ;;
                     ret (score + p)%Qc
                else ret score) ;;
      w <- calculateWordScore sanitizedFieldContent queryWords
                              fieldWeight ;;
      ret (score + w)%Qc
  | _ =>
      (* [#sanitizeText] returns a value that is not a string as it
         is; the phrase loop then never runs, and [split] is missing. *)
      raise (TypeError "fieldContent.split is not a function")
  end.

(** The body of the loop over [this.fields]. *)
Definition scoreField (schema : Schema) (doc : Doc)
           (queryWords : list string) (field : Field) (score : Qc)
  : M Qc :=
  match prop doc (name field) with
  | None => ret score
  | Some fieldContent =>
      let fieldType := schemaType schema (name field) in
      let fieldWeight := weightOrOne field in
      match fieldType with
      | Some ty =>
          if String.eqb ty "string"
          then scoreString fieldContent queryWords fieldWeight score
          else if String.eqb ty "number"
          then ret (score + calculateNumberScore fieldContent queryWords
                                                 fieldWeight)%Qc
          else if String.eqb ty "boolean"
          then ret (score + calculateBooleanScore fieldContent queryWords
                                                  fieldWeight)%Qc
          else ret score
      | None => ret score
      end
  end.

Definition calculateScore (schema : Schema) (fields : list Field)
           (doc : Doc) (queryWords : list string) : M Qc :=
  forEach fields (scoreField schema doc queryWords) 0%Qc.

End Scoring.

(** A reading of [Number] for the examples: an optionally signed run of
    decimal digits, and the empty string, which JavaScript reads as 0. *)
Definition digit (c : ascii) : option Z :=
  if Text.inRange 48 57 c then Some (Z.of_N (Text.code c) - 48)%Z else None.

Fixpoint digitsFrom (acc : Z) (l : list ascii) : option Z :=
  match l with
  | [] => Some acc
  | c :: l' =>
      match digit c with
      | Some d => digitsFrom (10 * acc + d)%Z l'
      | None => None
      end
  end.

Definition decimalNumber (s : string) : option Qc :=
  match chars s with
  | [] => Some 0%Qc
  | "-"%char :: (_ :: _) as l => option_map (fun z => num (- z)) (digitsFrom 0 l)
  | "+"%char :: (_ :: _) as l => option_map num (digitsFrom 0 l)
  | l => option_map num (digitsFrom 0 l)
  end.

End Vultus.

(** ** Facts about the scorer *)

Module ScoreFacts.
Import Str Text Stemmer Levenshtein EditDistance Vultus.

Local Open Scope Qc_scope.

Lemma Qcle_Q2Qc (p q : Q) : (p <= q)%Q -> Q2Qc p <= Q2Qc q.
Proof. intros H. unfold Qcle. simpl. now rewrite !Qred_correct. Qed.

Lemma ofNat_nonneg d : 0 <= ofNat d.
Proof.
  unfold ofNat, num. apply Qcle_Q2Qc.
  unfold Qle. simpl. lia.
Qed.

Lemma num5_nonneg : 0 <= num 5.
Proof. unfold num. apply Qcle_Q2Qc. unfold Qle. simpl. lia. Qed.

Lemma one_nonneg : 0 <= 1.
Proof. apply Qcle_Q2Qc. unfold Qle. simpl. lia. Qed.

Lemma denominator_nonneg d : 0 <= ofNat d + 1.
Proof.
  rewrite <- (Qcplus_0_l 0). apply Qcplus_le_compat;
    [apply ofNat_nonneg | apply one_nonneg].
Qed.

Lemma inv_nonneg (x : Qc) : 0 <= x -> 0 <= / x.
Proof.
  intros H. unfold Qcinv, Qcle in *. simpl in *. rewrite Qred_correct.
  now apply Qinv_le_0_compat.
Qed.

Lemma phrase_award_mono w w' d :
  w <= w' ->
  w * num 5 / (ofNat d + 1) <= w' * num 5 / (ofNat d + 1).
Proof.
  intros H. unfold Qcdiv. apply Qcmult_le_compat_r.
  - apply Qcmult_le_compat_r; [assumption | apply num5_nonneg].
  - apply inv_nonneg, denominator_nonneg.
Qed.

Lemma word_award_mono w w' d :
  w <= w' -> w / (ofNat d + 1) <= w' / (ofNat d + 1).
Proof.
  intros H. unfold Qcdiv. apply Qcmult_le_compat_r; [assumption|].
  apply inv_nonneg, denominator_nonneg.
Qed.

(** *** Two runs from the same memo table, the second never behind *)

Definition le_run (r r' : run Qc) : Prop :=
  match r, r' with
  | Ret s c, Ret s' c' => s <= s' /\ c = c'
  | Exn e c, Exn e' c' => e = e' /\ c = c'
  | Loop, Loop => True
  | _, _ => False
  end.

Lemma le_run_refl r : le_run r r.
Proof. destruct r; simpl; auto. split; [apply Qcle_refl | reflexivity]. Qed.

Lemma le_run_distance a b (k k' : nat -> M Qc) c :
  (forall d c', le_run (k d c') (k' d c')) ->
  le_run ((d <- levenshteinDistance a b ;; k d) c)
         ((d <- levenshteinDistance a b ;; k' d) c).
Proof.
  intros H. unfold bind, levenshteinDistance.
  destruct (Levenshtein.levenshteinDistance a b c) as [d c']. apply H.
Qed.

Lemma le_run_forEach (X : Type) (l : list X) (body body' : X -> Qc -> M Qc) :
  (forall x s s' c, s <= s' -> le_run (body x s c) (body' x s' c)) ->
  forall s s' c, s <= s' -> le_run (forEach l body s c) (forEach l body' s' c).
Proof.
  intros Hb. induction l as [|x l IH]; intros s s' c Hs; simpl.
  - split; auto.
  - unfold bind. specialize (Hb x s s' c Hs).
    destruct (body x s c) as [s1 c1|e1 c1|], (body' x s' c) as [s2 c2|e2 c2|];
      simpl in Hb; try contradiction; auto.
    destruct Hb as [Hs12 <-]. now apply IH.
Qed.

Section Monotone.
Context {L : Lists}.
Variable Number : string -> option Qc.

Lemma phraseLoop_mono fieldContent fullQuery w w' :
  w <= w' ->
  forall fuel i s s' c,
    s <= s' ->
    le_run (phraseLoop fuel fieldContent fullQuery w i s c)
           (phraseLoop fuel fieldContent fullQuery w' i s' c).
Proof.
  intros Hw. induction fuel as [|fuel IH]; intros i s s' c Hs; simpl; auto.
  destruct (_ <=? _)%Z.
  - apply le_run_distance. intros d c'. destruct (d <? 3).
    + apply IH. apply Qcplus_le_compat; [assumption|].
      now apply phrase_award_mono.
    + now apply IH.
  - split; auto.
Qed.

Lemma calculatePhraseScore_mono fieldContent queryWords w w' c :
  w <= w' ->
  le_run (calculatePhraseScore fieldContent queryWords w c)
         (calculatePhraseScore fieldContent queryWords w' c).
Proof.
  intros Hw. unfold calculatePhraseScore.
  apply phraseLoop_mono; [assumption | apply Qcle_refl].
Qed.

Lemma calculateWordScore_mono fieldContent queryWords w w' c :
  w <= w' ->
  le_run (calculateWordScore fieldContent queryWords w c)
         (calculateWordScore fieldContent queryWords w' c).
Proof.
  intros Hw. unfold calculateWordScore.
  apply le_run_forEach; [|apply Qcle_refl].
  intros word s s' c0 Hs. apply le_run_forEach; [|assumption].
  intros fieldWord s0 s0' c1 Hs0. apply le_run_distance.
  intros d c'. unfold ret. simpl. split; [|reflexivity].
  destruct (d <? 3); [|assumption].
  apply Qcplus_le_compat; [assumption | now apply word_award_mono].
Qed.

Lemma calculateNumberScore_mono fieldContent queryWords w w' :
  w <= w' ->
  calculateNumberScore Number fieldContent queryWords w
  <= calculateNumberScore Number fieldContent queryWords w'.
Proof.
  intros Hw. unfold calculateNumberScore.
  generalize (Qcle_refl 0). generalize 0 at 1 3. generalize 0.
  induction queryWords as [|q qs IH]; intros s' s Hs; simpl; auto.
  apply IH. destruct (Number q); [|assumption].
  destruct fieldContent; try assumption.
  destruct (Qceqb q0 n); [|assumption].
  now apply Qcplus_le_compat.
Qed.

Lemma calculateBooleanScore_mono fieldContent queryWords w w' :
  w <= w' ->
  calculateBooleanScore fieldContent queryWords w
  <= calculateBooleanScore fieldContent queryWords w'.
Proof.
  intros Hw. unfold calculateBooleanScore.
  generalize (Qcle_refl 0). generalize 0 at 1 3. generalize 0.
  induction (map _ queryWords) as [|q qs IH]; intros s' s Hs; simpl; auto.
  apply IH. destruct q; [|assumption].
  destruct fieldContent; try assumption.
  destruct (Bool.eqb b b0); [|assumption].
  now apply Qcplus_le_compat.
Qed.

Lemma le_run_bind (m m' : M Qc) (k k' : Qc -> M Qc) c :
  le_run (m c) (m' c) ->
  (forall p p' c', p <= p' -> le_run (k p c') (k' p' c')) ->
  le_run ((p <- m ;; k p) c) ((p <- m' ;; k' p) c).
Proof.
  intros H Hk. unfold bind.
  destruct (m c) as [p1 c1|e1 c1|], (m' c) as [p2 c2|e2 c2|];
    simpl in *; try contradiction; auto.
  destruct H as [Hp <-]. now apply Hk.
Qed.

Lemma le_run_ret_plus s s' p p' c :
  s <= s' -> p <= p' -> le_run (ret (s + p) c) (ret (s' + p') c).
Proof.
  intros Hs Hp. split; [|reflexivity]. now apply Qcplus_le_compat.
Qed.

Lemma scoreString_mono fieldContent queryWords w w' s s' c :
  w <= w' -> s <= s' ->
  le_run (scoreString fieldContent queryWords w s c)
         (scoreString fieldContent queryWords w' s' c).
Proof.
  intros Hw Hs. unfold scoreString.
  destruct fieldContent as [text| |]; try (simpl; auto; fail).
  apply le_run_bind.
  - destruct (1 <? length queryWords).
    + apply le_run_bind; [now apply calculatePhraseScore_mono|].
      intros p p' c' Hp. now apply le_run_ret_plus.
    + split; auto.
  - intros s1 s1' c1 Hs1.
    apply le_run_bind; [now apply calculateWordScore_mono|].
    intros p p' c' Hp. now apply le_run_ret_plus.
Qed.

Lemma scoreField_mono schema doc queryWords f f' s s' c :
  name f = name f' -> weightOrOne f <= weightOrOne f' -> s <= s' ->
  le_run (scoreField Number schema doc queryWords f s c)
         (scoreField Number schema doc queryWords f' s' c).
Proof.
  intros Hn Hw Hs. unfold scoreField. rewrite <- Hn.
  destruct (prop doc (name f)) as [content|]; [|split; auto].
  destruct (schemaType schema (name f)) as [ty|]; [|split; auto].
  destruct (String.eqb ty "string"); [now apply scoreString_mono|].
  destruct (String.eqb ty "number").
  { split; [|reflexivity]. apply Qcplus_le_compat; [assumption|].
    now apply calculateNumberScore_mono. }
  destruct (String.eqb ty "boolean"); [|split; auto].
  split; [|reflexivity]. apply Qcplus_le_compat; [assumption|].
  now apply calculateBooleanScore_mono.
Qed.

(** Two field lists with the same names, the weights of the second
    never smaller. *)
Definition weights_le (fields fields' : list Field) : Prop :=
  Forall2 (fun f f' => name f = name f'
                       /\ weightOrOne f <= weightOrOne f')
          fields fields'.

Lemma weights_le_refl fields : weights_le fields fields.
Proof.
  induction fields; constructor; auto. split; [reflexivity|apply Qcle_refl].
Qed.

Lemma forEach_fields_mono schema doc queryWords fields fields' :
  weights_le fields fields' ->
  forall s s' c,
    s <= s' ->
    le_run (forEach fields (scoreField Number schema doc queryWords) s c)
           (forEach fields' (scoreField Number schema doc queryWords) s' c).
Proof.
  induction 1 as [|f f' fs fs' [Hn Hw] _ IH]; intros s s' c Hs; simpl.
  - split; auto.
  - unfold bind.
    pose proof (@scoreField_mono schema doc queryWords f f' s s' c Hn Hw Hs)
      as H1.
    destruct (scoreField Number schema doc queryWords f s c)
      as [s1 c1|e1 c1|],
             (scoreField Number schema doc queryWords f' s' c)
      as [s2 c2|e2 c2|];
      simpl in H1; try contradiction; auto.
    destruct H1 as [Hs12 <-]. now apply IH.
Qed.

Lemma calculateScore_mono schema fields fields' doc queryWords c :
  weights_le fields fields' ->
  le_run (calculateScore Number schema fields doc queryWords c)
         (calculateScore Number schema fields' doc queryWords c).
Proof.
  intros H. unfold calculateScore.
  apply forEach_fields_mono; [assumption | apply Qcle_refl].
Qed.
End Monotone.

End ScoreFacts.

(** ** Phrase scoring as the specification words it

    A window as long as the query slides over the text.  Where the window
    is within edit distance 2 of the query it earns [w * 5 / (distance + 1)]
    and the scan resumes behind the window; elsewhere the scan moves on by
    one character.  [PhraseScan i p]: scanning from position [i] earns
    [p]. *)

Module PhraseSpec.
Import Str EditDistance.
Local Open Scope Qc_scope.

Section Scan.
Variables (w : Qc) (query text : string).

Definition window (i : nat) : string :=
  substring i (String.length query) text.

Inductive PhraseScan : nat -> Qc -> Prop :=
| scan_end i :
    (String.length text < i + String.length query)%nat ->
    PhraseScan i 0
| scan_hit i d rest :
    (i + String.length query <= String.length text)%nat ->
    min_edits (chars query) (chars (window i)) d ->
    (d < 3)%nat ->
    PhraseScan (i + String.length query) rest ->
    PhraseScan i (w * num 5 / (ofNat d + 1) + rest)
| scan_miss i d rest :
    (i + String.length query <= String.length text)%nat ->
    min_edits (chars query) (chars (window i)) d ->
    (3 <= d)%nat ->
    PhraseScan (i + 1) rest ->
    PhraseScan i rest.

(** A scan earns one amount only. *)
Lemma PhraseScan_functional i p :
  PhraseScan i p -> forall q, PhraseScan i q -> p = q.
Proof.
  induction 1 as [i Hi|i d rest Hi Hd Hlt _ IH|i d rest Hi Hd Hge _ IH];
    intros q Hq; inversion Hq as [? Hi'|? d' ? Hi' Hd' ? Hr|? d' ? Hi' Hd' ? Hr];
    subst; try lia; auto.
  - rewrite (min_edits_unique Hd Hd'). f_equal. auto.
  - pose proof (min_edits_unique Hd Hd'). lia.
  - pose proof (min_edits_unique Hd Hd'). lia.
Qed.
End Scan.
End PhraseSpec.

Module PhraseFacts.
Import Str Text Stemmer Levenshtein EditDistance Vultus PhraseSpec.
Local Open Scope Qc_scope.

Definition returns (A : Type) (r : run A) : Prop :=
  exists a c, r = Ret a c.

Lemma forEach_returns (X S : Type) (l : list X) (body : X -> S -> M S) :
  (forall x s c, returns (body x s c)) ->
  forall s c, returns (forEach l body s c).
Proof.
  intros Hb. induction l as [|x l IH]; intros s c; simpl.
  - now exists s, c.
  - unfold bind. destruct (Hb x s c) as [s1 [c1 ->]]. apply IH.
Qed.

Section WithLists.
Context {L : Lists}.
Variable Number : string -> option Qc.

Lemma phraseLoop_returns fieldContent fullQuery w :
  (1 <= String.length fullQuery)%nat ->
  forall fuel i score c,
    (String.length fieldContent + 1 - i < fuel)%nat ->
    returns (phraseLoop fuel fieldContent fullQuery w i score c).
Proof.
  intros HL. induction fuel as [|fuel IH]; intros i score c Hf; [lia|].
  simpl. destruct (Z.leb_spec (Z.of_nat i)
                     (Z.of_nat (String.length fieldContent)
                      - Z.of_nat (String.length fullQuery))) as [Hc|Hc].
  - unfold bind, levenshteinDistance.
    destruct (Levenshtein.levenshteinDistance _ _ c) as [d c'].
    destruct (d <? 3); apply IH; lia.
  - now exists score, c.
Qed.

Lemma calculatePhraseScore_returns fieldContent queryWords w c :
  (1 < length queryWords)%nat ->
  returns (calculatePhraseScore fieldContent queryWords w c).
Proof.
  intros H. unfold calculatePhraseScore. apply phraseLoop_returns.
  - now apply sanitizeText_join_length.
  - lia.
Qed.

Lemma calculateWordScore_returns fieldContent queryWords w c :
  returns (calculateWordScore fieldContent queryWords w c).
Proof.
  unfold calculateWordScore. apply forEach_returns.
  intros word s c0. apply forEach_returns. intros fieldWord s0 c1.
  unfold bind, levenshteinDistance.
  destruct (Levenshtein.levenshteinDistance _ _ c1) as [d c'].
  eexists _, _. reflexivity.
Qed.

Lemma scoreString_returns text queryWords w score c :
  returns (scoreString (VString text) queryWords w score c).
Proof.
  unfold scoreString, bind.
  destruct (1 <? length queryWords) eqn:E.
  - apply Nat.ltb_lt in E.
    destruct (@calculatePhraseScore_returns (sanitizeText text)
                queryWords w c E) as [p [c1 ->]]. unfold ret at 1.
    destruct (@calculateWordScore_returns (sanitizeText text)
                queryWords w c1) as [ws [c2 ->]].
    eexists _, _. reflexivity.
  - unfold ret at 1.
    destruct (@calculateWordScore_returns (sanitizeText text)
                queryWords w c) as [ws [c2 ->]].
    eexists _, _. reflexivity.
Qed.

(** In a document the schema accepts, a field declared ['string'] holds
    a string. *)
Lemma validateDoc_prop schema doc key ty v :
  validateDoc schema doc = true ->
  schemaType schema key = Some ty -> prop doc key = Some v ->
  typeof v = ty.
Proof.
  unfold validateDoc. intros Hv Hs Hp.
  rewrite forallb_forall in Hv.
  assert (Hin : In key (JsMap.keys schema)).
  { apply JsMap.get_In in Hs. change key with (fst (key, ty)).
    now apply in_map. }
  specialize (Hv key Hin).
  rewrite Hp, Hs in Hv. now apply String.eqb_eq.
Qed.

Lemma scoreField_returns schema doc queryWords field score c :
  validateDoc schema doc = true ->
  returns (scoreField Number schema doc queryWords field score c).
Proof.
  intros Hv. unfold scoreField.
  destruct (prop doc (name field)) as [content|] eqn:Ep;
    [|now exists score, c].
  destruct (schemaType schema (name field)) as [ty|] eqn:Es;
    [|now exists score, c].
  pose proof (validateDoc_prop Hv Es Ep) as Ht.
  destruct (String.eqb_spec ty "string") as [->|_].
  - destruct content; try discriminate. apply scoreString_returns.
  - destruct (String.eqb ty "number"); [eexists _, _; reflexivity|].
    destruct (String.eqb ty "boolean"); eexists _, _; reflexivity.
Qed.

Lemma calculateScore_returns schema fields doc queryWords c :
  validateDoc schema doc = true ->
  returns (calculateScore Number schema fields doc queryWords c).
Proof.
  intros Hv. unfold calculateScore. apply forEach_returns.
  intros f s c0. now apply scoreField_returns.
Qed.

(** The loop of [#calculatePhraseScore] earns what the scan of the
    specification earns. *)
Lemma phraseLoop_scan fieldContent fullQuery w :
  sepFree fieldContent = true -> sepFree fullQuery = true ->
  (1 <= String.length fullQuery)%nat ->
  forall fuel i score c,
    sound c ->
    (String.length fieldContent + 1 - i < fuel)%nat ->
    exists p c',
      phraseLoop fuel fieldContent fullQuery w i score c
      = Ret (score + p) c'
      /\ PhraseScan w fullQuery fieldContent i p
      /\ sound c'.
Proof.
  intros Hfc Hfq HL.
  induction fuel as [|fuel IH]; intros i score c Hc Hf; [lia|].
  simpl. destruct (Z.leb_spec (Z.of_nat i)
                     (Z.of_nat (String.length fieldContent)
                      - Z.of_nat (String.length fullQuery))) as [Hi|Hi].
  - unfold bind, levenshteinDistance.
    pose proof (@levenshteinDistance_sound fullQuery
                  (substring i (String.length fullQuery) fieldContent)
                  c Hc Hfq (substring_sepFree _ _ Hfc)) as Hd.
    pose proof (@sound_step fullQuery
                  (substring i (String.length fullQuery) fieldContent)
                  c Hc) as Hc'.
    destruct (Levenshtein.levenshteinDistance _ _ c) as [d c'].
    simpl in Hd, Hc'.
    assert (Hmin : min_edits (chars fullQuery)
                     (chars (window fullQuery fieldContent i)) d).
    { rewrite Hd. apply tableDistance_min_edits. }
    destruct (Nat.ltb_spec d 3) as [Hlt|Hge].
    + destruct (IH (i + String.length fullQuery)%nat
                   (score + w * num 5 / (ofNat d + 1)) c' Hc')
        as [p [c2 [E [Hs Hc2]]]]; [lia|].
      exists (w * num 5 / (ofNat d + 1) + p), c2.
      split; [now rewrite E, Qcplus_assoc|].
      split; [|assumption].
      apply scan_hit; auto. lia.
    + destruct (IH (i + 1)%nat score c' Hc') as [p [c2 [E [Hs Hc2]]]];
        [lia|].
      exists p, c2. split; [assumption|]. split; [|assumption].
      apply scan_miss with (d := d); auto. lia.
  - exists 0, c. split; [now rewrite Qcplus_0_r|].
    split; [|assumption]. apply scan_end. lia.
Qed.

Lemma calculatePhraseScore_scan text queryWords w c :
  sound c -> (1 < length queryWords)%nat ->
  exists p c',
    calculatePhraseScore (sanitizeText text) queryWords w c = Ret p c'
    /\ PhraseScan w (sanitizeText (join queryWords)) (sanitizeText text) 0 p
    /\ sound c'.
Proof.
  intros Hc Hq. unfold calculatePhraseScore.
  destruct (@phraseLoop_scan (sanitizeText text)
              (sanitizeText (join queryWords)) w
              (sanitizeText_sepFree _) (sanitizeText_sepFree _)
              (sanitizeText_join_length Hq)
              (String.length (sanitizeText text) + 2) 0%nat 0 c Hc)
    as [p [c' [E [Hs Hc']]]]; [lia|].
  exists p, c'. rewrite E, Qcplus_0_l. auto.
Qed.
End WithLists.
End PhraseFacts.

(** ** Properties of the edit distance *)

Section EditDistanceClaims.
Import Str EditDistance Levenshtein.

(** C4.  The edit-distance engine returns the least number of
    single-character insertions, deletions and substitutions that turn
    [a] into [b], which is the entry in the last row and column of the
    table of [len b + 1] rows and [len a + 1] columns.  The memo table is
    the one a fresh engine reaches through earlier calls on words without
    the key separator, which is what text normalisation leaves. *)
Theorem levenshteinDistance_is_min_edits
        (history : list (string * string)) (a b : string) :
  Forall sepFreePair history ->
  let table := levenshteinTable a b in
  let d := fst (levenshteinDistance a b (replay history)) in
  length table = String.length b + 1
  /\ Forall (fun row => length row = String.length a + 1) table
  /\ d = getCell table (String.length b) (String.length a)
  /\ min_edits (chars a) (chars b) d.
Proof.
  intros Hh table d. subst table d.
  rewrite (levenshteinDistance_exact a b (exact_replay Hh)).
  split; [apply levenshteinTable_rows|].
  split; [apply levenshteinTable_cols|].
  split; [reflexivity | apply tableDistance_min_edits].
Qed.

Lemma levenshteinDistance_is_min_edits_witness :
  Forall sepFreePair [("kitten", "sitting"); ("great", "grate")]%string
  /\ fst (levenshteinDistance "kitten" "sitting"
            (replay [("kitten", "sitting"); ("great", "grate")]%string)) = 3
  /\ min_edits (chars "kitten") (chars "sitting") 3.
Proof.
  assert (H : Forall sepFreePair
                [("kitten", "sitting"); ("great", "grate")]%string).
  { repeat constructor. }
  split; [exact H|].
  split; [reflexivity|].
  exact (proj2 (proj2 (proj2
           (@levenshteinDistance_is_min_edits _ "kitten" "sitting" H)))).
Defined.

(** The key [`${a}:${b}`] does not separate pairs that contain the
    separator: a pair can read the entry of another one. *)
Example levenshteinDistance_key_collision :
  let c := snd (levenshteinDistance "x:" "" (JsMap.empty string nat)) in
  fst (levenshteinDistance "x" ":" c) = 2
  /\ tableDistance "x" ":" = 1.
Proof. split; reflexivity. Qed.

End EditDistanceClaims.

(** ** The books of the examples *)

Module Books.
Local Open Scope string_scope.

Definition bookSchema : Schema := [("title", "string"); ("year", "number")].

Definition gatsby : Doc :=
  {| ref := 1;
     props := [("title", VString "The Great Gatsby");
               ("year", VNumber (num 1925))] |}.

Definition expectations : Doc :=
  {| ref := 2;
     props := [("title", VString "Great Expectations");
               ("year", VNumber (num 1861))] |}.

Definition iliad : Doc :=
  {| ref := 3;
     props := [("title", VString "The Iliad");
               ("year", VNumber (num (-762)))] |}.

(** A document without the [year] the schema declares. *)
Definition untitled : Doc :=
  {| ref := 4; props := [("title", VString "Great Untitled")] |}.

End Books.

(** ** Properties of the scorer of the flat engine *)

Section ScoreClaims.
Import Str Text Levenshtein EditDistance Vultus PhraseSpec.
Import ScoreFacts PhraseFacts.
Local Open Scope Qc_scope.

Context {L : Lists}.
Variable Number : string -> option Qc.

(** C8.  Phrase scoring of a string field.  With at most one query word
    no phrase match is attempted: the field earns its word score alone,
    computed from the untouched memo table.  With more words the phrase
    score is what the scan of the specification earns: a window as long
    as the normalised, space-joined query slides over the normalised
    field text, earns [w * 5 / (distance + 1)] and skips the matched span
    where the edit distance is below 3, and moves by one character
    elsewhere. *)
Theorem phrase_score_is_window_scan
        (c : LevCache) (fieldValue : string) (queryWords : list string)
        (w score : Qc) :
  sound c ->
  let text := sanitizeText fieldValue in
  let query := sanitizeText (join queryWords) in
  ((length queryWords <= 1)%nat ->
     scoreString (VString fieldValue) queryWords w score c
     = (ws <- calculateWordScore text queryWords w ;; ret (score + ws)) c)
  /\ ((1 < length queryWords)%nat ->
        exists p c1,
          calculatePhraseScore text queryWords w c = Ret p c1
          /\ PhraseScan w query text 0 p
          /\ scoreString (VString fieldValue) queryWords w score c
             = (ws <- calculateWordScore text queryWords w ;;
                ret (score + p + ws)) c1).
Proof.
  intros Hc text query. split.
  - intros Hq. unfold scoreString.
    replace (1 <? length queryWords) with false
      by (symmetry; apply Nat.ltb_ge; lia).
    reflexivity.
  - intros Hq.
    destruct (@calculatePhraseScore_scan fieldValue queryWords w c Hc Hq)
      as [p [c1 [E [Hs _]]]].
    exists p, c1. split; [exact E|]. split; [exact Hs|].
    unfold scoreString.
    replace (1 <? length queryWords) with true
      by (symmetry; apply Nat.ltb_lt; lia).
    fold text. unfold bind at 1 2. fold text in E. rewrite E. reflexivity.
Qed.

(** C9.  Raising the weight of one field within [1, 5], all other fields
    unchanged, never lowers the score of a document of the store. *)
Theorem score_monotone_in_weight
        (schema : Schema) (doc : Doc) (queryWords : list string)
        (before after : list Field) (f : Field) (w' : Qc) (c : LevCache) :
  validateDoc schema doc = true ->
  1 <= weight f -> weight f <= w' -> w' <= num 5 ->
  let fields := before ++ f :: after in
  let fields' := before ++ {| name := name f; weight := w' |} :: after in
  exists s s' c',
    calculateScore Number schema fields doc queryWords c = Ret s c'
    /\ calculateScore Number schema fields' doc queryWords c = Ret s' c'
    /\ s <= s'.
Proof.
  intros Hv H1 Hw H5 fields fields'.
  assert (Hle : weights_le fields fields').
  { apply Forall2_app; [apply weights_le_refl|].
    constructor; [|apply weights_le_refl].
    split; [reflexivity|]. unfold weightOrOne, Qceqb. simpl.
    destruct (Qc_eq_dec (weight f) 0) as [E|_].
    { rewrite E in H1. exfalso. revert H1. now vm_compute. }
    destruct (Qc_eq_dec w' 0) as [E|_]; [|assumption].
    subst w'. exfalso. pose proof (Qcle_trans _ _ _ H1 Hw) as H0.
    revert H0. now vm_compute. }
  pose proof (@calculateScore_mono L Number schema fields fields' doc
                queryWords c Hle) as Hm.
  destruct (@calculateScore_returns L Number schema fields doc queryWords c
              Hv) as [s [c1 E1]].
  destruct (@calculateScore_returns L Number schema fields' doc queryWords c
              Hv) as [s' [c2 E2]].
  rewrite E1, E2 in Hm. destruct Hm as [Hs <-].
  exists s, s', c1. auto.
Qed.

End ScoreClaims.

(** The tables of the examples hold the entries the documentation of the
    stemmer names. *)
Definition sampleLists : Lists :=
  {| list_2_3 := [("ational", "ate"); ("tional", "tion")]%string;
     list_4 := ["al"; "ance"; "ence"; "er"; "ic"; "able"; "ible"]%string |}.

Section ScoreExamples.
Import Str Text Levenshtein EditDistance Vultus PhraseSpec Books.
Local Open Scope Qc_scope.
Local Open Scope string_scope.

Lemma phrase_score_is_window_scan_witness :
  sound (JsMap.empty string nat)
  /\ exists p c1,
      calculatePhraseScore
        (sanitizeText "The Great Gatsby") ["the"; "great"] (num 2)
        (JsMap.empty string nat) = Ret p c1
      /\ PhraseScan (num 2) (sanitizeText (join ["the"; "great"]))
                    (sanitizeText "The Great Gatsby") 0 p.
Proof.
  split; [exact (exact_sound exact_empty)|].
  destruct (proj2 (@phrase_score_is_window_scan sampleLists
                     (JsMap.empty string nat) "The Great Gatsby"
                     ["the"; "great"] (num 2) 0
                     (exact_sound exact_empty)))
    as [p [c1 [E [Hs _]]]]; [simpl; lia|].
  exists p, c1. split; [exact E | exact Hs].
Defined.

Example phrase_score_gatsby :
  match calculatePhraseScore
          (sanitizeText "The Great Gatsby") ["the"; "great"] (num 2)
          (JsMap.empty string nat) with
  | Ret p _ => p = num 10
  | _ => False
  end.
Proof. vm_compute. apply Qc_is_canon. reflexivity. Qed.

Lemma score_monotone_in_weight_witness :
  validateDoc bookSchema gatsby = true
  /\ 1 <= weight (newField "title") /\ weight (newField "title") <= num 3
  /\ num 3 <= num 5
  /\ exists s s' c',
      calculateScore (L := sampleLists) decimalNumber bookSchema
        ([] ++ newField "title" :: [newField "year"]) gatsby
        ["great"; "1925"] (JsMap.empty string nat) = Ret s c'
      /\ calculateScore (L := sampleLists) decimalNumber bookSchema
           ([] ++ {| name := "title"; weight := num 3 |} :: [newField "year"])
           gatsby ["great"; "1925"] (JsMap.empty string nat) = Ret s' c'
      /\ s <= s'.
Proof.
  assert (H1 : 1 <= weight (newField "title")) by (now vm_compute).
  assert (H2 : weight (newField "title") <= num 3) by (now vm_compute).
  assert (H3 : num 3 <= num 5) by (now vm_compute).
  split; [reflexivity|]. split; [exact H1|]. split; [exact H2|].
  split; [exact H3|].
  exact (@score_monotone_in_weight sampleLists decimalNumber bookSchema
           gatsby ["great"; "1925"] [] [newField "year"] (newField "title")
           (num 3) (JsMap.empty string nat) eq_refl H1 H2 H3).
Defined.

End ScoreExamples.

(** ** The indexed engine ([vultos.js])

    [textUtils.js] and [score.js] are not among the sources: the functions
    the engine imports from them are parameters.  [levenshteinCache] only
    memoises [textUtils.levenshteinDistance]; module [Levenshtein] shows
    when such a memo returns what the function returns, and the engine
    below calls the function itself.  The scorer is taken to return a
    number.

    Left out: the check of the configuration object in the constructor,
    the [elapsed] time of a result and the [console.log] of the
    candidates.  The body of [sortBy], which sorts the returned array in
    place, is in module [Sorting]. *)

Class TextUtils := {
  sanitizeText : string -> string;
  stemmer : string -> string;
  levenshteinDistance : string -> string -> nat
}.

Class Scorer := {
  calculateScore : Doc -> list string -> list Field -> Schema -> Qc
}.

Module Vultos.
Import Str.

Definition BATCH_SIZE : nat := 100.
Definition LEVENSHTEIN_DISTANCE : nat := 3.

(** *** Search parameters

    A range threshold of a [where] condition is a number and [bt] is an
    array of numbers.  A key the engine does not know is kept by name. *)

Record FieldParams : Type := { weightParam : option Qc }.

Record Conditions : Type := {
  lt : option Qc;
  lte : option Qc;
  gt : option Qc;
  gte : option Qc;
  bt : option (list Qc);
  eq : option Value;
  inc : option Value;
  otherConditions : list string
}.

(** A condition is an object or a primitive value. *)
Inductive Condition : Type :=
| CObject (c : Conditions)
| CPrimitive (v : Value).

(** [parameters.score]: an object, as its entries in insertion order. *)
Definition ScoreConditions := list (string * Qc).

Record Parameters : Type := {
  fieldsParam : option (list (string * FieldParams));
  whereParam : option (list (string * Condition));
  scoreParam : option ScoreConditions;
  otherParams : list string
}.

Definition noParameters : Parameters :=
  {| fieldsParam := None; whereParam := None; scoreParam := None;
     otherParams := [] |}.

Definition noConditions : Conditions :=
  {| lt := None; lte := None; gt := None; gte := None; bt := None;
     eq := None; inc := None; otherConditions := [] |}.

Definition FieldParams_eq_dec (x y : FieldParams) : {x = y} + {x <> y}.
Proof. decide equality. decide equality. apply Qc_eq_dec. Defined.

Definition Conditions_eq_dec (x y : Conditions) : {x = y} + {x <> y}.
Proof.
  decide equality;
    try (apply list_eq_dec; first [apply string_dec | apply Qc_eq_dec]);
    try (decide equality;
         first [apply Qc_eq_dec | apply Value_eq_dec
               | apply list_eq_dec; apply Qc_eq_dec]).
Defined.

Definition Condition_eq_dec (x y : Condition) : {x = y} + {x <> y}.
Proof.
  decide equality; [apply Conditions_eq_dec | apply Value_eq_dec].
Defined.

Definition Parameters_eq_dec (x y : Parameters) : {x = y} + {x <> y}.
Proof.
  decide equality.
  - apply list_eq_dec, string_dec.
  - decide equality. apply list_eq_dec. decide equality;
      [apply Qc_eq_dec | apply string_dec].
  - decide equality. apply list_eq_dec. decide equality;
      [apply Condition_eq_dec | apply string_dec].
  - decide equality. apply list_eq_dec. decide equality;
      [apply FieldParams_eq_dec | apply string_dec].
Defined.

(** [JSON.stringify({ query, parameters })].  The text is a function of
    the query and the parameters, and two texts differ when the pairs
    differ in a key or a value, so the pair stands for the text.  The
    records do not keep the order in which the caller wrote the keys
    [fields], [where] and [score], which the text does: callers are taken
    to write them in one order.  [None] is [parameters === undefined]. *)
Definition CacheKey : Type := string * option Parameters.

Definition CacheKey_eq_dec (x y : CacheKey) : {x = y} + {x <> y}.
Proof.
  decide equality; [decide equality; apply Parameters_eq_dec
                   | apply string_dec].
Defined.

Definition createCacheKey (query : string) (parameters : option Parameters)
  : CacheKey := (query, parameters).

(** *** State *)

Record Hit : Type := { score : Qc; document : Doc }.

(** A [Set] of documents is a list that holds each object once, in
    insertion order. *)

Definition setHas (doc : Doc) (s : list Doc) : bool :=
  existsb (fun d => ref d =? ref doc) s.

Definition setAdd (doc : Doc) (s : list Doc) : list Doc :=
  if setHas doc s then s else s ++ [doc].

Definition setDelete (doc : Doc) (s : list Doc) : list Doc :=
  filter (fun d => negb (ref d =? ref doc)) s.

(** [console] is the trace of [console.warn]. *)
Record Engine : Type := {
  schema : Schema;
  index : JsMap.t string (list Doc);
  cache : JsMap.t CacheKey (list Hit);
  docs : list Doc;
  fields : list Field;
  console : list string
}.

Definition newVultos (schema : Schema) : Engine :=
  {| schema := schema;
     index := JsMap.empty string (list Doc);
     cache := JsMap.empty CacheKey (list Hit);
     docs := [];
     fields := map newField (JsMap.keys schema);
     console := [] |}.

Definition withIndex (e : Engine) (index' : JsMap.t string (list Doc)) :=
  {| schema := schema e; index := index'; cache := cache e;
     docs := docs e; fields := fields e; console := console e |}.

Definition withDocs (e : Engine) (docs' : list Doc) :=
  {| schema := schema e; index := index e; cache := cache e;
     docs := docs'; fields := fields e; console := console e |}.

Definition withCache (e : Engine) (cache' : JsMap.t CacheKey (list Hit)) :=
  {| schema := schema e; index := index e; cache := cache';
     docs := docs e; fields := fields e; console := console e |}.

Definition withFields (e : Engine) (fields' : list Field)
           (console' : list string) :=
  {| schema := schema e; index := index e; cache := cache e;
     docs := docs e; fields := fields'; console := console' |}.

(** *** Structural equality of documents ([#equals]) *)

Fixpoint insertKey (k : string) (l : list string) : list string :=
  match l with
  | [] => [k]
  | x :: l' => if String.leb k x then k :: l else x :: insertKey k l'
  end.

(** [Object.keys(doc).sort()] *)
Definition sortedKeys (doc : Doc) : list string :=
  fold_right insertKey [] (JsMap.keys (props doc)).

Definition equals (doc1 doc2 : Doc) : bool :=
  if list_eq_dec string_dec (sortedKeys doc1) (sortedKeys doc2)
  then forallb (fun key => strictEq (prop doc1 key) (prop doc2 key))
               (sortedKeys doc1)
  else false.

Section WithImports.
Context {T : TextUtils} {S : Scorer}.

(** [Number(s)] where a comparison converts a string. *)
Variable Number : string -> option Qc.

(** *** Adding documents *)

(** The loop over the terms of one field. *)
Definition addTerms (doc : Doc) (terms : list string)
           (index : JsMap.t string (list Doc)) : JsMap.t string (list Doc) :=
  fold_left
    (fun index term =>
       let stemmedTerm := stemmer term in
       let index :=
         if JsMap.has string_dec stemmedTerm index then index
         else JsMap.set string_dec stemmedTerm [] index in
       match JsMap.get string_dec stemmedTerm index with
       | Some docsSet =>
           JsMap.set string_dec stemmedTerm (setAdd doc docsSet) index
       | None => index
       end)
    terms index.

(** [#addToIndex].  A field declared ['string'] whose value is no string
    has no [split]; what was indexed before the throw stays indexed. *)
Definition addToIndex (e : Engine) (doc : Doc)
  : JsMap.t string (list Doc) * outcome unit :=
  fold_left
    (fun acc field =>
       match acc with
       | (index, Throw err) => (index, Throw err)
       | (index, Ok _) =>
           match prop doc (name field), schemaType (schema e) (name field) with
           | Some v, Some ty =>
               if String.eqb ty "string"
               then match v with
                    | VString text =>
                        (addTerms doc (Text.split (sanitizeText text))
                                  index, Ok tt)
                    | _ => (index,
                            Throw (TypeError "split is not a function"))
                    end
               else (index, Ok tt)
           | _, _ => (index, Ok tt)
           end
       end)
    (fields e) (index e, Ok tt).

(** [this.docs.push(doc); this.#addToIndex(doc)] after validation. *)
Definition addValid (e : Engine) (doc : Doc) : Engine * outcome unit :=
  let e1 := withDocs e (docs e ++ [doc]) in
  let '(index', status) := addToIndex e1 doc in
  (withIndex e1 index', status).

Definition addDoc (e : Engine) (doc : Doc) : Engine * outcome unit :=
  if validateDoc (schema e) doc then addValid e doc
  else (e, Throw DocumentDoesNotMatchSchema).

Fixpoint processBatch (e : Engine) (batch : list Doc)
  : Engine * outcome unit :=
  match batch with
  | [] => (e, Ok tt)
  | doc :: batch' =>
      if validateDoc (schema e) doc
      then match addValid e doc with
           | (e', Ok _) => processBatch e' batch'
           | (e', Throw err) => (e', Throw err)
           end
      else (e, Throw DocumentDoesNotMatchSchema)
  end.

(** [for (i = 0; i < docsArray.length; i += BATCH_SIZE)] with [fuel]
    iterations at most. *)
Fixpoint addBatches (fuel : nat) (e : Engine) (docsArray : list Doc)
         (i : nat) : Engine * outcome unit :=
  match fuel with
  | 0 => (e, Ok tt)
  | Datatypes.S fuel' =>
      if i <? length docsArray
      then let batch := firstn BATCH_SIZE (skipn i docsArray) in
           match processBatch e batch with
           | (e', Ok _) => addBatches fuel' e' docsArray (i + BATCH_SIZE)
           | (e', Throw err) => (e', Throw err)
           end
      else (e, Ok tt)
  end.

Definition addDocs (e : Engine) (docsArray : list Doc)
  : Engine * outcome unit :=
  addBatches (length docsArray) e docsArray 0.

(** *** Removing documents *)

(** The inner loop of [removeDoc] over [Array.from(docsSet)]: the set
    that remains, and whether it was found empty after a deletion. *)
Definition removeFromSet (docToRemove : Doc) (docsSet : list Doc)
  : list Doc * bool :=
  fold_left
    (fun acc doc =>
       let '(set, emptied) := acc in
       if equals doc docToRemove
       then let set' := setDelete doc set in
            (set', emptied || (length set' =? 0))
       else (set, emptied))
    docsSet (docsSet, false).

(** The loop over the entries of the index.  A set is mutated in place;
    its entry is deleted when the set was found empty. *)
Definition removeDocFromIndex (docToRemove : Doc)
           (index : JsMap.t string (list Doc)) : JsMap.t string (list Doc) :=
  flat_map
    (fun entry =>
       let '(term, docsSet) := entry in
       let '(set', emptied) := removeFromSet docToRemove docsSet in
       if emptied then [] else [(term, set')])
    index.

Definition removeDocFromDocsArray (docToRemove : Doc) (docs : list Doc)
  : list Doc :=
  filter (fun doc => negb (equals doc docToRemove)) docs.

Definition removeDoc (e : Engine) (docToRemove : Doc) : Engine :=
  let e1 := withDocs e (removeDocFromDocsArray docToRemove (docs e)) in
  withIndex e1 (removeDocFromIndex docToRemove (index e1)).

Definition processRemovalBatch (e : Engine) (batch : list Doc) : Engine :=
  fold_left removeDoc batch e.

Fixpoint removeBatches (fuel : nat) (e : Engine) (docsArray : list Doc)
         (i : nat) : Engine :=
  match fuel with
  | 0 => e
  | Datatypes.S fuel' =>
      if i <? length docsArray
      then let batch := firstn BATCH_SIZE (skipn i docsArray) in
           removeBatches fuel' (processRemovalBatch e batch) docsArray
                         (i + BATCH_SIZE)
      else e
  end.

Definition removeDocs (e : Engine) (docsArray : list Doc) : Engine :=
  removeBatches (length docsArray) e docsArray 0.


(** *** The where clause *)

(** [s.includes(sub)] *)
Fixpoint includesFrom (sub s : list ascii) : bool :=
  Stemmer.isPrefix sub s
  || match s with
     | [] => false
     | _ :: s' => includesFrom sub s'
     end.

Definition includes (s sub : string) : bool :=
  includesFrom (chars sub) (chars s).

(** The number a field value compares as; [None] is [NaN], which
    compares false with everything.  A string that reads as an infinity is
    taken with the strings that read as no number. *)
Definition toNumber (v : option Value) : option Qc :=
  match v with
  | Some (VNumber n) => Some n
  | Some (VBoolean b) => Some (if b then 1%Qc else 0%Qc)
  | Some (VString s) => Number s
  | None => None
  end.

Definition jsLt (v : option Value) (t : Qc) : bool :=
  match toNumber v with Some x => Qcltb x t | None => false end.
Definition jsGt (v : option Value) (t : Qc) : bool :=
  match toNumber v with Some x => Qcltb t x | None => false end.
Definition jsLe (v : option Value) (t : Qc) : bool :=
  match toNumber v with Some x => Qcleb x t | None => false end.
Definition jsGe (v : option Value) (t : Qc) : bool :=
  match toNumber v with Some x => Qcleb t x | None => false end.

(** A number is truthy unless it is 0. *)
Definition truthy (t : option Qc) : option Qc :=
  match t with
  | Some x => if Qceqb x 0 then None else Some x
  | None => None
  end.

Definition typeofCondition (c : Condition) : string :=
  match c with
  | CObject _ => "object"
  | CPrimitive v => typeof v
  end.

(** The first loop of [#applyWhereClause] for one key: validation, and
    the [eq] and [inc] filters. *)
Definition whereKey (schema : Schema) (docs : list Doc) (key : string)
           (condition : Condition) : outcome (list Doc) :=
  match schemaType schema key with
  | None => Throw (FieldDoesNotExist key)
  | Some expectedType =>
      match (match condition with
             | CObject c => hd_error (otherConditions c)
             | CPrimitive _ => None
             end) with
      | Some conditionKey => Throw (UnrecognizedCondition conditionKey key)
      | None =>
          let conditionEq :=
            match condition with CObject c => eq c | _ => None end in
          let conditionInc :=
            match condition with CObject c => inc c | _ => None end in
          if String.eqb expectedType "number"
          then match conditionEq with
               | Some (VNumber n) =>
                   Ok (filter (fun doc =>
                                 strictEq (prop doc key) (Some (VNumber n)))
                              docs)
               | _ => Ok docs
               end
          else if String.eqb expectedType "string"
          then
            let docs :=
              match conditionEq with
              | Some (VString s) =>
                  filter (fun doc =>
                            strictEq (prop doc key) (Some (VString s)))
                         docs
              | _ => docs
              end in
            match conditionInc with
            | Some (VString sub) =>
                if forallb (fun doc =>
                              match prop doc key with
                              | Some (VString _) => true
                              | _ => false
                              end) docs
                then Ok (filter (fun doc =>
                                   match prop doc key with
                                   | Some (VString s) => includes s sub
                                   | _ => false
                                   end) docs)
                else Throw (TypeError "includes is not a function")
            | _ => Ok docs
            end
          else if String.eqb expectedType "boolean"
                  && negb (String.eqb (typeofCondition condition) "boolean")
          then Throw (ExpectedBoolean key (typeofCondition condition))
          else Ok docs
      end
  end.

(** The body of the final filter for one key: [false] is
    [return false]. *)
Definition rangeKeeps (doc : Doc) (key : string) (condition : Condition)
  : bool :=
  let docValue := prop doc key in
  match condition with
  | CObject c =>
      match bt c with
      | Some [min; max] =>
          negb (jsLt docValue min || jsGt docValue max)
      | _ =>
          match truthy (lt c) with
          | Some t => negb (jsGe docValue t)
          | None => true
          end
          && match truthy (lte c) with
             | Some t => negb (jsGt docValue t)
             | None => true
             end
          && match truthy (gt c) with
             | Some t => negb (jsLe docValue t)
             | None => true
             end
          && match truthy (gte c) with
             | Some t => negb (jsLt docValue t)
             | None => true
             end
      end
  | CPrimitive _ => true
  end.

Definition applyWhereClause (schema : Schema) (docs : list Doc)
           (whereClause : list (string * Condition))
  : outcome (list Doc) :=
  match fold_left
          (fun acc entry =>
             match acc with
             | Ok docs => whereKey schema docs (fst entry) (snd entry)
             | Throw err => Throw err
             end)
          whereClause (Ok docs) with
  | Throw err => Throw err
  | Ok docs =>
      Ok (filter (fun doc =>
                    forallb (fun entry =>
                               rangeKeeps doc (fst entry) (snd entry))
                            whereClause)
                 docs)
  end.

(** *** The score filter *)

Definition validScoreKeys : list string := ["gt"; "lt"; "eq"]%string.

Definition isValidScoreKey (key : string) : bool :=
  existsb (String.eqb key) validScoreKeys.

Fixpoint checkScoreConditions (scoreConditions : ScoreConditions)
  : outcome unit :=
  match scoreConditions with
  | [] => Ok tt
  | (key, score) :: rest =>
      if negb (isValidScoreKey key) then Throw (InvalidScoreCondition key)
      else if Qcleb score 0 || Qcleb 1 score
      then Throw (InvalidScoreValue score)
      else checkScoreConditions rest
  end.

Definition scoreKeeps (scoreConditions : ScoreConditions) (hit : Hit)
  : bool :=
  match JsMap.get string_dec "gt"%string scoreConditions with
  | Some t => negb (Qcleb (score hit) t)
  | None => true
  end
  && match JsMap.get string_dec "lt"%string scoreConditions with
     | Some t => negb (Qcleb t (score hit))
     | None => true
     end
  && match JsMap.get string_dec "eq"%string scoreConditions with
     | Some t => Qceqb (score hit) t
     | None => true
     end.

Definition filterHitsByScore (hits : list Hit)
           (scoreConditions : option ScoreConditions)
  : outcome (list Hit) :=
  match scoreConditions with
  | None => Ok hits
  | Some conditions =>
      match checkScoreConditions conditions with
      | Throw err => Throw err
      | Ok _ => Ok (filter (scoreKeeps conditions) hits)
      end
  end.

(** *** Parameters *)

(** [field.setWeight(w)] on the field found by name. *)
Fixpoint setFieldWeight (fieldName : string) (w : Qc) (fields : list Field)
  : list Field :=
  match fields with
  | [] => []
  | f :: fields' =>
      if String.eqb (name f) fieldName
      then setWeight w f :: fields'
      else f :: setFieldWeight fieldName w fields'
  end.

Definition hasField (fieldName : string) (fields : list Field) : bool :=
  existsb (fun f => String.eqb (name f) fieldName) fields.

(** The body of the loop of [#setParameters]. *)
Definition setParameter (e : Engine) (fieldName : string)
           (fieldParams : FieldParams) : Engine * outcome unit :=
  if negb (hasOwnProperty (schema e) fieldName)
  then (e, Throw (FieldNotInSchema fieldName))
  else
    match weightParam fieldParams with
    | Some w =>
        if hasField fieldName (fields e)
        then
          if Qcltb (num 5) w
          then (withFields e (setFieldWeight fieldName (num 5) (fields e))
                  (console e ++
                   ["Weight for field '" ++ fieldName
                    ++ "' is too high, setting to 5"]%string),
                Ok tt)
          else if Qcltb w 1
          then (withFields e (setFieldWeight fieldName 1%Qc (fields e))
                  (console e ++
                   ["Weight for field '" ++ fieldName
                    ++ "' is too low, setting to 1"]%string),
                Ok tt)
          else (withFields e (setFieldWeight fieldName w (fields e))
                  (console e), Ok tt)
        else (e, Ok tt)
    | None => (e, Ok tt)
    end.

Fixpoint setParametersLoop (e : Engine)
         (entries : list (string * FieldParams)) : Engine * outcome unit :=
  match entries with
  | [] => (e, Ok tt)
  | (fieldName, fieldParams) :: rest =>
      match setParameter e fieldName fieldParams with
      | (e', Ok _) => setParametersLoop e' rest
      | (e', Throw err) => (e', Throw err)
      end
  end.

Definition setParameters (e : Engine) (parameters : option Parameters)
  : Engine * outcome unit :=
  match parameters with
  | Some p =>
      match fieldsParam p with
      | Some entries => setParametersLoop e entries
      | None => (e, Ok tt)
      end
  | None => (e, Ok tt)
  end.

Definition handleParameters (e : Engine) (parameters : option Parameters)
  : Engine * outcome unit :=
  match parameters with
  | None => (e, Ok tt)
  | Some p =>
      match otherParams p with
      | key :: _ => (e, Throw (UnexpectedParameterKey key))
      | [] =>
          match (match fieldsParam p with
                 | Some entries =>
                     find (fun fieldName =>
                             negb (hasOwnProperty (schema e) fieldName))
                          (JsMap.keys entries)
                 | None => None
                 end) with
          | Some fieldName => (e, Throw (FieldNotInSchema fieldName))
          | None => setParameters e parameters
          end
      end
  end.

(** *** Search *)

(** [elapsed] is wall-clock time and is left out.  [sortBy] records
    whether the result carries the [sortBy] function. *)
Record SearchResult : Type := {
  count : nat;
  hits : list Hit;
  sortBy : bool
}.

(** The documents of every bucket whose term is within the distance of a
    query word, in the order they are met. *)
Definition candidates (index : JsMap.t string (list Doc))
           (queryWords : list string) : list Doc :=
  fold_left
    (fun relevantDocs queryWord =>
       fold_left
         (fun relevantDocs entry =>
            let '(indexedWord, docsSet) := entry in
            let distance := levenshteinDistance queryWord indexedWord in
            if distance <? LEVENSHTEIN_DISTANCE
            then fold_left (fun s doc => setAdd doc s) docsSet relevantDocs
            else relevantDocs)
         index relevantDocs)
    queryWords [].

(** [sort((a, b) => b.score - a.score)]: descending, stable. *)
Fixpoint insertHit (x : Hit) (l : list Hit) : list Hit :=
  match l with
  | [] => [x]
  | y :: l' =>
      if Qcltb (score x) (score y) then y :: insertHit x l' else x :: l
  end.

Definition sortHits (l : list Hit) : list Hit :=
  fold_right insertHit [] l.

(** The loop that drops a document whose [JSON.stringify] was seen. *)
Definition uniqueHits (scoredDocs : list Hit) : list Hit :=
  snd (fold_left
         (fun acc item =>
            let '(uniqueDocs, hits) := acc in
            let docStr := props (document item) in
            if existsb (fun s => if Props_eq_dec s docStr then true else false)
                       uniqueDocs
            then (uniqueDocs, hits)
            else (uniqueDocs ++ [docStr], hits ++ [item]))
         scoredDocs ([], [])).

Definition queryWordsOf (query : string) : list string :=
  map (fun word => stemmer (sanitizeText word))
      (Text.split (Text.toLowerCase query)).

(** Scoring, ranking and deduplication of the candidates. *)
Definition rank (e : Engine) (queryWords : list string)
           (filteredDocs : list Doc) : list Hit :=
  let scoredDocs :=
    map (fun doc =>
           {| score := calculateScore doc queryWords (fields e) (schema e);
              document := doc |})
        filteredDocs in
  let scoredDocs :=
    sortHits (filter (fun item => Qcltb 0 (score item)) scoredDocs) in
  uniqueHits scoredDocs.

Definition scoreOfUndefined : Error :=
  TypeError "Cannot read properties of undefined (reading 'score')".

(** [parameters.score] *)
Definition readScore (parameters : option Parameters)
  : outcome (option ScoreConditions) :=
  match parameters with
  | Some p => Ok (scoreParam p)
  | None => Throw scoreOfUndefined
  end.

(** The body of the [try] block. *)
Definition searchBody (e : Engine) (query : string)
           (parameters : option Parameters)
  : Engine * outcome SearchResult :=
  let cacheKey := createCacheKey query parameters in
  match JsMap.get CacheKey_eq_dec cacheKey (cache e) with
  | Some cachedResults =>
      match readScore parameters with
      | Throw err => (e, Throw err)
      | Ok scoreConditions =>
          match filterHitsByScore cachedResults scoreConditions with
          | Throw err => (e, Throw err)
          | Ok hits =>
              (e, Ok {| count := length cachedResults; hits := hits;
                        sortBy := false |})
          end
      end
  | None =>
      let queryWords := queryWordsOf query in
      let filteredDocs := candidates (index e) queryWords in
      match (match parameters with
             | Some p =>
                 match whereParam p with
                 | Some whereClause =>
                     applyWhereClause (schema e) filteredDocs whereClause
                 | None => Ok filteredDocs
                 end
             | None => Ok filteredDocs
             end) with
      | Throw err => (e, Throw err)
      | Ok filteredDocs =>
          let hits := rank e queryWords filteredDocs in
          let e' := withCache e (JsMap.set CacheKey_eq_dec cacheKey hits
                                           (cache e)) in
          match readScore parameters with
          | Throw err => (e', Throw err)
          | Ok scoreConditions =>
              match filterHitsByScore hits scoreConditions with
              | Throw err => (e', Throw err)
              | Ok hits =>
                  (e', Ok {| count := length hits; hits := hits;
                             sortBy := true |})
              end
          end
      end
  end.

(** [catch (error) { throw new Error(error.message) }] *)
Definition search (e : Engine) (query : string)
           (parameters : option Parameters)
  : Engine * outcome SearchResult :=
  match handleParameters e parameters with
  | (e1, Throw err) => (e1, Throw err)
  | (e1, Ok _) =>
      match searchBody e1 query parameters with
      | (e2, Ok result) => (e2, Ok result)
      | (e2, Throw err) => (e2, Throw (ErrorOf err))
      end
  end.


(** *** Histories of calls *)

Inductive Call : Type :=
| CallAddDoc (doc : Doc)
| CallAddDocs (docsArray : list Doc)
| CallRemoveDoc (docToRemove : Doc)
| CallRemoveDocs (docsArray : list Doc)
| CallSearch (query : string) (parameters : option Parameters).

(** The engine after a call, whether the call returned or threw. *)
Definition after (e : Engine) (call : Call) : Engine :=
  match call with
  | CallAddDoc doc => fst (addDoc e doc)
  | CallAddDocs docsArray => fst (addDocs e docsArray)
  | CallRemoveDoc docToRemove => removeDoc e docToRemove
  | CallRemoveDocs docsArray => removeDocs e docsArray
  | CallSearch query parameters => fst (search e query parameters)
  end.

Definition afterAll (e : Engine) (calls : list Call) : Engine :=
  fold_left after calls e.

End WithImports.
End Vultos.

(** ** Facts about the indexed engine *)

Module VultosFacts.
Import Str Vultos.

Definition valid (sch : Schema) (doc : Doc) : Prop :=
  validateDoc sch doc = true.

(** A bucket of the index: not empty, each object once, every document
    accepted by the schema. *)
Definition bucket_ok (sch : Schema) (docsSet : list Doc) : Prop :=
  docsSet <> [] /\ NoDup (map ref docsSet) /\ Forall (valid sch) docsSet.

Definition index_ok (sch : Schema) (index : JsMap.t string (list Doc)) : Prop :=
  forall term docsSet, In (term, docsSet) index -> bucket_ok sch docsSet.

(** What every engine built by the constructor and the public methods
    satisfies. *)
Record inv (sch : Schema) (e : Engine) : Prop := {
  inv_schema : schema e = sch;
  inv_fields : map name (fields e) = JsMap.keys sch;
  inv_index : index_ok sch (index e);
  inv_docs : Forall (valid sch) (docs e)
}.

Lemma setHas_In doc s :
  setHas doc s = true <-> In (ref doc) (map ref s).
Proof.
  unfold setHas. rewrite existsb_exists, in_map_iff. split.
  - intros [d [Hd E]]. apply Nat.eqb_eq in E. eauto.
  - intros [d [E Hd]]. exists d. split; [assumption|]. now apply Nat.eqb_eq.
Qed.

Lemma setAdd_ok sch doc s :
  valid sch doc -> (s = [] \/ bucket_ok sch s) -> bucket_ok sch (setAdd doc s).
Proof.
  intros Hv Hs. unfold setAdd. destruct (setHas doc s) eqn:E.
  - destruct Hs as [->|Hs]; [discriminate | assumption].
  - assert (Hn : ~ In (ref doc) (map ref s)).
    { intros H. apply setHas_In in H. congruence. }
    split; [destruct s; discriminate|]. split.
    + rewrite map_app. simpl.
      assert (Hnd : NoDup (map ref s)).
      { destruct Hs as [->|[_ [H _]]]; [constructor | assumption]. }
      clear -Hn Hnd. induction (map ref s) as [|x l IH]; simpl.
      * repeat constructor. auto.
      * inversion Hnd; subst. constructor.
        -- rewrite in_app_iff. simpl. intros [H|[H|[]]]; [auto|].
           apply Hn. now left.
        -- apply IH; auto. intros H. apply Hn. now right.
    + apply Forall_app. split.
      * destruct Hs as [->|[_ [_ H]]]; [constructor | assumption].
      * now repeat constructor.
Qed.

Section WithImports.
Context {T : TextUtils} {S : Scorer}.
Variable Number : string -> option Qc.

Lemma index_ok_set sch term docsSet index :
  index_ok sch index -> bucket_ok sch docsSet ->
  index_ok sch (JsMap.set string_dec term docsSet index).
Proof.
  intros Hi Hb t s Hin. apply JsMap.set_In in Hin as [Hin|[= -> ->]]; eauto.
Qed.

Lemma addTerms_ok sch doc terms : forall index,
  valid sch doc -> index_ok sch index ->
  index_ok sch (addTerms doc terms index).
Proof.
  unfold addTerms. induction terms as [|term terms IH]; intros index Hv Hi;
    simpl; auto.
  apply IH; auto.
  destruct (JsMap.has string_dec (stemmer term) index) eqn:Eh.
  - destruct (JsMap.get string_dec (stemmer term) index) as [s|] eqn:Eg;
      [|assumption].
    apply index_ok_set; auto. apply setAdd_ok; auto. right.
    apply (Hi (stemmer term)). now apply (@JsMap.get_In _ _ string_dec).
  - rewrite JsMap.get_set_same. rewrite JsMap.set_set.
    apply index_ok_set; auto. apply setAdd_ok; auto.
Qed.

(** **** Adding keeps the invariant and never throws on an accepted
    document *)

Lemma addToIndex_fold sch doc fs : forall index,
  valid sch doc -> index_ok sch index ->
  let r :=
    fold_left
      (fun acc field =>
         match acc with
         | (index, Throw err) => (index, Throw err)
         | (index, Ok _) =>
             match prop doc (name field), schemaType sch (name field) with
             | Some v, Some ty =>
                 if String.eqb ty "string"
                 then match v with
                      | VString text =>
                          (addTerms doc (Text.split (sanitizeText text))
                                    index, Ok tt)
                      | _ => (index,
                              Throw (TypeError "split is not a function"))
                      end
                 else (index, Ok tt)
             | _, _ => (index, Ok tt)
             end
         end)
      fs (index, Ok tt) in
  index_ok sch (fst r) /\ snd r = Ok tt.
Proof.
  induction fs as [|f fs IH]; intros index Hv Hi; simpl; auto.
  destruct (prop doc (name f)) as [v|] eqn:Ep; [|now apply IH].
  destruct (schemaType sch (name f)) as [ty|] eqn:Es; [|now apply IH].
  destruct (String.eqb_spec ty "string") as [->|_]; [|now apply IH].
  pose proof (PhraseFacts.validateDoc_prop Hv Es Ep) as Ht.
  destruct v; try discriminate.
  apply IH; auto. now apply addTerms_ok.
Qed.

Lemma addValid_inv sch e doc :
  inv sch e -> valid sch doc ->
  inv sch (fst (addValid e doc)) /\ snd (addValid e doc) = Ok tt.
Proof.
  intros [Hs Hf Hi Hd] Hv. unfold addValid, addToIndex. simpl.
  rewrite Hs.
  pose proof (@addToIndex_fold sch doc (fields e) (index e) Hv Hi) as H.
  simpl in H. destruct (fold_left _ (fields e) (index e, Ok tt)) as [ix st].
  simpl in *. destruct H as [Hix ->]. split; [|reflexivity].
  constructor; simpl; auto.
  apply Forall_app. split; [assumption | now repeat constructor].
Qed.

Lemma addDoc_inv sch e doc : inv sch e -> inv sch (fst (addDoc e doc)).
Proof.
  intros Hinv. unfold addDoc.
  destruct (validateDoc (schema e) doc) eqn:Ev; [|assumption].
  apply addValid_inv; auto. unfold valid.
  now rewrite <- (inv_schema Hinv).
Qed.

Lemma processBatch_inv sch batch : forall e,
  inv sch e -> inv sch (fst (processBatch e batch)).
Proof.
  induction batch as [|doc batch IH]; intros e Hinv; simpl; auto.
  destruct (validateDoc (schema e) doc) eqn:Ev; [|assumption].
  assert (Hv : valid sch doc)
    by (unfold valid; now rewrite <- (inv_schema Hinv)).
  destruct (addValid_inv Hinv Hv) as [Hinv' Hok].
  destruct (addValid e doc) as [e' st]. simpl in *. subst st.
  now apply IH.
Qed.

Lemma addBatches_inv sch docsArray fuel : forall e i,
  inv sch e -> inv sch (fst (addBatches fuel e docsArray i)).
Proof.
  induction fuel as [|fuel IH]; intros e i Hinv; cbn [addBatches]; auto.
  destruct (i <? length docsArray); [|assumption].
  pose proof (@processBatch_inv sch
                (firstn BATCH_SIZE (skipn i docsArray)) e Hinv) as Hb.
  destruct (processBatch e _) as [e' [u|err]]; simpl in *; auto.
Qed.

Lemma addDocs_inv sch e docsArray :
  inv sch e -> inv sch (fst (addDocs e docsArray)).
Proof. apply addBatches_inv. Qed.


(** **** Removing *)

Definition keeps (docToRemove doc : Doc) : bool :=
  negb (equals doc docToRemove).

(** What [removeDoc] leaves of the index, bucket by bucket: the
    documents that are not structurally equal to the removed one, and
    no bucket without documents. *)
Definition deindexed (docToRemove : Doc) (index : JsMap.t string (list Doc))
  : JsMap.t string (list Doc) :=
  flat_map
    (fun entry =>
       match filter (keeps docToRemove) (snd entry) with
       | [] => []
       | docsSet => [(fst entry, docsSet)]
       end)
    index.

Lemma filter_all (X : Type) (p : X -> bool) l :
  (forall x, In x l -> p x = true) -> filter p l = l.
Proof.
  induction l as [|x l IH]; intros H; simpl; auto.
  rewrite (H x (or_introl Logic.eq_refl)). f_equal. apply IH.
  intros y Hy. apply H. now right.
Qed.

Lemma setDelete_middle K d R :
  NoDup (map ref (K ++ d :: R)) -> setDelete d (K ++ d :: R) = K ++ R.
Proof.
  intros Hnd. unfold setDelete. rewrite filter_app. simpl.
  rewrite Nat.eqb_refl. simpl.
  rewrite map_app in Hnd. simpl in Hnd.
  apply NoDup_remove in Hnd as [_ Hn].
  rewrite !filter_all; auto.
  - intros x Hx. apply negb_true_iff, Nat.eqb_neq. intros E.
    apply Hn. rewrite in_app_iff. right. rewrite <- E. now apply in_map.
  - intros x Hx. apply negb_true_iff, Nat.eqb_neq. intros E.
    apply Hn. rewrite in_app_iff. left. rewrite <- E. now apply in_map.
Qed.

Definition isNil (X : Type) (l : list X) : bool := length l =? 0.

Lemma removeFromSet_fold docToRemove R : forall K emptied,
  NoDup (map ref (K ++ R)) ->
  fold_left
    (fun acc doc =>
       let '(set, emptied) := acc in
       if equals doc docToRemove
       then let set' := setDelete doc set in
            (set', emptied || (length set' =? 0))
       else (set, emptied))
    R (K ++ R, emptied)
  = (K ++ filter (keeps docToRemove) R,
     emptied || (isNil (K ++ filter (keeps docToRemove) R)
                 && negb (isNil R))).
Proof.
  induction R as [|d R IH]; intros K emptied Hnd.
  - simpl. now rewrite andb_false_r, orb_false_r.
  - cbn [fold_left filter].
    replace (keeps docToRemove d) with (negb (equals d docToRemove))
      by reflexivity.
    destruct (equals d docToRemove) eqn:E; cbn [negb].
    + cbv zeta. rewrite (setDelete_middle Hnd).
      assert (Hnd' : NoDup (map ref (K ++ R))).
      { rewrite map_app in *. simpl in Hnd.
        now apply NoDup_remove_1 in Hnd. }
      rewrite (IH K _ Hnd'). f_equal.
      unfold isNil. simpl. rewrite andb_true_r.
      destruct R as [|r R]; simpl.
      * now rewrite andb_false_r, orb_false_r.
      * rewrite !length_app. simpl.
        replace (length K + Datatypes.S (length R) =? 0) with false
          by (symmetry; apply Nat.eqb_neq; lia).
        now rewrite orb_false_r, andb_true_r.
    + assert (Hnd' : NoDup (map ref ((K ++ [d]) ++ R)))
        by (now rewrite <- app_assoc).
      pose proof (IH (K ++ [d]) emptied Hnd') as H.
      rewrite <- !app_assoc in H. simpl in H. rewrite H. f_equal.
      unfold isNil. rewrite !length_app. simpl.
      replace (length K + Datatypes.S _ =? 0) with false
        by (symmetry; apply Nat.eqb_neq; lia).
      reflexivity.
Qed.

Lemma removeFromSet_spec docToRemove docsSet :
  NoDup (map ref docsSet) ->
  removeFromSet docToRemove docsSet
  = (filter (keeps docToRemove) docsSet,
     isNil (filter (keeps docToRemove) docsSet) && negb (isNil docsSet)).
Proof.
  intros Hnd. unfold removeFromSet.
  exact (@removeFromSet_fold docToRemove docsSet [] false Hnd).
Qed.

Lemma removeDocFromIndex_spec sch docToRemove index :
  index_ok sch index ->
  removeDocFromIndex docToRemove index = deindexed docToRemove index.
Proof.
  unfold removeDocFromIndex, deindexed.
  induction index as [|[term docsSet] index IH]; intros Hi; simpl; auto.
  destruct (Hi term docsSet (or_introl Logic.eq_refl)) as [Hne [Hnd _]].
  rewrite (removeFromSet_spec _ Hnd).
  rewrite IH by (intros t s Hin; apply (Hi t s); now right).
  f_equal.
  replace (negb (isNil docsSet)) with true
    by (destruct docsSet; [contradiction | reflexivity]).
  rewrite andb_true_r.
  destruct (filter (keeps docToRemove) docsSet); reflexivity.
Qed.

Lemma NoDup_map_filter (X Y : Type) (g : X -> Y) (p : X -> bool) l :
  NoDup (map g l) -> NoDup (map g (filter p l)).
Proof.
  induction l as [|x l IH]; simpl; intros H; [constructor|].
  inversion H as [|? ? Hn Hnd]; subst.
  destruct (p x); simpl; auto. constructor; auto.
  intros Hin. apply Hn. apply in_map_iff in Hin as [y [E Hy]].
  apply filter_In in Hy as [Hy _]. rewrite <- E. now apply in_map.
Qed.

Lemma deindexed_ok sch docToRemove index :
  index_ok sch index -> index_ok sch (deindexed docToRemove index).
Proof.
  intros Hi term docsSet Hin. unfold deindexed in Hin.
  apply in_flat_map in Hin as [[t s] [Hts Hin]]. simpl in Hin.
  destruct (Hi t s Hts) as [_ [Hnd Hv]].
  destruct (filter (keeps docToRemove) s) as [|d l] eqn:E; [contradiction|].
  destruct Hin as [[= <- <-]|[]]. rewrite <- E.
  split; [rewrite E; discriminate|]. split.
  - now apply NoDup_map_filter.
  - apply Forall_forall. intros x Hx. apply filter_In in Hx as [Hx _].
    revert x Hx. now apply Forall_forall.
Qed.

Lemma removeDoc_inv sch e docToRemove :
  inv sch e -> inv sch (removeDoc e docToRemove).
Proof.
  intros [Hs Hf Hi Hd]. unfold removeDoc. constructor; simpl; auto.
  - rewrite (removeDocFromIndex_spec _ Hi). now apply deindexed_ok.
  - unfold removeDocFromDocsArray. apply Forall_forall. intros x Hx.
    apply filter_In in Hx as [Hx _]. revert x Hx. now apply Forall_forall.
Qed.

Lemma processRemovalBatch_inv sch batch : forall e,
  inv sch e -> inv sch (processRemovalBatch e batch).
Proof.
  unfold processRemovalBatch.
  induction batch as [|d batch IH]; intros e Hinv; simpl; auto.
  apply IH. now apply removeDoc_inv.
Qed.

Lemma removeDocs_inv sch e docsArray :
  inv sch e -> inv sch (removeDocs e docsArray).
Proof.
  unfold removeDocs. generalize 0 as i. generalize (length docsArray) at 1.
  intros fuel. revert e.
  induction fuel as [|fuel IH]; intros e i Hinv; cbn [removeBatches]; auto.
  destruct (i <? length docsArray); [|assumption].
  apply IH. now apply processRemovalBatch_inv.
Qed.


(** **** Parameters and search leave the store alone *)

(** [e'] differs from [e] in weights, console and cache at most. *)
Record same_store (e e' : Engine) : Prop := {
  same_schema : schema e' = schema e;
  same_index : index e' = index e;
  same_docs : docs e' = docs e;
  same_names : map name (fields e') = map name (fields e)
}.

Lemma same_store_refl e : same_store e e.
Proof. now constructor. Qed.

Lemma same_store_trans e1 e2 e3 :
  same_store e1 e2 -> same_store e2 e3 -> same_store e1 e3.
Proof. intros [] []. constructor; congruence. Qed.

Lemma setFieldWeight_names fieldName w fs :
  map name (setFieldWeight fieldName w fs) = map name fs.
Proof.
  induction fs as [|f fs IH]; simpl; auto.
  destruct (String.eqb (name f) fieldName); simpl; [reflexivity|].
  now rewrite IH.
Qed.

Lemma withFields_same e fs con :
  map name fs = map name (fields e) ->
  same_store e (withFields e fs con)
  /\ cache (withFields e fs con) = cache e.
Proof. intros H. split; [now constructor | reflexivity]. Qed.

Lemma setParameter_same e fieldName fieldParams :
  same_store e (fst (setParameter e fieldName fieldParams))
  /\ cache (fst (setParameter e fieldName fieldParams)) = cache e.
Proof.
  unfold setParameter.
  destruct (negb (hasOwnProperty (schema e) fieldName));
    [split; [apply same_store_refl | reflexivity]|].
  destruct (weightParam fieldParams) as [w|];
    [|split; [apply same_store_refl | reflexivity]].
  destruct (hasField fieldName (fields e));
    [|split; [apply same_store_refl | reflexivity]].
  destruct (Qcltb (num 5) w); [|destruct (Qcltb w 1)];
    apply withFields_same, setFieldWeight_names.
Qed.

Lemma setParametersLoop_same entries : forall e,
  same_store e (fst (setParametersLoop e entries))
  /\ cache (fst (setParametersLoop e entries)) = cache e.
Proof.
  induction entries as [|[n fp] entries IH]; intros e; simpl.
  - split; [apply same_store_refl | reflexivity].
  - destruct (setParameter_same e n fp) as [Hs Hc].
    destruct (setParameter e n fp) as [e' [u|err]]; simpl in *; auto.
    destruct (IH e') as [Hs' Hc']. split.
    + eapply same_store_trans; eassumption.
    + congruence.
Qed.

Lemma handleParameters_same e parameters :
  same_store e (fst (handleParameters e parameters))
  /\ cache (fst (handleParameters e parameters)) = cache e.
Proof.
  unfold handleParameters, setParameters.
  destruct parameters as [p|];
    [|split; [apply same_store_refl | reflexivity]].
  destruct (otherParams p);
    [|split; [apply same_store_refl | reflexivity]].
  destruct (fieldsParam p) as [entries|];
    [|split; [apply same_store_refl | reflexivity]].
  destruct (find _ (JsMap.keys entries));
    [split; [apply same_store_refl | reflexivity]|].
  apply setParametersLoop_same.
Qed.

Lemma searchBody_same e query parameters :
  same_store e (fst (searchBody Number e query parameters))
  /\ fields (fst (searchBody Number e query parameters)) = fields e
  /\ console (fst (searchBody Number e query parameters)) = console e.
Proof.
  unfold searchBody.
  destruct (JsMap.get CacheKey_eq_dec _ (cache e)).
  - destruct (readScore parameters);
      [destruct (filterHitsByScore l a)|]; simpl;
      (split; [apply same_store_refl | split; reflexivity]).
  - destruct (match parameters with Some _ => _ | None => _ end);
      [|simpl; split; [apply same_store_refl | split; reflexivity]].
    destruct (readScore parameters);
      [destruct (filterHitsByScore _ a0)|]; simpl;
      (split; [now constructor | split; reflexivity]).
Qed.

Lemma search_same e query parameters :
  same_store e (fst (search Number e query parameters)).
Proof.
  unfold search.
  destruct (handleParameters_same e parameters) as [Hh _].
  destruct (handleParameters e parameters) as [e1 [u|err]]; simpl in *;
    [|assumption].
  destruct (searchBody_same e1 query parameters) as [Hs _].
  destruct (searchBody Number e1 query parameters) as [e2 [r|err]];
    simpl in *; eapply same_store_trans; eassumption.
Qed.

Lemma same_store_inv sch e e' : same_store e e' -> inv sch e -> inv sch e'.
Proof.
  intros [Hs Hi Hd Hn] [Is If Ii Id].
  constructor; [congruence | congruence | now rewrite Hi | now rewrite Hd].
Qed.

(** **** Every engine a history of calls builds satisfies the
    invariant *)

Lemma newVultos_inv sch : inv sch (newVultos sch).
Proof.
  constructor; simpl; auto.
  - rewrite map_map. simpl. apply map_id.
  - intros term docsSet [].
Qed.

Lemma after_inv sch e call : inv sch e -> inv sch (after Number e call).
Proof.
  intros Hinv. destruct call; simpl.
  - now apply addDoc_inv.
  - now apply addDocs_inv.
  - now apply removeDoc_inv.
  - now apply removeDocs_inv.
  - eapply same_store_inv; [apply search_same | assumption].
Qed.

Lemma afterAll_inv sch calls : forall e,
  inv sch e -> inv sch (afterAll Number e calls).
Proof.
  unfold afterAll. induction calls as [|c calls IH]; intros e Hinv; simpl;
    auto.
  apply IH. now apply after_inv.
Qed.

Lemma reachable_inv sch calls :
  inv sch (afterAll Number (newVultos sch) calls).
Proof. apply afterAll_inv, newVultos_inv. Qed.


(** **** Batching does not show *)

Lemma processBatch_app l1 : forall e l2,
  processBatch e (l1 ++ l2) =
  match processBatch e l1 with
  | (e', Ok _) => processBatch e' l2
  | (e', Throw err) => (e', Throw err)
  end.
Proof.
  induction l1 as [|d l1 IH]; intros e l2; simpl; auto.
  destruct (validateDoc (schema e) d); [|reflexivity].
  destruct (addValid e d) as [e' [u|err]]; auto.
Qed.

Lemma BATCH_SIZE_pos : 0 < BATCH_SIZE.
Proof. unfold BATCH_SIZE. lia. Qed.

Lemma addBatches_processBatch docsArray fuel : forall e i,
  length docsArray - i <= fuel ->
  addBatches fuel e docsArray i = processBatch e (skipn i docsArray).
Proof.
  pose proof BATCH_SIZE_pos as Hpos.
  induction fuel as [|fuel IH]; intros e i Hf; cbn [addBatches].
  - rewrite skipn_all2 by lia. reflexivity.
  - destruct (Nat.ltb_spec i (length docsArray)) as [Hi|Hi].
    + rewrite <- (firstn_skipn BATCH_SIZE (skipn i docsArray)) at 2.
      rewrite processBatch_app.
      destruct (processBatch e (firstn BATCH_SIZE (skipn i docsArray)))
        as [e' [u|err]]; [|reflexivity].
      rewrite IH by lia. rewrite skipn_skipn.
      now rewrite (Nat.add_comm BATCH_SIZE i).
    + rewrite skipn_all2 by lia. reflexivity.
Qed.

Lemma addDocs_processBatch e docsArray :
  addDocs e docsArray = processBatch e docsArray.
Proof.
  unfold addDocs. rewrite addBatches_processBatch by lia. reflexivity.
Qed.

Lemma processBatch_accepts sch accepted : forall e,
  inv sch e -> Forall (valid sch) accepted ->
  snd (processBatch e accepted) = Ok tt.
Proof.
  induction accepted as [|d l IH]; intros e Hinv Hl; simpl; auto.
  inversion Hl as [|? ? Hd Hl']; subst.
  rewrite (inv_schema Hinv). unfold valid in Hd. rewrite Hd.
  destruct (addValid_inv Hinv Hd) as [Hinv' Hok].
  destruct (addValid e d) as [e' st]. simpl in *. subst st.
  now apply IH.
Qed.

Lemma processBatch_rejects sch e accepted doc rest :
  inv sch e -> Forall (valid sch) accepted ->
  validateDoc sch doc = false ->
  processBatch e (accepted ++ doc :: rest)
  = (fst (processBatch e accepted), Throw DocumentDoesNotMatchSchema).
Proof.
  intros Hinv Hacc Hdoc. rewrite processBatch_app.
  pose proof (processBatch_accepts Hinv Hacc) as Hok.
  pose proof (@processBatch_inv sch accepted e Hinv) as Hinv'.
  destruct (processBatch e accepted) as [e' st]. simpl in *. subst st.
  simpl. rewrite (inv_schema Hinv'), Hdoc. reflexivity.
Qed.

(** A document the schema rejects is in no engine the public methods
    build. *)
Lemma rejected_not_stored sch e doc :
  inv sch e -> validateDoc sch doc = false ->
  ~ In doc (docs e)
  /\ forall term docsSet, In (term, docsSet) (index e) -> ~ In doc docsSet.
Proof.
  intros Hinv Hdoc. split.
  - intros Hin. pose proof (inv_docs Hinv) as Hd.
    rewrite Forall_forall in Hd. specialize (Hd doc Hin).
    unfold valid in Hd. congruence.
  - intros term docsSet Hts Hin.
    destruct (inv_index Hinv Hts) as [_ [_ Hv]].
    rewrite Forall_forall in Hv. specialize (Hv doc Hin).
    unfold valid in Hv. congruence.
Qed.

End WithImports.
End VultosFacts.

(** ** Properties of the document store and the index *)

Section StoreClaims.
Import Vultos VultosFacts.
Context {T : TextUtils} {S : Scorer}.
Variable Number : string -> option Qc.

(** C3.  After any history of [addDoc], [addDocs], [removeDoc],
    [removeDocs] (and [search]) calls, every term of the index maps to a
    set that is not empty.  [removeDoc] leaves of every bucket exactly the
    documents that are not structurally equal to the removed one, and
    deletes every bucket that this empties. *)
Theorem index_buckets_never_empty
        (sch : Schema) (calls : list Call) (docToRemove : Doc) :
  let e := afterAll Number (newVultos sch) calls in
  (forall term docsSet,
      JsMap.get string_dec term (index e) = Some docsSet -> docsSet <> [])
  /\ index (removeDoc e docToRemove) = deindexed docToRemove (index e)
  /\ (forall term docsSet,
         In (term, docsSet) (index (removeDoc e docToRemove)) ->
         docsSet <> []
         /\ Forall (fun doc => equals doc docToRemove = false) docsSet).
Proof.
  intros e. pose proof (reachable_inv Number sch calls) as Hinv. fold e in Hinv.
  split; [|split].
  - intros term docsSet Hg. apply JsMap.get_In in Hg.
    now destruct (inv_index Hinv Hg).
  - apply (removeDocFromIndex_spec _ (inv_index Hinv)).
  - intros term docsSet Hin. split.
    + now destruct (inv_index (removeDoc_inv docToRemove Hinv) Hin).
    + unfold removeDoc in Hin. simpl in Hin.
      rewrite (removeDocFromIndex_spec _ (inv_index Hinv)) in Hin.
      unfold deindexed in Hin.
      apply in_flat_map in Hin as [[t s] [_ Hin]]. simpl in Hin.
      destruct (filter (keeps docToRemove) s) as [|d l] eqn:E;
        [contradiction|].
      destruct Hin as [[= <- <-]|[]]. rewrite <- E.
      apply Forall_forall. intros x Hx. apply filter_In in Hx as [_ Hx].
      unfold keeps in Hx. now apply negb_true_iff.
Qed.

(** C6.  A document that does not match the schema makes [addDoc] and
    [addDocs] throw the document-schema error where it is met, and is
    neither stored nor indexed: [addDoc] leaves the engine as it was, and
    [addDocs] leaves it as the documents before the rejected one made
    it. *)
Theorem rejected_document_is_not_committed
        (sch : Schema) (calls : list Call) (doc : Doc) :
  validateDoc sch doc = false ->
  let e := afterAll Number (newVultos sch) calls in
  addDoc e doc = (e, Throw DocumentDoesNotMatchSchema)
  /\ (forall accepted rest,
         Forall (fun d => validateDoc sch d = true) accepted ->
         let r := addDocs e (accepted ++ doc :: rest) in
         snd r = Throw DocumentDoesNotMatchSchema
         /\ fst r = fst (addDocs e accepted)
         /\ ~ In doc (docs (fst r))
         /\ (forall term docsSet,
                In (term, docsSet) (index (fst r)) -> ~ In doc docsSet))
  /\ ~ In doc (docs e)
  /\ (forall term docsSet, In (term, docsSet) (index e) -> ~ In doc docsSet).
Proof.
  intros Hdoc e.
  pose proof (reachable_inv Number sch calls) as Hinv. fold e in Hinv.
  split; [|split].
  - unfold addDoc. now rewrite (inv_schema Hinv), Hdoc.
  - intros accepted rest Hacc r. subst r.
    rewrite !addDocs_processBatch.
    rewrite (processBatch_rejects rest Hinv Hacc Hdoc). simpl.
    split; [reflexivity|]. split; [reflexivity|].
    apply rejected_not_stored with (sch := sch); auto.
    now apply processBatch_inv.
  - now apply rejected_not_stored with (sch := sch).
Qed.

(** C2, as the code behaves.  With the parameters left out, [search]
    throws on every engine and for every query: both paths read
    [parameters.score]. *)
Theorem search_without_parameters_throws (e : Engine) (query : string) :
  snd (search Number e query None) = Throw (ErrorOf scoreOfUndefined).
Proof.
  unfold search. simpl. unfold searchBody.
  destruct (JsMap.get CacheKey_eq_dec _ (cache e)); reflexivity.
Qed.

End StoreClaims.

(** ** Properties of the where clause *)

Module WhereFacts.
Import Vultos VultosFacts.
Local Open Scope Qc_scope.

Lemma Qcltb_lt x y : Qcltb x y = true <-> x < y.
Proof.
  unfold Qcltb. rewrite Qclt_alt. destruct (x ?= y); split; congruence.
Qed.

Lemma Qcleb_le x y : Qcleb x y = true <-> x <= y.
Proof.
  unfold Qcleb. rewrite Qcle_alt. destruct (x ?= y); split; congruence.
Qed.

Lemma Qcleb_antisym x y : negb (Qcleb x y) = Qcltb y x.
Proof.
  unfold Qcleb, Qcltb, Qccompare. rewrite <- (Qcompare_antisym x y).
  destruct (x ?= y)%Q; reflexivity.
Qed.

Lemma Qcltb_antisym x y : negb (Qcltb x y) = Qcleb y x.
Proof.
  unfold Qcleb, Qcltb, Qccompare. rewrite <- (Qcompare_antisym x y).
  destruct (x ?= y)%Q; reflexivity.
Qed.

(** The four one-sided range conditions. *)
Inductive RangeOp : Type := OpLt | OpLte | OpGt | OpGte.

(** [{ op: t }] *)
Definition rangeCondition (op : RangeOp) (t : Qc) : Condition :=
  CObject
    match op with
    | OpLt => {| lt := Some t; lte := None; gt := None; gte := None;
                 bt := None; eq := None; inc := None;
                 otherConditions := [] |}
    | OpLte => {| lt := None; lte := Some t; gt := None; gte := None;
                  bt := None; eq := None; inc := None;
                  otherConditions := [] |}
    | OpGt => {| lt := None; lte := None; gt := Some t; gte := None;
                 bt := None; eq := None; inc := None;
                 otherConditions := [] |}
    | OpGte => {| lt := None; lte := None; gt := None; gte := Some t;
                  bt := None; eq := None; inc := None;
                  otherConditions := [] |}
    end.

(** [{ bt: [min, max] }] *)
Definition betweenCondition (min max : Qc) : Condition :=
  CObject {| lt := None; lte := None; gt := None; gte := None;
             bt := Some [min; max]; eq := None; inc := None;
             otherConditions := [] |}.

(** The ordering comparison a range condition names. *)
Definition satisfies (op : RangeOp) (x t : Qc) : bool :=
  match op with
  | OpLt => Qcltb x t
  | OpLte => Qcleb x t
  | OpGt => Qcltb t x
  | OpGte => Qcleb t x
  end.

Definition numberOf (doc : Doc) (key : string) : option Qc :=
  match prop doc key with
  | Some (VNumber x) => Some x
  | _ => None
  end.

Section WithNumber.
Variable Number : string -> option Qc.

Lemma valid_number sch doc key :
  valid sch doc -> schemaType sch key = Some "number"%string ->
  exists x, prop doc key = Some (VNumber x).
Proof.
  intros Hv Hs. unfold valid, validateDoc in Hv.
  rewrite forallb_forall in Hv.
  assert (Hin : In key (JsMap.keys sch)).
  { apply JsMap.get_In in Hs. change key with (fst (key, "number"%string)).
    now apply in_map. }
  specialize (Hv key Hin). rewrite Hs in Hv.
  destruct (prop doc key) as [[s|x|b]|]; try discriminate. eauto.
Qed.

Lemma whereKey_range sch docs key c :
  schemaType sch key = Some "number"%string ->
  otherConditions c = [] -> eq c = None ->
  whereKey sch docs key (CObject c) = Ok docs.
Proof.
  intros Hs Ho He. unfold whereKey. rewrite Hs, Ho, He. reflexivity.
Qed.

(** On a number field, a one-sided range condition whose threshold is
    not 0 keeps exactly the documents that satisfy the comparison. *)
Lemma range_condition_nonzero sch docs key op t :
  schemaType sch key = Some "number"%string ->
  Forall (valid sch) docs -> t <> 0 ->
  applyWhereClause Number sch docs [(key, rangeCondition op t)]
  = Ok (filter (fun doc => match numberOf doc key with
                           | Some x => satisfies op x t
                           | None => false
                           end) docs).
Proof.
  intros Hs Hv Ht. unfold applyWhereClause. simpl fold_left.
  unfold rangeCondition.
  rewrite whereKey_range by (try assumption; destruct op; reflexivity).
  f_equal. apply filter_ext_in. intros doc Hin.
  rewrite Forall_forall in Hv.
  destruct (valid_number (Hv doc Hin) Hs) as [x Hx].
  unfold numberOf. simpl. unfold rangeKeeps. rewrite Hx.
  assert (Hz : Qceqb t 0 = false).
  { unfold Qceqb. destruct (Qc_eq_dec t 0); congruence. }
  destruct op; simpl; rewrite Hz; unfold jsGe, jsGt, jsLe, jsLt; simpl;
    rewrite ?andb_true_r;
    first [apply Qcleb_antisym | apply Qcltb_antisym].
Qed.

(** On a number field, [bt: [min, max]] keeps exactly the documents
    whose value lies in the closed interval. *)
Lemma between_condition sch docs key min max :
  schemaType sch key = Some "number"%string ->
  Forall (valid sch) docs ->
  applyWhereClause Number sch docs [(key, betweenCondition min max)]
  = Ok (filter (fun doc => match numberOf doc key with
                           | Some x => Qcleb min x && Qcleb x max
                           | None => false
                           end) docs).
Proof.
  intros Hs Hv. unfold applyWhereClause. simpl fold_left.
  unfold betweenCondition. rewrite whereKey_range by auto.
  f_equal. apply filter_ext_in. intros doc Hin.
  rewrite Forall_forall in Hv.
  destruct (valid_number (Hv doc Hin) Hs) as [x Hx].
  unfold numberOf. simpl. unfold rangeKeeps. rewrite Hx. simpl.
  unfold jsLt, jsGt. simpl. rewrite andb_true_r, negb_orb.
  now rewrite !Qcltb_antisym.
Qed.

(** A threshold of 0 is falsy: the condition is skipped and every
    document stays. *)
Lemma range_condition_zero sch docs key op :
  schemaType sch key = Some "number"%string ->
  applyWhereClause Number sch docs [(key, rangeCondition op 0)] = Ok docs.
Proof.
  intros Hs. unfold applyWhereClause. simpl fold_left.
  unfold rangeCondition.
  rewrite whereKey_range by (try assumption; destruct op; reflexivity).
  f_equal. apply filter_all. intros doc _.
  destruct op; reflexivity.
Qed.
End WithNumber.
End WhereFacts.

(** ** The two-book scenario on the indexed engine

    For the examples the imports of the indexed engine are read as the
    functions of the flat engine: its normaliser, its stemmer over
    [sampleLists], its distance table, and its scorer started on an empty
    memo table. *)

Module Library.
Import Vultos Books.
Local Open Scope string_scope.

Definition flatTextUtils : TextUtils :=
  {| sanitizeText := Text.sanitizeText;
     stemmer := Stemmer.stemmer (L := sampleLists);
     levenshteinDistance := Levenshtein.tableDistance |}.

Definition flatScorer : Scorer :=
  {| calculateScore :=
       fun doc queryWords fields schema =>
         match Vultus.calculateScore (L := sampleLists) Vultus.decimalNumber
                 schema fields doc queryWords (JsMap.empty string nat) with
         | Vultus.Ret s _ => s
         | _ => 0%Qc
         end |}.

Definition twoBooks : Engine :=
  fst (addDocs (T := flatTextUtils) (newVultos bookSchema)
               [gatsby; expectations]).

Definition whereYear (c : Condition) : Parameters :=
  {| fieldsParam := None; whereParam := Some [("year", c)];
     scoreParam := None; otherParams := [] |}.



Definition flatSearch :=
  search (T := flatTextUtils) (S := flatScorer) Vultus.decimalNumber.

Definition documentsOf (r : Engine * outcome SearchResult) : list Doc :=
  match snd r with
  | Ok result => map document (hits result)
  | Throw _ => []
  end.

Example index_of_twoBooks :
  map (fun entry => (fst entry, map ref (snd entry))) (index twoBooks)
  = [("th", [1]); ("great", [1; 2]); ("gatsbi", [1]); ("expectation", [2])].
Proof. reflexivity. Qed.

Example search_great :
  documentsOf (flatSearch twoBooks "great" (Some noParameters))
  = [gatsby; expectations].
Proof. vm_compute. reflexivity. Qed.

(** The scenario of the specification: [where: {year: {gte: 1900}}]. *)
Example search_great_since_1900 :
  documentsOf (flatSearch twoBooks "great"
                 (Some (whereYear (WhereFacts.rangeCondition
                                     WhereFacts.OpGte (num 1900)))))
  = [gatsby].
Proof. vm_compute. reflexivity. Qed.

Example search_great_omitted_parameters :
  snd (flatSearch twoBooks "great" None)
  = Throw (ErrorOf scoreOfUndefined).
Proof. reflexivity. Qed.
End Library.

Section WhereClaims.
Import Vultos VultosFacts WhereFacts Books Library.
Local Open Scope Qc_scope.

(** C5, where the code departs from it.  [where: {year: {lt: 0}}] must
    keep the documents whose year is below 0, here The Iliad alone.  The
    filter tests [condition.lt && ...], 0 is falsy, and all three
    documents stay.  The same holds for [lte], [gt] and [gte]
    ([range_condition_zero]); with any other threshold the filter is the
    comparison ([range_condition_nonzero], [between_condition]). *)
Theorem where_lt_zero_keeps_every_document :
  applyWhereClause Vultus.decimalNumber bookSchema
                   [gatsby; expectations; iliad]
                   [("year"%string, rangeCondition OpLt 0)]
  = Ok [gatsby; expectations; iliad]
  /\ filter (fun doc => match numberOf doc "year" with
                        | Some x => satisfies OpLt x 0
                        | None => false
                        end) [gatsby; expectations; iliad]
     = [iliad].
Proof. split; vm_compute; reflexivity. Qed.

Example where_gte_1900 :
  applyWhereClause Vultus.decimalNumber bookSchema [gatsby; expectations]
                   [("year"%string, rangeCondition OpGte (num 1900))]
  = Ok [gatsby].
Proof. vm_compute. reflexivity. Qed.

Example where_bt_inclusive :
  applyWhereClause Vultus.decimalNumber bookSchema
                   [gatsby; expectations; iliad]
                   [("year"%string, betweenCondition (num 1861) (num 1925))]
  = Ok [gatsby; expectations].
Proof. vm_compute. reflexivity. Qed.

Lemma rejected_document_is_not_committed_witness :
  validateDoc bookSchema untitled = false
  /\ addDoc (T := flatTextUtils) twoBooks untitled
     = (twoBooks, Throw DocumentDoesNotMatchSchema)
  /\ snd (addDocs (T := flatTextUtils) twoBooks [iliad; untitled; gatsby])
     = Throw DocumentDoesNotMatchSchema.
Proof.
  split; [reflexivity|].
  pose proof (@rejected_document_is_not_committed flatTextUtils flatScorer
                Vultus.decimalNumber bookSchema
                [CallAddDocs [gatsby; expectations]] untitled
                Logic.eq_refl) as H.
  destruct H as [H1 [H2 _]]. split; [exact H1|].
  assert (Hacc : Forall (fun d => validateDoc bookSchema d = true) [iliad]).
  { constructor; [reflexivity | constructor]. }
  exact (proj1 (H2 [iliad] [gatsby] Hacc)).
Defined.
End WhereClaims.

(** ** Facts about parameters and weights *)

Module ParameterFacts.
Import Vultos VultosFacts WhereFacts.
Local Open Scope Qc_scope.


(** What [#setParameters] logs for one entry. *)
Definition weightWarning (entry : string * FieldParams) : list string :=
  match weightParam (snd entry) with
  | Some w =>
      if Qcltb (num 5) w
      then ["Weight for field '" ++ fst entry
            ++ "' is too high, setting to 5"]%string
      else if Qcltb w 1
      then ["Weight for field '" ++ fst entry
            ++ "' is too low, setting to 1"]%string
      else []
  | None => []
  end.

(** The weight [#setParameters] sets for a given one. *)
Definition clamp (w : Qc) : Qc :=
  if Qcltb (num 5) w then num 5 else if Qcltb w 1 then 1 else w.

(** The field list after the loop of [#setParameters]. *)
Definition applyWeights (entries : list (string * FieldParams))
           (fs : list Field) : list Field :=
  fold_left
    (fun fs entry =>
       match weightParam (snd entry) with
       | Some w => setFieldWeight (fst entry) (clamp w) fs
       | None => fs
       end)
    entries fs.






Lemma hasField_names fieldName fs :
  hasField fieldName fs = true <-> In fieldName (map name fs).
Proof.
  unfold hasField. rewrite existsb_exists, in_map_iff. split.
  - intros [f [Hf E]]. apply String.eqb_eq in E. eauto.
  - intros [f [E Hf]]. exists f. split; [assumption|]. now apply String.eqb_eq.
Qed.

Lemma hasOwnProperty_keys (V : Type) (o : list (string * V)) key :
  hasOwnProperty o key = true -> In key (JsMap.keys o).
Proof.
  unfold hasOwnProperty. intros H. apply JsMap.has_get in H as [v Hv].
  apply JsMap.get_In in Hv. change key with (fst (key, v)). now apply in_map.
Qed.










Section WithImports.
Context {T : TextUtils} {S : Scorer}.
Variable Number : string -> option Qc.

(** With every name in the schema, [#setParameters] does not throw; it
    sets the weights and logs the corrections. *)
Lemma setParameter_spec e fieldName fieldParams :
  hasOwnProperty (schema e) fieldName = true ->
  map name (fields e) = JsMap.keys (schema e) ->
  let r := setParameter e fieldName fieldParams in
  snd r = Ok tt
  /\ fields (fst r) = applyWeights [(fieldName, fieldParams)] (fields e)
  /\ console (fst r) = console e ++ weightWarning (fieldName, fieldParams).
Proof.
  intros Hs Hn. unfold setParameter, applyWeights, weightWarning. simpl.
  rewrite Hs. simpl.
  destruct (weightParam fieldParams) as [w|];
    [|now rewrite app_nil_r].
  assert (Hf : hasField fieldName (fields e) = true).
  { apply hasField_names. rewrite Hn. now apply hasOwnProperty_keys. }
  rewrite Hf.
  destruct (Qcltb (num 5) w) eqn:E5; simpl.
  - split; [reflexivity|]. split; [|reflexivity].
    unfold clamp. now rewrite E5.
  - destruct (Qcltb w 1) eqn:E1; simpl.
    + split; [reflexivity|]. split; [|reflexivity].
      unfold clamp. now rewrite E5, E1.
    + rewrite app_nil_r. unfold clamp. now rewrite E5, E1.
Qed.

Lemma setParametersLoop_spec entries : forall e,
  (forall n, In n (map fst entries) -> hasOwnProperty (schema e) n = true) ->
  map name (fields e) = JsMap.keys (schema e) ->
  let r := setParametersLoop e entries in
  snd r = Ok tt
  /\ fields (fst r) = applyWeights entries (fields e)
  /\ console (fst r) = console e ++ flat_map weightWarning entries.
Proof.
  induction entries as [|[n fp] entries IH]; intros e Hs Hn; simpl.
  - now rewrite app_nil_r.
  - destruct (@setParameter_spec e n fp (Hs n (or_introl Logic.eq_refl)) Hn)
      as [Hok [Hf Hc]].
    destruct (setParameter_same e n fp) as [Hsame _].
    destruct (setParameter e n fp) as [e' st]. simpl in *. subst st.
    destruct (IH e') as [Hok' [Hf' Hc']].
    + intros n' Hn'. rewrite (same_schema Hsame). apply Hs. now right.
    + rewrite (same_names Hsame), (same_schema Hsame). exact Hn.
    + split; [exact Hok'|]. split.
      * rewrite Hf', Hf. reflexivity.
      * rewrite Hc', Hc, <- app_assoc. reflexivity.
Qed.

(** Parameters are well formed when no key is unknown, every field name is
    a schema key, and no field name is repeated. *)
Definition wellFormed (sch : Schema) (p : Parameters) : Prop :=
  otherParams p = []
  /\ forall entries, fieldsParam p = Some entries ->
                     NoDup (map fst entries)
                     /\ forall n, In n (map fst entries) ->
                                  hasOwnProperty sch n = true.

Definition weightsOf (p : Parameters) : list (string * FieldParams) :=
  match fieldsParam p with Some entries => entries | None => [] end.

Lemma handleParameters_spec sch e p :
  inv sch e -> wellFormed sch p ->
  let r := handleParameters e (Some p) in
  snd r = Ok tt
  /\ fields (fst r) = applyWeights (weightsOf p) (fields e)
  /\ console (fst r) = console e ++ flat_map weightWarning (weightsOf p)
  /\ same_store e (fst r)
  /\ cache (fst r) = cache e.
Proof.
  intros Hinv [Ho Hw].
  destruct (handleParameters_same e (Some p)) as [Hsame Hcache].
  unfold handleParameters, setParameters, weightsOf in *. rewrite Ho in *.
  destruct (fieldsParam p) as [entries|] eqn:Ef.
  - destruct (Hw entries Logic.eq_refl) as [Hnd Hs].
    assert (Hfind : find (fun fieldName =>
                            negb (hasOwnProperty (schema e) fieldName))
                         (JsMap.keys entries) = None).
    { destruct (find _ (JsMap.keys entries)) as [n|] eqn:E; [|reflexivity].
      apply find_some in E as [Hin E]. rewrite (inv_schema Hinv) in E.
      rewrite (Hs n Hin) in E. discriminate. }
    rewrite Hfind in *.
    destruct (@setParametersLoop_spec entries e) as [Hok [Hf Hc]].
    + intros n Hn. rewrite (inv_schema Hinv). now apply Hs.
    + rewrite (inv_schema Hinv). exact (inv_fields Hinv).
    + auto.
  - simpl. rewrite app_nil_r. auto using same_store_refl.
Qed.
End WithImports.
End ParameterFacts.

(** ** Facts about search *)

Module SearchFacts.
Import Vultos VultosFacts ParameterFacts.

Lemma insertHit_In h x l : In h (insertHit x l) -> h = x \/ In h l.
Proof.
  induction l as [|y l IH]; simpl.
  - intros [<-|[]]. now left.
  - destruct (Qcltb (score x) (score y)); simpl.
    + intros [<-|H]; [right; now left|].
      destruct (IH H); auto.
    + intros [<-|H]; auto.
Qed.



Section WithImports.
Context {T : TextUtils} {S : Scorer}.
Variable Number : string -> option Qc.



(** The candidates that pass the where clause. *)
Definition filtered (e : Engine) (query : string) (p : Parameters)
  : outcome (list Doc) :=
  match whereParam p with
  | Some whereClause =>
      applyWhereClause Number (schema e)
                       (candidates (index e) (queryWordsOf query)) whereClause
  | None => Ok (candidates (index e) (queryWordsOf query))
  end.

(** The result of the path that computes. *)
Definition computed (hits : list Hit) (scoreConditions : option ScoreConditions)
  : outcome SearchResult :=
  match filterHitsByScore hits scoreConditions with
  | Throw err => Throw err
  | Ok hits => Ok {| count := length hits; hits := hits; sortBy := true |}
  end.

Lemma searchBody_miss e query p :
  JsMap.get CacheKey_eq_dec (createCacheKey query (Some p)) (cache e) = None ->
  searchBody Number e query (Some p) =
  match filtered e query p with
  | Throw err => (e, Throw err)
  | Ok filteredDocs =>
      let hits := rank e (queryWordsOf query) filteredDocs in
      (withCache e (JsMap.set CacheKey_eq_dec (createCacheKey query (Some p))
                              hits (cache e)),
       computed hits (scoreParam p))
  end.
Proof.
  intros Hmiss. unfold searchBody, filtered, computed. rewrite Hmiss.
  destruct (whereParam p) as [w|].
  - destruct (applyWhereClause _ _ _ w); [|reflexivity]. simpl.
    destruct (filterHitsByScore _ (scoreParam p)); reflexivity.
  - simpl. destruct (filterHitsByScore _ (scoreParam p)); reflexivity.
Qed.

Lemma searchBody_hit e query p cachedResults :
  JsMap.get CacheKey_eq_dec (createCacheKey query (Some p)) (cache e)
  = Some cachedResults ->
  searchBody Number e query (Some p) =
  (e, match filterHitsByScore cachedResults (scoreParam p) with
      | Throw err => Throw err
      | Ok hits => Ok {| count := length cachedResults; hits := hits;
                         sortBy := false |}
      end).
Proof.
  intros Hhit. unfold searchBody. rewrite Hhit. simpl.
  destruct (filterHitsByScore cachedResults (scoreParam p)); reflexivity.
Qed.

Definition rethrown (A : Type) (r : outcome A) : outcome A :=
  match r with
  | Ok a => Ok a
  | Throw err => Throw (ErrorOf err)
  end.

Lemma search_wellFormed sch e query p :
  inv sch e -> wellFormed sch p ->
  search Number e query (Some p) =
  let r := searchBody Number (fst (handleParameters e (Some p))) query (Some p) in
  (fst r, rethrown (snd r)).
Proof.
  intros Hinv Hp. unfold search.
  destruct (handleParameters_spec Hinv Hp) as [Hok _].
  destruct (handleParameters e (Some p)) as [e1 st]. simpl in *. subst st.
  destruct (searchBody Number e1 query (Some p)) as [e2 [r|err]]; reflexivity.
Qed.
End WithImports.
End SearchFacts.

(** ** Properties of parameters, weights and the query cache *)

Section SearchClaims.
Import Vultos VultosFacts WhereFacts ParameterFacts SearchFacts.
Local Open Scope Qc_scope.
Context {T : TextUtils} {S : Scorer}.
Variable Number : string -> option Qc.







End SearchClaims.

(** ** The claims about search on the two books *)

Section SearchExamples.
Import Vultos VultosFacts WhereFacts ParameterFacts SearchFacts Books Library.
Local Open Scope Qc_scope.
Local Open Scope string_scope.

Let loaded : list Call := [CallAddDocs [gatsby; expectations]].




(** A third book, added between two searches. *)
Definition greatWar : Doc :=
  {| ref := 5;
     props := [("title", VString "The Great War");
               ("year", VNumber (num 1914))] |}.






End SearchExamples.

(** ** More about the edit distance of the flat engine *)

Module DistanceFacts.
Import Str EditDistance Levenshtein.

Lemma dist_sym a b : dist a b = dist b a.
Proof.
  apply Nat.le_antisymm; apply dist_le_align, align_sym, dist_align.
Qed.

Lemma align_zero n s t : align n s t -> n = 0 -> s = t.
Proof. induction 1; intros E; try discriminate; f_equal; auto. Qed.

Lemma dist_zero a b : dist a b = 0 <-> a = b.
Proof.
  split.
  - intros H. pose proof (dist_align a b) as Ha. rewrite H in Ha.
    now apply (align_zero Ha).
  - intros ->. pose proof (dist_le_align (align_refl b)). lia.
Qed.

Lemma dist_triangle a b c : dist a c <= dist a b + dist b c.
Proof.
  destruct (dist_min_edits a c) as [_ Hmin]. apply Hmin.
  eapply edits_trans; apply dist_min_edits.
Qed.

(** Replacing along the shorter string and inserting or deleting the
    rest is an alignment. *)
Lemma align_diagonal a : forall b,
  exists n, n <= Nat.max (length a) (length b) /\ align n a b.
Proof.
  induction a as [|x a IH]; intros b.
  - exists (length b). split; [simpl; lia | apply align_nil_l].
  - destruct b as [|y b].
    + exists (length (x :: a)). split; [simpl; lia | apply align_nil_r].
    + destruct (IH b) as [n [Hn Ha]]. exists (S n). split; [simpl; lia|].
      now constructor.
Qed.

Lemma dist_upper a b : dist a b <= Nat.max (length a) (length b).
Proof.
  destruct (align_diagonal a b) as [n [Hn Ha]].
  apply dist_le_align in Ha. lia.
Qed.

(** A column of an alignment changes the difference of the lengths by one
    at most. *)
Lemma align_length n s t :
  align n s t -> length s <= length t + n /\ length t <= length s + n.
Proof. induction 1; simpl; lia. Qed.

Lemma dist_lower a b :
  length a - length b <= dist a b /\ length b - length a <= dist a b.
Proof. pose proof (align_length (dist_align a b)). lia. Qed.

Lemma chars_inj a b : chars a = chars b -> a = b.
Proof.
  intros H. rewrite <- (ofChars_chars a), <- (ofChars_chars b). now rewrite H.
Qed.

Lemma pairKey_assoc a b c :
  pairKey (a ++ ":" ++ b) c = pairKey a (b ++ ":" ++ c).
Proof.
  unfold pairKey. induction a as [|x a IH]; simpl in *; congruence.
Qed.

End DistanceFacts.

(** ** More about text normalisation *)

Module TextFacts.
Import Str Text.

Definition isUpper (c : ascii) : bool := inRange 65 90 c.

Lemma lowerChar_kept c :
  isWordChar c || isSpace c = true ->
  isWordChar (lowerChar c) || isSpace (lowerChar c) = true
  /\ isUpper (lowerChar c) = false
  /\ lowerChar (lowerChar c) = lowerChar c.
Proof.
  destruct c as [[] [] [] [] [] [] [] []]; vm_compute; intuition congruence.
Qed.

Lemma filter_map_kept (p : ascii -> bool) (f : ascii -> ascii) l :
  (forall c, In c l -> p (f c) = true /\ f (f c) = f c) ->
  map f (filter p (map f l)) = map f l.
Proof.
  induction l as [|c l IH]; intros H; simpl; auto.
  destruct (H c (or_introl Logic.eq_refl)) as [Hp Hf]. rewrite Hp. simpl.
  rewrite Hf. f_equal. apply IH. intros d Hd. apply H. now right.
Qed.

End TextFacts.

Section TextProperties.
Import Str EditDistance Levenshtein Text DistanceFacts TextFacts.

(** The distance [#levenshteinDistance] returns is a metric on strings: it is
    0 for equal strings only, it does not depend on the order of its
    arguments, and a detour through a third string is never shorter.  The
    memo table is one a fresh engine reaches through calls on words without
    the key separator. *)
Theorem levenshteinDistance_is_a_metric
        (history : list (string * string)) (a b c : string) :
  Forall sepFreePair history ->
  let d x y := fst (levenshteinDistance x y (replay history)) in
  (d a b = 0 <-> a = b)
  /\ d a b = d b a
  /\ d a c <= d a b + d b c.
Proof.
  intros Hh d. subst d. cbv beta.
  rewrite !(fun x y => levenshteinDistance_exact x y (exact_replay Hh)).
  rewrite !tableDistance_dist. split; [|split].
  - rewrite dist_zero. split; [apply chars_inj | now intros ->].
  - apply dist_sym.
  - apply dist_triangle.
Qed.

Lemma levenshteinDistance_is_a_metric_witness :
  Forall sepFreePair [("great", "grate")]%string
  /\ fst (levenshteinDistance "gatsby" "gatsbi"
            (replay [("great", "grate")]%string))
     = fst (levenshteinDistance "gatsbi" "gatsby"
              (replay [("great", "grate")]%string)).
Proof.
  assert (H : Forall sepFreePair [("great", "grate")]%string).
  { repeat constructor. }
  split; [exact H|].
  exact (proj1 (proj2 (@levenshteinDistance_is_a_metric
                         _ "gatsby" "gatsbi" "" H))).
Defined.

(** The distance lies between the difference of the two lengths and the
    greater length.  Two words whose lengths differ by 3 or more are
    therefore never within the matching distance of the scorer, which
    is below 3. *)
Theorem levenshteinDistance_bounds
        (history : list (string * string)) (a b : string) :
  Forall sepFreePair history ->
  let d := fst (levenshteinDistance a b (replay history)) in
  String.length a - String.length b <= d
  /\ String.length b - String.length a <= d
  /\ d <= Nat.max (String.length a) (String.length b)
  /\ (3 <= String.length a - String.length b
      \/ 3 <= String.length b - String.length a -> (d <? 3) = false).
Proof.
  intros Hh d. subst d.
  rewrite (levenshteinDistance_exact a b (exact_replay Hh)).
  rewrite tableDistance_dist, <- !length_chars.
  pose proof (dist_lower (chars a) (chars b)) as [H1 H2].
  pose proof (dist_upper (chars a) (chars b)) as H3.
  repeat split; try assumption.
  intros H. apply Nat.ltb_ge. lia.
Qed.

Lemma levenshteinDistance_bounds_witness :
  Forall sepFreePair [("great", "grate")]%string
  /\ (fst (levenshteinDistance "expectation" "the"
             (replay [("great", "grate")]%string)) <? 3) = false.
Proof.
  assert (H : Forall sepFreePair [("great", "grate")]%string).
  { repeat constructor. }
  split; [exact H|].
  apply (proj2 (proj2 (proj2 (@levenshteinDistance_bounds
                                _ "expectation" "the" H)))).
  left. simpl. lia.
Defined.

(** The memo table answers a repeated call: the second call on the same
    pair returns what the first returned and leaves the table as the first
    left it.  No call changes or removes an entry that is in the table. *)
Theorem levenshteinDistance_memo (a b : string) (c : LevCache) :
  let r := levenshteinDistance a b c in
  levenshteinDistance a b (snd r) = r
  /\ forall key d,
       JsMap.get string_dec key c = Some d ->
       JsMap.get string_dec key (snd r) = Some d.
Proof.
  unfold levenshteinDistance.
  destruct (JsMap.get string_dec (pairKey a b) c) as [d|] eqn:E; simpl.
  - rewrite E. auto.
  - rewrite JsMap.get_set_same. split; [reflexivity|].
    intros key d Hk. rewrite JsMap.get_set_other; [assumption|].
    intros <-. congruence.
Qed.

(** The memo key [`${a}:${b}`] does not tell where [a] ends.  A pair
    whose second word holds the separator has the key of a pair whose first
    word holds it, and is answered with the distance of that pair once it
    was asked for. *)
Theorem levenshteinDistance_key_is_ambiguous
        (a b c : string) (table : LevCache) :
  let first := levenshteinDistance (a ++ ":" ++ b) c table in
  levenshteinDistance a (b ++ ":" ++ c) (snd first) = first.
Proof.
  cbv zeta. unfold levenshteinDistance. rewrite <- pairKey_assoc.
  destruct (JsMap.get string_dec (pairKey (a ++ ":" ++ b) c) table)
    as [d|] eqn:E; cbn [snd].
  - now rewrite E.
  - now rewrite JsMap.get_set_same.
Qed.

(** [#sanitizeText] brings a text into a normal form: what it returns
    holds only lower-case letters, digits, underscores and white space, is
    never longer than the text, and is left as it is by a second pass. *)
Theorem sanitizeText_normal_form (text : string) :
  Forall (fun c => isWordChar c || isSpace c = true /\ isUpper c = false)
         (chars (sanitizeText text))
  /\ String.length (sanitizeText text) <= String.length text
  /\ sanitizeText (sanitizeText text) = sanitizeText text.
Proof.
  unfold sanitizeText, toLowerCase. rewrite !chars_ofChars.
  set (kept := filter (fun c => isWordChar c || isSpace c) (chars text)).
  assert (Hk : forall c, In c kept -> isWordChar c || isSpace c = true).
  { intros c Hc. now apply filter_In in Hc as [_ Hc]. }
  split; [|split].
  - apply Forall_forall. intros c Hc.
    apply in_map_iff in Hc as [c0 [<- Hc0]].
    destruct (lowerChar_kept (Hk c0 Hc0)) as [H1 [H2 _]]. auto.
  - rewrite <- !length_chars, chars_ofChars, length_map.
    apply filter_length_le.
  - f_equal. apply filter_map_kept. intros c Hc.
    destruct (lowerChar_kept (Hk c Hc)) as [H1 [_ H3]]. auto.
Qed.

End TextProperties.

(** ** More about insertion-ordered maps *)

Module JsMapFacts.
Section WithKey.
Variables (K V : Type).
Variable K_eq_dec : forall x y : K, {x = y} + {x <> y}.

Lemma get_None_keys k (m : JsMap.t K V) :
  JsMap.get K_eq_dec k m = None <-> ~ In k (JsMap.keys m).
Proof.
  induction m as [|[k0 v0] m IH]; simpl.
  - tauto.
  - destruct (K_eq_dec k k0) as [->|N].
    + split; [discriminate | intros H; exfalso; auto].
    + rewrite IH. split; [intros H [E|E]; auto | tauto].
Qed.

Lemma keys_set k v (m : JsMap.t K V) :
  JsMap.keys (JsMap.set K_eq_dec k v m)
  = if JsMap.has K_eq_dec k m then JsMap.keys m else JsMap.keys m ++ [k].
Proof.
  unfold JsMap.has. induction m as [|[k0 v0] m IH]; simpl; auto.
  destruct (K_eq_dec k k0) as [->|N]; simpl; auto.
  rewrite IH. destruct (JsMap.get K_eq_dec k m); reflexivity.
Qed.

Lemma NoDup_keys_set k v (m : JsMap.t K V) :
  NoDup (JsMap.keys m) -> NoDup (JsMap.keys (JsMap.set K_eq_dec k v m)).
Proof.
  intros H. rewrite keys_set. destruct (JsMap.has K_eq_dec k m) eqn:E; auto.
  apply JsMap.has_false_get, get_None_keys in E.
  apply NoDup_app; auto.
  - repeat constructor. intros [].
  - intros x Hx [<-|[]]. auto.
Qed.

(** With each key once, the entries are what [get] finds. *)
Lemma In_get k v (m : JsMap.t K V) :
  NoDup (JsMap.keys m) -> In (k, v) m -> JsMap.get K_eq_dec k m = Some v.
Proof.
  induction m as [|[k0 v0] m IH]; simpl; [tauto|].
  intros Hnd. inversion Hnd as [|? ? Hn Hnd']; subst.
  intros [[= -> ->]|Hin].
  - destruct (K_eq_dec k k); congruence.
  - destruct (K_eq_dec k k0) as [->|N]; [|auto].
    exfalso. apply Hn. change k0 with (fst (k0, v)). now apply in_map.
Qed.

End WithKey.
End JsMapFacts.

(** ** The index as the inverted index of the stored documents *)

Module IndexFacts.
Import Str Vultos VultosFacts JsMapFacts.

(** Two documents of [ds] with one identity are one document. *)
Definition identified (ds : list Doc) : Prop :=
  forall d1 d2, In d1 ds -> In d2 ds -> ref d1 = ref d2 -> d1 = d2.

(** The documents a call hands to the engine for storing. *)
Definition addedDocs (call : Call) : list Doc :=
  match call with
  | CallAddDoc doc => [doc]
  | CallAddDocs docsArray => docsArray
  | _ => []
  end.

Definition bucketOf (term : string) (index : JsMap.t string (list Doc))
  : list Doc :=
  match JsMap.get string_dec term index with
  | Some docsSet => docsSet
  | None => []
  end.

Lemma strictEq_refl v : strictEq v v = true.
Proof.
  destruct v as [v|]; simpl; [|reflexivity].
  destruct (Value_eq_dec v v); congruence.
Qed.

Lemma equals_refl doc : equals doc doc = true.
Proof.
  unfold equals.
  destruct (list_eq_dec string_dec (sortedKeys doc) (sortedKeys doc));
    [|congruence].
  apply forallb_forall. intros key _. apply strictEq_refl.
Qed.

Lemma setAdd_In doc s : In doc (setAdd doc s) \/ setHas doc s = true.
Proof.
  unfold setAdd. destruct (setHas doc s); auto.
  left. apply in_or_app. right. now left.
Qed.

Lemma setAdd_incl doc s x : In x s -> In x (setAdd doc s).
Proof.
  unfold setAdd. destruct (setHas doc s); auto.
  intros H. apply in_or_app. now left.
Qed.

Lemma setAdd_inv doc s x : In x (setAdd doc s) -> x = doc \/ In x s.
Proof.
  unfold setAdd. destruct (setHas doc s); auto.
  intros H. apply in_app_or in H as [H|[<-|[]]]; auto.
Qed.

Lemma setHas_setAdd doc s : setHas doc (setAdd doc s) = true.
Proof.
  unfold setAdd. destruct (setHas doc s) eqn:E; auto.
  unfold setHas. rewrite existsb_app. simpl.
  now rewrite Nat.eqb_refl, orb_true_r.
Qed.

Lemma setAdd_idem doc s : setAdd doc (setAdd doc s) = setAdd doc s.
Proof. unfold setAdd at 1. now rewrite setHas_setAdd. Qed.

Section WithImports.
Context {T : TextUtils} {S : Scorer}.
Variable Number : string -> option Qc.

(** The terms [#addToIndex] files a document under for one field: the
    stemmed tokens of the normalised text of a field declared
    ['string']. *)
Definition fieldTerms (sch : Schema) (doc : Doc) (key : string)
  : list string :=
  match prop doc key, schemaType sch key with
  | Some (VString text), Some ty =>
      if String.eqb ty "string"
      then map stemmer (Text.split (sanitizeText text))
      else []
  | _, _ => []
  end.

Definition termsOf (sch : Schema) (doc : Doc) : list string :=
  flat_map (fieldTerms sch doc) (JsMap.keys sch).

(** *** What [addTerms] leaves under every term *)

Definition addTerm (doc : Doc) (index : JsMap.t string (list Doc))
           (term : string) : JsMap.t string (list Doc) :=
  let stemmedTerm := stemmer term in
  let index :=
    if JsMap.has string_dec stemmedTerm index then index
    else JsMap.set string_dec stemmedTerm [] index in
  match JsMap.get string_dec stemmedTerm index with
  | Some docsSet =>
      JsMap.set string_dec stemmedTerm (setAdd doc docsSet) index
  | None => index
  end.

Lemma addTerms_fold doc terms index :
  addTerms doc terms index = fold_left (addTerm doc) terms index.
Proof. reflexivity. Qed.

Lemma addTerm_set doc index term :
  addTerm doc index term
  = JsMap.set string_dec (stemmer term)
              (setAdd doc (bucketOf (stemmer term) index)) index.
Proof.
  unfold addTerm, bucketOf, JsMap.has.
  destruct (JsMap.get string_dec (stemmer term) index) as [b|] eqn:E.
  - now rewrite E.
  - rewrite JsMap.get_set_same. apply JsMap.set_set.
Qed.

Lemma bucketOf_addTerm doc index term t :
  bucketOf t (addTerm doc index term)
  = if string_dec t (stemmer term) then setAdd doc (bucketOf t index)
    else bucketOf t index.
Proof.
  rewrite addTerm_set. unfold bucketOf at 1.
  destruct (string_dec t (stemmer term)) as [->|N].
  - now rewrite JsMap.get_set_same.
  - rewrite JsMap.get_set_other by congruence. reflexivity.
Qed.

Lemma get_addTerm doc index term t :
  JsMap.get string_dec t (addTerm doc index term)
  = if string_dec t (stemmer term)
    then Some (setAdd doc (bucketOf t index))
    else JsMap.get string_dec t index.
Proof.
  rewrite addTerm_set.
  destruct (string_dec t (stemmer term)) as [->|N].
  - now rewrite JsMap.get_set_same.
  - now rewrite JsMap.get_set_other by congruence.
Qed.

Lemma get_addTerms doc terms : forall index t,
  JsMap.get string_dec t (addTerms doc terms index)
  = if in_dec string_dec t (map stemmer terms)
    then Some (setAdd doc (bucketOf t index))
    else JsMap.get string_dec t index.
Proof.
  intros index t. rewrite addTerms_fold. revert index.
  induction terms as [|term terms IH]; intros index; simpl; auto.
  rewrite IH, bucketOf_addTerm, get_addTerm.
  destruct (string_dec (stemmer term) t) as [E|N].
  - subst t. destruct (string_dec (stemmer term) (stemmer term));
      [|congruence].
    rewrite setAdd_idem. now destruct (in_dec string_dec _ _).
  - destruct (string_dec t (stemmer term)); [congruence|].
    destruct (in_dec string_dec t (map stemmer terms)); reflexivity.
Qed.

Lemma keys_addTerms doc terms : forall index,
  NoDup (JsMap.keys index) -> NoDup (JsMap.keys (addTerms doc terms index)).
Proof.
  intros index. rewrite addTerms_fold. revert index.
  induction terms as [|term terms IH]; intros index H; simpl; auto.
  apply IH. rewrite addTerm_set. now apply NoDup_keys_set.
Qed.

(** *** What [#addToIndex] leaves under every term *)

(** The body of the loop of [#addToIndex], on a document the schema
    accepts. *)
Definition indexField (sch : Schema) (doc : Doc)
           (index : JsMap.t string (list Doc)) (key : string)
  : JsMap.t string (list Doc) :=
  match prop doc key, schemaType sch key with
  | Some (VString text), Some ty =>
      if String.eqb ty "string"
      then addTerms doc (Text.split (sanitizeText text)) index
      else index
  | _, _ => index
  end.

Definition indexFields (sch : Schema) (doc : Doc) (names : list string)
           (index : JsMap.t string (list Doc)) : JsMap.t string (list Doc) :=
  fold_left (indexField sch doc) names index.

Lemma addToIndex_indexFields e doc :
  valid (schema e) doc ->
  addToIndex e doc
  = (indexFields (schema e) doc (map name (fields e)) (index e), Ok tt).
Proof.
  intros Hv. unfold addToIndex, indexFields.
  generalize (index e). induction (fields e) as [|f fs IH]; intros index;
    simpl; auto.
  unfold indexField at 2.
  destruct (prop doc (name f)) as [v|] eqn:Ep; [|apply IH].
  destruct (schemaType (schema e) (name f)) as [ty|] eqn:Es;
    [|destruct v; apply IH].
  pose proof (PhraseFacts.validateDoc_prop Hv Es Ep) as Ht.
  destruct (String.eqb_spec ty "string") as [->|N].
  - destruct v; try discriminate. apply IH.
  - destruct v; apply IH.
Qed.

Lemma get_indexField sch doc index key t :
  JsMap.get string_dec t (indexField sch doc index key)
  = if in_dec string_dec t (fieldTerms sch doc key)
    then Some (setAdd doc (bucketOf t index))
    else JsMap.get string_dec t index.
Proof.
  unfold indexField, fieldTerms.
  destruct (prop doc key) as [[text| |]|]; try reflexivity.
  destruct (schemaType sch key) as [ty|]; try reflexivity.
  destruct (String.eqb ty "string"); try reflexivity.
  apply get_addTerms.
Qed.

Lemma bucketOf_indexField sch doc index key t :
  bucketOf t (indexField sch doc index key)
  = if in_dec string_dec t (fieldTerms sch doc key)
    then setAdd doc (bucketOf t index)
    else bucketOf t index.
Proof.
  unfold bucketOf at 1. rewrite get_indexField.
  destruct (in_dec string_dec t (fieldTerms sch doc key)); reflexivity.
Qed.

Lemma get_indexFields sch doc names : forall index t,
  JsMap.get string_dec t (indexFields sch doc names index)
  = if in_dec string_dec t (flat_map (fieldTerms sch doc) names)
    then Some (setAdd doc (bucketOf t index))
    else JsMap.get string_dec t index.
Proof.
  unfold indexFields.
  induction names as [|key names IH]; intros index t; simpl; auto.
  rewrite IH, bucketOf_indexField, get_indexField.
  destruct (in_dec string_dec t (fieldTerms sch doc key)) as [H1|H1];
    destruct (in_dec string_dec t (flat_map (fieldTerms sch doc) names))
      as [H2|H2];
    destruct (in_dec string_dec t
                (fieldTerms sch doc key
                 ++ flat_map (fieldTerms sch doc) names)) as [H3|H3];
    try reflexivity;
    try (exfalso; apply H3, in_or_app; auto; fail);
    try (exfalso; apply in_app_or in H3 as [H3|H3]; auto; fail).
  now rewrite setAdd_idem.
Qed.

Lemma keys_indexFields sch doc names : forall index,
  NoDup (JsMap.keys index) ->
  NoDup (JsMap.keys (indexFields sch doc names index)).
Proof.
  unfold indexFields.
  induction names as [|key names IH]; intros index H; simpl; auto.
  apply IH. unfold indexField.
  destruct (prop doc key) as [[text| |]|]; auto.
  destruct (schemaType sch key) as [ty|]; auto.
  destruct (String.eqb ty "string"); auto.
  now apply keys_addTerms.
Qed.

(** *** The invariant *)

(** Every term is in the index once, and a document of a bucket is a
    stored document that has the term. *)
Record filed (sch : Schema) (e : Engine) : Prop := {
  filed_keys : NoDup (JsMap.keys (index e));
  filed_sound :
    forall term docsSet doc,
      In (term, docsSet) (index e) -> In doc docsSet ->
      In doc (docs e) /\ In term (termsOf sch doc)
}.

(** Every stored document is in the bucket of each of its terms. *)
Definition complete (sch : Schema) (e : Engine) : Prop :=
  forall doc term,
    In doc (docs e) -> In term (termsOf sch doc) ->
    exists docsSet,
      JsMap.get string_dec term (index e) = Some docsSet /\ In doc docsSet.

Record indexed (sch : Schema) (U : list Doc) (e : Engine) : Prop := {
  indexed_inv : inv sch e;
  indexed_filed : filed sch e;
  indexed_known : incl (docs e) U;
  indexed_complete : complete sch e
}.

Lemma addValid_index sch e doc :
  inv sch e -> valid sch doc ->
  addValid e doc
  = (withIndex (withDocs e (docs e ++ [doc]))
               (indexFields sch doc (JsMap.keys sch) (index e)), Ok tt).
Proof.
  intros Hinv Hv. unfold addValid.
  rewrite addToIndex_indexFields
    by (simpl; now rewrite (inv_schema Hinv)).
  simpl. now rewrite (inv_schema Hinv), (inv_fields Hinv).
Qed.

Lemma addValid_filed sch e doc :
  inv sch e -> valid sch doc -> filed sch e ->
  filed sch (fst (addValid e doc)).
Proof.
  intros Hinv Hv [Hk Hs]. rewrite (addValid_index Hinv Hv). simpl.
  constructor; simpl.
  - now apply keys_indexFields.
  - intros term docsSet d Hin Hd.
    apply In_get with (K_eq_dec := string_dec) in Hin;
      [|now apply keys_indexFields].
    rewrite get_indexFields in Hin. fold (termsOf sch doc) in Hin.
    destruct (in_dec string_dec term (termsOf sch doc)) as [Ht|Ht].
    + injection Hin as <-. apply setAdd_inv in Hd as [->|Hd].
      * split; [apply in_or_app; right; now left | assumption].
      * unfold bucketOf in Hd.
        destruct (JsMap.get string_dec term (index e)) as [b|] eqn:E;
          [|contradiction].
        apply (@JsMap.get_In _ _ string_dec) in E.
        destruct (Hs _ _ _ E Hd) as [H1 H2].
        split; [apply in_or_app; now left | assumption].
    + apply (@JsMap.get_In _ _ string_dec) in Hin.
      destruct (Hs _ _ _ Hin Hd) as [H1 H2].
      split; [apply in_or_app; now left | assumption].
Qed.

Lemma addValid_indexed sch U e doc :
  identified U -> In doc U -> valid sch doc ->
  indexed sch U e -> indexed sch U (fst (addValid e doc)).
Proof.
  intros HU Hdoc Hv [Hinv Hf Hknown Hc].
  constructor.
  - now apply addValid_inv.
  - now apply addValid_filed.
  - rewrite (addValid_index Hinv Hv). simpl.
    intros x Hx. apply in_app_or in Hx as [Hx|[<-|[]]]; auto.
  - rewrite (addValid_index Hinv Hv). simpl.
    intros d term Hd Ht. simpl in *.
    rewrite get_indexFields. fold (termsOf sch doc).
    apply in_app_or in Hd as [Hd|[<-|[]]].
    + destruct (Hc d term Hd Ht) as [b [Hb Hdb]].
      destruct (in_dec string_dec term (termsOf sch doc)).
      * eexists. split; [reflexivity|]. apply setAdd_incl.
        unfold bucketOf. now rewrite Hb.
      * eauto.
    + destruct (in_dec string_dec term (termsOf sch doc)); [|contradiction].
      eexists. split; [reflexivity|].
      destruct (setAdd_In doc (bucketOf term (index e))) as [H|H]; auto.
      (* an object with the identity of [doc] is in the bucket: it is
         [doc] *)
      apply setAdd_incl.
      unfold setHas in H. apply existsb_exists in H as [y [Hy E]].
      apply Nat.eqb_eq in E.
      assert (Hys : In y (docs e)).
      { unfold bucketOf in Hy.
        destruct (JsMap.get string_dec term (index e)) as [b|] eqn:Eb;
          [|contradiction].
        apply (@JsMap.get_In _ _ string_dec) in Eb.
        now destruct (filed_sound Hf Eb Hy). }
      rewrite <- (HU y doc (Hknown y Hys) Hdoc E). exact Hy.
Qed.

(** *** Removing *)

Lemma get_deindexed docToRemove index term docsSet :
  NoDup (JsMap.keys index) ->
  JsMap.get string_dec term index = Some docsSet ->
  filter (keeps docToRemove) docsSet <> [] ->
  JsMap.get string_dec term (deindexed docToRemove index)
  = Some (filter (keeps docToRemove) docsSet).
Proof.
  unfold deindexed.
  induction index as [|[t b] index IH]; simpl; [discriminate|].
  intros Hnd Hg Hne. inversion Hnd as [|? ? Hn Hnd']; subst.
  destruct (string_dec term t) as [->|N].
  - injection Hg as ->.
    destruct (filter (keeps docToRemove) docsSet) as [|x l] eqn:E;
      [congruence|].
    simpl. destruct (string_dec t t); congruence.
  - destruct (filter (keeps docToRemove) b) as [|x l]; simpl; auto.
    destruct (string_dec term t); [congruence | auto].
Qed.

Lemma keys_deindexed docToRemove index :
  NoDup (JsMap.keys index) ->
  NoDup (JsMap.keys (deindexed docToRemove index)).
Proof.
  unfold deindexed, JsMap.keys.
  induction index as [|[t b] index IH]; simpl; intros H; [constructor|].
  inversion H as [|? ? Hn Hnd]; subst.
  destruct (filter (keeps docToRemove) b) as [|x l]; simpl; auto.
  constructor; auto.
  intros Hin. apply Hn. apply in_map_iff in Hin as [[t' b'] [E Hin]].
  simpl in E. subst t'. apply in_flat_map in Hin as [[t0 b0] [H0 Hin]].
  simpl in Hin. destruct (filter (keeps docToRemove) b0); [contradiction|].
  destruct Hin as [[= E _]|[]]. subst t0.
  change t with (fst (t, b0)). now apply in_map.
Qed.

Lemma In_deindexed docToRemove index term docsSet :
  In (term, docsSet) (deindexed docToRemove index) ->
  exists before,
    In (term, before) index /\ docsSet = filter (keeps docToRemove) before.
Proof.
  unfold deindexed. intros H. apply in_flat_map in H as [[t b] [Hin H]].
  simpl in H. destruct (filter (keeps docToRemove) b) as [|x l] eqn:E;
    [contradiction|].
  destruct H as [[= <- <-]|[]]. exists b. now rewrite E.
Qed.

Lemma removeDoc_store sch e docToRemove :
  inv sch e ->
  removeDoc e docToRemove
  = withIndex (withDocs e (filter (keeps docToRemove) (docs e)))
              (deindexed docToRemove (index e)).
Proof.
  intros Hinv. unfold removeDoc. simpl.
  now rewrite (removeDocFromIndex_spec _ (inv_index Hinv)).
Qed.

Lemma removeDoc_indexed sch U e docToRemove :
  indexed sch U e -> indexed sch U (removeDoc e docToRemove).
Proof.
  intros [Hinv [Hk Hs] Hknown Hc].
  pose proof (removeDoc_inv docToRemove Hinv) as Hinv'.
  rewrite (removeDoc_store _ Hinv) in *.
  constructor; [assumption| | |].
  - constructor; simpl.
    + now apply keys_deindexed.
    + intros term docsSet d Hin Hd.
      apply In_deindexed in Hin as [b [Hb ->]].
      apply filter_In in Hd as [Hd Hkeep].
      destruct (Hs _ _ _ Hb Hd) as [H1 H2]. split; [|assumption].
      apply filter_In. auto.
  - simpl. intros x Hx. apply filter_In in Hx as [Hx _]. auto.
  - intros d term Hd Ht. simpl in *.
    apply filter_In in Hd as [Hd Hkeep].
    destruct (Hc d term Hd Ht) as [b [Hb Hdb]].
    exists (filter (keeps docToRemove) b).
    assert (Hin : In d (filter (keeps docToRemove) b))
      by (apply filter_In; auto).
    split; [|assumption].
    apply get_deindexed; auto.
    intros E. rewrite E in Hin. contradiction.
Qed.

(** *** Every call keeps the invariant *)

Lemma same_store_indexed sch U e e' :
  same_store e e' -> indexed sch U e -> indexed sch U e'.
Proof.
  intros Hsame [Hinv [Hk Hs] Hknown Hc].
  pose proof Hsame as [Hsch Hi Hd Hn].
  constructor.
  - eapply same_store_inv; eassumption.
  - constructor; rewrite Hi; [assumption|].
    intros term docsSet d Hin Hdoc. rewrite Hd. eauto.
  - now rewrite Hd.
  - intros d term Hdoc Ht. rewrite Hi. rewrite Hd in Hdoc. eauto.
Qed.

Lemma processBatch_indexed sch U batch : forall e,
  identified U -> incl batch U ->
  indexed sch U e -> indexed sch U (fst (processBatch e batch)).
Proof.
  induction batch as [|doc batch IH]; intros e HU Hb Hx; simpl; auto.
  destruct (validateDoc (schema e) doc) eqn:Ev; [|assumption].
  assert (Hv : valid sch doc).
  { unfold valid. now rewrite <- (inv_schema (indexed_inv Hx)). }
  pose proof (@addValid_indexed sch U e doc HU
                (Hb doc (or_introl Logic.eq_refl)) Hv Hx) as Hx'.
  destruct (addValid_inv (indexed_inv Hx) Hv) as [_ Hok].
  destruct (addValid e doc) as [e' st]. simpl in *. subst st.
  apply IH; auto. intros x Hin. apply Hb. now right.
Qed.

Lemma processRemovalBatch_indexed sch U batch : forall e,
  indexed sch U e -> indexed sch U (processRemovalBatch e batch).
Proof.
  unfold processRemovalBatch.
  induction batch as [|d batch IH]; intros e Hx; simpl; auto.
  apply IH. now apply removeDoc_indexed.
Qed.

Lemma removeBatches_fold docsArray fuel : forall e i,
  length docsArray - i <= fuel ->
  removeBatches fuel e docsArray i = fold_left removeDoc (skipn i docsArray) e.
Proof.
  pose proof BATCH_SIZE_pos as Hpos.
  induction fuel as [|fuel IH]; intros e i Hf; cbn [removeBatches].
  - rewrite skipn_all2 by lia. reflexivity.
  - destruct (Nat.ltb_spec i (length docsArray)) as [Hi|Hi].
    + rewrite <- (firstn_skipn BATCH_SIZE (skipn i docsArray)) at 2.
      rewrite fold_left_app. rewrite IH by lia. rewrite skipn_skipn.
      now rewrite (Nat.add_comm BATCH_SIZE i).
    + rewrite skipn_all2 by lia. reflexivity.
Qed.

Lemma removeDocs_fold e docsArray :
  removeDocs e docsArray = fold_left removeDoc docsArray e.
Proof.
  unfold removeDocs. rewrite removeBatches_fold by lia. reflexivity.
Qed.

Lemma after_indexed sch U e call :
  identified U -> incl (addedDocs call) U ->
  indexed sch U e -> indexed sch U (after Number e call).
Proof.
  intros HU Hc Hx. destruct call; simpl in *.
  - rewrite <- (app_nil_r [doc]) in Hc.
    change (fst (addDoc e doc)) with (fst (addDoc e doc)).
    pose proof (@processBatch_indexed sch U [doc] e HU) as H.
    simpl in H. unfold addDoc.
    destruct (validateDoc (schema e) doc); [|assumption].
    destruct (addValid e doc) as [e' [u|err]]; apply H; auto;
      intros x [<-|[]]; apply Hc; now left.
  - rewrite addDocs_processBatch. now apply processBatch_indexed.
  - now apply removeDoc_indexed.
  - rewrite removeDocs_fold. now apply processRemovalBatch_indexed.
  - eapply same_store_indexed; [apply search_same | assumption].
Qed.

Lemma newVultos_indexed sch U : indexed sch U (newVultos sch).
Proof.
  constructor.
  - apply newVultos_inv.
  - constructor; simpl; [constructor | intros ? ? ? []].
  - intros x [].
  - intros d term [].
Qed.

Lemma afterAll_indexed sch U calls : forall e,
  identified U -> incl (flat_map addedDocs calls) U ->
  indexed sch U e -> indexed sch U (afterAll Number e calls).
Proof.
  unfold afterAll.
  induction calls as [|c calls IH]; intros e HU Hc Hx; simpl; auto.
  simpl in Hc. apply IH; auto.
  - intros x Hin. apply Hc, in_or_app. now right.
  - apply after_indexed; auto. intros x Hin. apply Hc, in_or_app. now left.
Qed.

Lemma reachable_indexed sch calls :
  identified (flat_map addedDocs calls) ->
  indexed sch (flat_map addedDocs calls)
          (afterAll Number (newVultos sch) calls).
Proof.
  intros HU. apply afterAll_indexed; auto.
  - intros x Hx. exact Hx.
  - apply newVultos_indexed.
Qed.

(** The part of the invariant that needs no identities. *)
Lemma reachable_filed sch calls :
  filed sch (afterAll Number (newVultos sch) calls).
Proof.
  assert (G : forall calls e, inv sch e -> filed sch e ->
                inv sch (afterAll Number e calls)
                /\ filed sch (afterAll Number e calls)).
  { clear calls. unfold afterAll.
    induction calls as [|c calls IH]; intros e Hinv Hf; simpl; auto.
    assert (Hb : forall batch e, inv sch e -> filed sch e ->
                   filed sch (fst (processBatch e batch))).
    { clear. induction batch as [|doc batch IHb]; intros e Hinv Hf; simpl;
        auto.
      destruct (validateDoc (schema e) doc) eqn:Ev; [|assumption].
      assert (Hv : valid sch doc)
        by (unfold valid; now rewrite <- (inv_schema Hinv)).
      pose proof (addValid_filed Hinv Hv Hf) as Hf'.
      destruct (addValid_inv Hinv Hv) as [Hinv' Hok].
      destruct (addValid e doc) as [e' st]. simpl in *. subst st.
      now apply IHb. }
    assert (Hr : forall d e, inv sch e -> filed sch e ->
                   filed sch (removeDoc e d)).
    { clear. intros d e Hinv [Hk Hs]. rewrite (removeDoc_store _ Hinv).
      constructor; simpl.
      - now apply keys_deindexed.
      - intros term docsSet x Hin Hd.
        apply In_deindexed in Hin as [b [Hb ->]].
        apply filter_In in Hd as [Hd Hkeep].
        destruct (Hs _ _ _ Hb Hd) as [H1 H2]. split; [|assumption].
        apply filter_In. auto. }
    apply IH; [now apply after_inv|].
    destruct c; simpl.
    - specialize (Hb [doc] e Hinv Hf). simpl in Hb. unfold addDoc.
      destruct (validateDoc (schema e) doc); [|assumption].
      now destruct (addValid e doc) as [e' [u|err]].
    - rewrite addDocs_processBatch. now apply Hb.
    - now apply Hr.
    - rewrite removeDocs_fold. revert e Hinv Hf.
      induction docsArray as [|d l IHl]; intros e Hinv Hf; simpl; auto.
      apply IHl; [now apply removeDoc_inv | now apply Hr].
    - pose proof (search_same Number e query parameters) as [Hsch Hi Hd Hn].
      destruct Hf as [Hk Hs]. constructor; rewrite Hi; [assumption|].
      intros term docsSet d Hin Hdoc. rewrite Hd. eauto. }
  apply G; [apply newVultos_inv|].
  constructor; simpl; [constructor | intros ? ? ? []].
Qed.

(** *** Adding a document and removing it again *)

(** [index'] is [index] with the document appended to some buckets and
    with new buckets that hold the document alone. *)
Inductive grown (d : Doc)
  : JsMap.t string (list Doc) -> JsMap.t string (list Doc) -> Prop :=
| grown_new news :
    Forall (fun entry => snd entry = [d]) news -> grown d [] news
| grown_same t b index index' :
    grown d index index' -> grown d ((t, b) :: index) ((t, b) :: index')
| grown_added t b index index' :
    grown d index index' ->
    grown d ((t, b) :: index) ((t, b ++ [d]) :: index').

Lemma grown_refl d index : grown d index index.
Proof.
  induction index as [|[t b] index IH]; constructor; auto.
Qed.







Lemma keeps_self d : keeps d d = false.
Proof. unfold keeps. now rewrite equals_refl. Qed.

Lemma deindexed_grown d index index' :
  grown d index index' ->
  (forall t b, In (t, b) index ->
               b <> [] /\ forall x, In x b -> equals x d = false) ->
  deindexed d index' = index.
Proof.
  unfold deindexed.
  induction 1 as [news Hn|t0 b i i' _ IH|t0 b i i' _ IH]; intros Hb.
  - induction Hn as [|[t b] news Hd _ IHn]; simpl; auto.
    simpl in Hd. subst b. simpl. now rewrite keeps_self.
  - simpl. destruct (Hb t0 b (or_introl Logic.eq_refl)) as [Hne Hx].
    rewrite filter_all
      by (intros x Hin; unfold keeps; now rewrite (Hx x Hin)).
    rewrite IH by (intros t b' Hin; apply (Hb t b'); now right).
    destruct b; [congruence | reflexivity].
  - simpl. destruct (Hb t0 b (or_introl Logic.eq_refl)) as [Hne Hx].
    rewrite filter_app. simpl. rewrite keeps_self, app_nil_r.
    rewrite filter_all
      by (intros x Hin; unfold keeps; now rewrite (Hx x Hin)).
    rewrite IH by (intros t b' Hin; apply (Hb t b'); now right).
    destruct b; [congruence | reflexivity].
Qed.

(** With no stored document equal to it, removing a document changes
    nothing. *)
Lemma removeDoc_absent sch e d :
  inv sch e -> filed sch e ->
  (forall x, In x (docs e) -> equals x d = false) ->
  removeDoc e d = e.
Proof.
  intros Hinv Hf Habs. rewrite (removeDoc_store _ Hinv).
  rewrite filter_all
    by (intros x Hin; unfold keeps; now rewrite (Habs x Hin)).
  rewrite (@deindexed_grown d (index e) (index e) (grown_refl d (index e))).
  - now destruct e.
  - intros t b Hin. split.
    + now destruct (inv_index Hinv Hin).
    + intros x Hx. apply Habs. now destruct (filed_sound Hf Hin Hx).
Qed.


(** *** One document at a time *)

(** [addDoc] on each document in turn, up to the first that throws. *)
Fixpoint addEach (e : Engine) (docsArray : list Doc) : Engine * outcome unit :=
  match docsArray with
  | [] => (e, Ok tt)
  | doc :: rest =>
      match addDoc e doc with
      | (e', Ok _) => addEach e' rest
      | (e', Throw err) => (e', Throw err)
      end
  end.

Lemma processBatch_addEach batch : forall e,
  processBatch e batch = addEach e batch.
Proof.
  induction batch as [|doc batch IH]; intros e; simpl; auto.
  unfold addDoc. destruct (validateDoc (schema e) doc); [|reflexivity].
  destruct (addValid e doc) as [e' [u|err]]; auto.
Qed.

End WithImports.
End IndexFacts.

(** ** Properties of the document store of the indexed engine *)

Section IndexProperties.
Import Str Vultos VultosFacts IndexFacts Books Library.
Context {T : TextUtils} {S : Scorer}.
Variable Number : string -> option Qc.

(** The index is the inverted index of the stored documents.  After any
    history of calls, a stored document is in the bucket of each stemmed
    token of each of its string fields, and a bucket holds only stored
    documents that have its term.  Number and boolean fields are not
    indexed.  The documents handed to the engine are told apart by their
    identity. *)
Theorem index_is_the_inverted_index
        (sch : Schema) (calls : list Call) :
  identified (flat_map addedDocs calls) ->
  let e := afterAll Number (newVultos sch) calls in
  (forall doc term,
      In doc (docs e) -> In term (termsOf sch doc) ->
      exists docsSet,
        JsMap.get string_dec term (index e) = Some docsSet /\ In doc docsSet)
  /\ (forall term docsSet doc,
         JsMap.get string_dec term (index e) = Some docsSet ->
         In doc docsSet ->
         In doc (docs e) /\ In term (termsOf sch doc)).
Proof.
  intros HU e. destruct (reachable_indexed Number sch HU) as [_ Hf _ Hc].
  fold e in Hf, Hc. split; [exact Hc|].
  intros term docsSet doc Hg Hin.
  apply (@JsMap.get_In _ _ string_dec) in Hg.
  exact (filed_sound Hf Hg Hin).
Qed.


(** [removeDoc] removes every stored document that has the keys and
    values of its argument, and nothing else.  Where no stored document
    has them the call changes nothing, so a second removal of the same
    document has no effect. *)
Theorem removeDoc_is_idempotent
        (sch : Schema) (calls : list Call) (docToRemove : Doc) :
  let e := afterAll Number (newVultos sch) calls in
  (forall stored, In stored (docs (removeDoc e docToRemove)) <->
                  In stored (docs e) /\ equals stored docToRemove = false)
  /\ ((forall stored, In stored (docs e) ->
                       equals stored docToRemove = false) ->
       removeDoc e docToRemove = e)
  /\ removeDoc (removeDoc e docToRemove) docToRemove
      = removeDoc e docToRemove.
Proof.
  intros e.
  pose proof (reachable_inv Number sch calls) as Hinv.
  pose proof (reachable_filed Number sch calls) as Hf.
  fold e in Hinv, Hf.
  assert (Hdocs : forall stored,
             In stored (docs (removeDoc e docToRemove)) <->
             In stored (docs e) /\ equals stored docToRemove = false).
  { intros x. unfold removeDoc, removeDocFromDocsArray. simpl.
    rewrite filter_In, negb_true_iff. reflexivity. }
  split; [exact Hdocs|]. split.
  - now apply removeDoc_absent with (sch := sch).
  - pose proof (reachable_inv Number sch (calls ++ [CallRemoveDoc docToRemove]))
      as Hinv'.
    pose proof (reachable_filed Number sch
                  (calls ++ [CallRemoveDoc docToRemove])) as Hf'.
    unfold afterAll in Hinv', Hf'. rewrite fold_left_app in Hinv', Hf'.
    simpl in Hinv', Hf'.
    apply removeDoc_absent with (sch := sch); auto.
    intros x Hx. now apply Hdocs in Hx.
Qed.

(** The chunks of 100 documents do not show.  [addDocs] is [addDoc] on
    each document in turn up to the first that throws, and [removeDocs] is
    [removeDoc] on each document in turn; splitting an array in two calls
    gives the engine of the single call. *)
Theorem batches_do_not_show (e : Engine) (docsArray more : list Doc) :
  addDocs e docsArray = addEach e docsArray
  /\ removeDocs e docsArray = fold_left removeDoc docsArray e
  /\ addDocs e (docsArray ++ more)
      = match addDocs e docsArray with
        | (e', Ok _) => addDocs e' more
        | (e', Throw err) => (e', Throw err)
        end
  /\ removeDocs e (docsArray ++ more)
      = removeDocs (removeDocs e docsArray) more.
Proof.
  split; [|split; [|split]].
  - rewrite addDocs_processBatch. apply processBatch_addEach.
  - apply removeDocs_fold.
  - rewrite !addDocs_processBatch, processBatch_app.
    destruct (processBatch e docsArray) as [e' [u|err]]; [|reflexivity].
    now rewrite addDocs_processBatch.
  - rewrite !removeDocs_fold. apply fold_left_app.
Qed.

End IndexProperties.

Section IndexExamples.
Import Str Vultos VultosFacts IndexFacts Books Library.
Local Open Scope string_scope.

Lemma twoBooks_identified :
  identified (flat_map addedDocs [CallAddDocs [gatsby; expectations]]).
Proof.
  intros d1 d2 [<-|[<-|[]]] [<-|[<-|[]]]; simpl; congruence.
Qed.

Lemma index_is_the_inverted_index_witness :
  identified (flat_map addedDocs [CallAddDocs [gatsby; expectations]])
  /\ exists docsSet,
       JsMap.get string_dec "gatsbi" (index twoBooks) = Some docsSet
       /\ In gatsby docsSet.
Proof.
  split; [exact twoBooks_identified|].
  apply (proj1 (@index_is_the_inverted_index flatTextUtils flatScorer
                  Vultus.decimalNumber bookSchema
                  [CallAddDocs [gatsby; expectations]] twoBooks_identified)).
  - now left.
  - vm_compute. auto.
Defined.


End IndexExamples.

(** ** Equality of documents ([#equals]) *)

Module EqualsFacts.
Import Str Vultos JsMapFacts IndexFacts.

Lemma strictEq_eq x y : strictEq x y = true <-> x = y.
Proof.
  destruct x as [v|], y as [v'|]; simpl; try (split; congruence).
  destruct (Value_eq_dec v v'); split; congruence.
Qed.

Lemma equals_spec d1 d2 :
  equals d1 d2 = true
  <-> sortedKeys d1 = sortedKeys d2
      /\ forall key, In key (sortedKeys d1) -> prop d1 key = prop d2 key.
Proof.
  unfold equals.
  destruct (list_eq_dec string_dec (sortedKeys d1) (sortedKeys d2)) as [E|N].
  - rewrite forallb_forall. split.
    + intros H. split; [assumption|]. intros key Hk.
      now apply strictEq_eq, H.
    + intros [_ H] key Hk. now apply strictEq_eq, H.
  - split; [discriminate | tauto].
Qed.

Lemma equals_sym d1 d2 : equals d1 d2 = true -> equals d2 d1 = true.
Proof.
  rewrite !equals_spec. intros [E H]. split; [congruence|].
  intros key Hk. symmetry. apply H. now rewrite E.
Qed.

Lemma equals_trans d1 d2 d3 :
  equals d1 d2 = true -> equals d2 d3 = true -> equals d1 d3 = true.
Proof.
  rewrite !equals_spec. intros [E1 H1] [E2 H2]. split; [congruence|].
  intros key Hk. rewrite (H1 key Hk). apply H2. now rewrite <- E1.
Qed.

Lemma equals_congr d1 d2 :
  equals d1 d2 = true -> forall doc, equals doc d1 = equals doc d2.
Proof.
  intros E doc. apply eq_true_iff_eq. split; intros H.
  - now apply equals_trans with (d2 := d1).
  - apply equals_trans with (d2 := d2); [assumption | now apply equals_sym].
Qed.

(** *** The sorted keys *)












(** *** Removal reads the document to remove through [#equals] only *)

Lemma removeFromSet_congr d1 d2 docsSet :
  (forall doc, equals doc d1 = equals doc d2) ->
  removeFromSet d1 docsSet = removeFromSet d2 docsSet.
Proof.
  intros H. unfold removeFromSet. generalize (docsSet, false) at 1 2.
  induction docsSet as [|doc l IH]; intros [set emptied]; simpl;
    [reflexivity|].
  rewrite H. apply IH.
Qed.

End EqualsFacts.

Section EqualsProperties.
Import Str Vultos VultosFacts JsMapFacts IndexFacts EqualsFacts.


(** Removal is by content, not by identity: [removeDoc] called with a
    document or with any document equal to it leaves the same engine. *)
Theorem removeDoc_removes_by_content (e : Engine) (doc1 doc2 : Doc) :
  equals doc1 doc2 = true -> removeDoc e doc1 = removeDoc e doc2.
Proof.
  intros E. pose proof (equals_congr E) as H.
  unfold removeDoc, removeDocFromDocsArray, removeDocFromIndex.
  f_equal.
  - f_equal. apply filter_ext. intros doc. now rewrite H.
  - apply flat_map_ext. intros [term docsSet].
    now rewrite (removeFromSet_congr docsSet H).
Qed.

End EqualsProperties.

Section EqualsExamples.
Import Str Vultos VultosFacts JsMapFacts IndexFacts EqualsFacts Books Library.
Local Open Scope string_scope.

(** Another object with the properties of [gatsby], written in the
    opposite order. *)
Definition gatsbyCopy : Doc :=
  {| ref := 9;
     props := [("year", VNumber (num 1925));
               ("title", VString "The Great Gatsby")] |}.


Lemma removeDoc_removes_by_content_witness :
  removeDoc twoBooks gatsby = removeDoc twoBooks gatsbyCopy.
Proof.
  exact (@removeDoc_removes_by_content twoBooks gatsby gatsbyCopy
           Logic.eq_refl).
Defined.

End EqualsExamples.

(** ** What a search returns *)

Module RankFacts.
Import Str Vultos VultosFacts WhereFacts ParameterFacts SearchFacts.
Import JsMapFacts IndexFacts.

(** [JSON.stringify(hit.document)] *)
Definition contents (h : Hit) : list (string * Value) := props (document h).

(** The order of a ranked list: no hit scores above one before it. *)
Definition byScore (h1 h2 : Hit) : Prop := (score h2 <= score h1)%Qc.

Lemma Qcltb_false x y : Qcltb x y = false -> (y <= x)%Qc.
Proof.
  intros H. apply Qcleb_le. rewrite <- Qcltb_antisym. now rewrite H.
Qed.

Lemma Qcle_total x y : (x <= y)%Qc \/ (y <= x)%Qc.
Proof.
  destruct (Qclt_le_dec x y) as [H|H]; [left; now apply Qclt_le_weak | now right].
Qed.

(** *** Sorting *)

Lemma In_insertHit h x l : In h (insertHit x l) <-> h = x \/ In h l.
Proof.
  split; [apply insertHit_In|].
  induction l as [|y l IH]; simpl.
  - intros [->|[]]. now left.
  - destruct (Qcltb (score x) (score y)); simpl; intuition.
Qed.

Lemma In_sortHits h l : In h (sortHits l) <-> In h l.
Proof.
  unfold sortHits. induction l as [|x l IH]; simpl; [tauto|].
  rewrite In_insertHit, IH. intuition.
Qed.

Lemma insertHit_sorted x l :
  StronglySorted byScore l -> StronglySorted byScore (insertHit x l).
Proof.
  induction 1 as [|y l Hs IH Hy]; simpl.
  - repeat constructor.
  - destruct (Qcltb (score x) (score y)) eqn:E.
    + constructor; [assumption|].
      apply Forall_forall. intros h Hh. apply In_insertHit in Hh as [->|Hh].
      * apply Qcltb_lt in E. now apply Qclt_le_weak.
      * rewrite Forall_forall in Hy. auto.
    + apply Qcltb_false in E. constructor; [now constructor|].
      constructor; [exact E|].
      rewrite Forall_forall in *. intros h Hh. unfold byScore in *.
      eapply Qcle_trans; [apply Hy, Hh | exact E].
Qed.

Lemma sortHits_sorted l : StronglySorted byScore (sortHits l).
Proof.
  unfold sortHits. induction l as [|x l IH]; simpl; [constructor|].
  now apply insertHit_sorted.
Qed.

Lemma filter_sorted (X : Type) (R : X -> X -> Prop) (p : X -> bool) l :
  StronglySorted R l -> StronglySorted R (filter p l).
Proof.
  induction 1 as [|x l Hs IH Hx]; simpl; [constructor|].
  destruct (p x); [|assumption]. constructor; [assumption|].
  rewrite Forall_forall in *. intros y Hy. apply filter_In in Hy as [Hy _].
  auto.
Qed.

(** *** Dropping the documents seen *)

Definition seenIn (docStr : list (string * Value))
           (uniqueDocs : list (list (string * Value))) : bool :=
  existsb (fun s => if Props_eq_dec s docStr then true else false) uniqueDocs.

Lemma seenIn_In docStr uniqueDocs :
  seenIn docStr uniqueDocs = true <-> In docStr uniqueDocs.
Proof.
  unfold seenIn. rewrite existsb_exists. split.
  - intros [s [Hs E]]. destruct (Props_eq_dec s docStr); congruence.
  - intros H. exists docStr. split; [assumption|].
    destruct (Props_eq_dec docStr docStr); congruence.
Qed.

(** The loop of [uniqueHits] from the documents seen so far. *)
Fixpoint unseen (uniqueDocs : list (list (string * Value))) (l : list Hit)
  : list Hit :=
  match l with
  | [] => []
  | item :: l' =>
      if seenIn (contents item) uniqueDocs then unseen uniqueDocs l'
      else item :: unseen (uniqueDocs ++ [contents item]) l'
  end.

Lemma uniqueHits_unseen l : uniqueHits l = unseen [] l.
Proof.
  unfold uniqueHits.
  assert (G : forall uniqueDocs hits,
             snd (fold_left
                    (fun (acc : list (list (string * Value)) * list Hit)
                         item =>
                       let '(uniqueDocs, hits) := acc in
                       let docStr := props (document item) in
                       if existsb (fun s => if Props_eq_dec s docStr
                                            then true else false)
                                  uniqueDocs
                       then (uniqueDocs, hits)
                       else (uniqueDocs ++ [docStr], hits ++ [item]))
                    l (uniqueDocs, hits))
             = hits ++ unseen uniqueDocs l).
  { induction l as [|x l IH]; intros u hs; simpl.
    - now rewrite app_nil_r.
    - unfold seenIn, contents.
      destruct (existsb _ u); rewrite IH; [reflexivity|].
      now rewrite <- app_assoc. }
  apply (G [] []).
Qed.

Lemma unseen_In h l : forall uniqueDocs,
  In h (unseen uniqueDocs l) -> In h l /\ ~ In (contents h) uniqueDocs.
Proof.
  induction l as [|x l IH]; intros u; simpl; [tauto|].
  destruct (seenIn (contents x) u) eqn:E.
  - intros H. apply IH in H as [H1 H2]. auto.
  - intros [<-|H].
    + split; [now left|]. intros Hin. apply seenIn_In in Hin. congruence.
    + apply IH in H as [H1 H2]. split; [now right|].
      intros Hin. apply H2, in_or_app. now left.
Qed.

Lemma unseen_sorted (R : Hit -> Hit -> Prop) l : forall uniqueDocs,
  StronglySorted R l -> StronglySorted R (unseen uniqueDocs l).
Proof.
  induction l as [|x l IH]; intros u H; simpl; [constructor|].
  inversion H as [|? ? Hs Hx]; subst.
  destruct (seenIn (contents x) u); [now apply IH|].
  constructor; [now apply IH|].
  rewrite Forall_forall in *. intros y Hy. apply unseen_In in Hy as [Hy _].
  auto.
Qed.

Lemma unseen_NoDup l : forall uniqueDocs,
  NoDup (map contents (unseen uniqueDocs l)).
Proof.
  induction l as [|x l IH]; intros u; simpl; [constructor|].
  destruct (seenIn (contents x) u); [apply IH|].
  simpl. constructor; [|apply IH].
  intros Hin. apply in_map_iff in Hin as [h [E Hh]].
  apply unseen_In in Hh as [_ Hh]. apply Hh. rewrite E.
  apply in_or_app. right. now left.
Qed.

(** A hit is dropped only behind a hit with the same contents. *)
Lemma unseen_complete h l : forall uniqueDocs,
  In h l ->
  In (contents h) uniqueDocs
  \/ exists h', In h' (unseen uniqueDocs l) /\ contents h' = contents h.
Proof.
  induction l as [|x l IH]; intros u; simpl; [tauto|].
  intros [->|Hin].
  - destruct (seenIn (contents h) u) eqn:E.
    + left. now apply seenIn_In.
    + right. exists h. split; [now left | reflexivity].
  - destruct (seenIn (contents x) u) eqn:E.
    + destruct (IH u Hin) as [H|[h' [H1 H2]]]; eauto.
    + destruct (IH (u ++ [contents x]) Hin) as [H|[h' [H1 H2]]].
      * apply in_app_or in H as [H|[H|[]]]; auto.
        right. exists x. split; [now left | assumption].
      * right. exists h'. split; [now right | assumption].
Qed.

(** *** The candidates *)

Section WithImports.
Context {T : TextUtils} {S : Scorer}.
Variable Number : string -> option Qc.

(** A term within the matching distance of a query word. *)
Definition near (queryWords : list string) (term : string) : Prop :=
  exists queryWord,
    In queryWord queryWords
    /\ levenshteinDistance queryWord term < LEVENSHTEIN_DISTANCE.

Definition addAll (docsSet relevantDocs : list Doc) : list Doc :=
  fold_left (fun s doc => setAdd doc s) docsSet relevantDocs.

Lemma addAll_In docsSet : forall relevantDocs d,
  In d (addAll docsSet relevantDocs) -> In d relevantDocs \/ In d docsSet.
Proof.
  unfold addAll.
  induction docsSet as [|x l IH]; intros r d; simpl; auto.
  intros H. apply IH in H as [H|H]; auto.
  apply setAdd_inv in H as [->|H]; auto.
Qed.

Lemma addAll_incl docsSet : forall relevantDocs d,
  In d relevantDocs -> In d (addAll docsSet relevantDocs).
Proof.
  unfold addAll.
  induction docsSet as [|x l IH]; intros r d H; simpl; auto.
  apply IH. now apply setAdd_incl.
Qed.

Lemma addAll_has docsSet : forall relevantDocs d,
  In d docsSet -> setHas d (addAll docsSet relevantDocs) = true.
Proof.
  unfold addAll.
  induction docsSet as [|x l IH]; intros r d; simpl; [tauto|].
  intros [->|H]; [|auto].
  assert (G : forall l r, setHas d r = true ->
                          setHas d (fold_left (fun s doc => setAdd doc s) l r)
                          = true).
  { clear. induction l as [|y l IH]; intros r H; simpl; auto.
    apply IH. unfold setAdd. destruct (setHas y r); auto.
    unfold setHas in *. rewrite existsb_app, H. reflexivity. }
  apply G, setHas_setAdd.
Qed.

(** The loop of [candidates] over the index, for one query word. *)
Definition gather (queryWord : string) (index : JsMap.t string (list Doc))
           (relevantDocs : list Doc) : list Doc :=
  fold_left
    (fun relevantDocs entry =>
       let '(indexedWord, docsSet) := entry in
       let distance := levenshteinDistance queryWord indexedWord in
       if distance <? LEVENSHTEIN_DISTANCE
       then fold_left (fun s doc => setAdd doc s) docsSet relevantDocs
       else relevantDocs)
    index relevantDocs.

Lemma candidates_gather index queryWords :
  candidates index queryWords
  = fold_left (fun relevantDocs queryWord =>
                 gather queryWord index relevantDocs)
              queryWords [].
Proof. reflexivity. Qed.

Lemma gather_In queryWord index : forall relevantDocs d,
  In d (gather queryWord index relevantDocs) ->
  In d relevantDocs
  \/ exists term docsSet,
       In (term, docsSet) index
       /\ levenshteinDistance queryWord term < LEVENSHTEIN_DISTANCE
       /\ In d docsSet.
Proof.
  unfold gather.
  induction index as [|[t b] index IH]; intros r d; simpl; auto.
  intros H. apply IH in H as [H|[term [docsSet [H1 [H2 H3]]]]].
  - destruct (Nat.ltb_spec (levenshteinDistance queryWord t)
                           LEVENSHTEIN_DISTANCE) as [Hlt|Hge]; auto.
    apply addAll_In in H as [H|H]; auto.
    right. exists t, b. auto.
  - right. exists term, docsSet. auto.
Qed.

Lemma gather_incl queryWord index : forall relevantDocs d,
  setHas d relevantDocs = true ->
  setHas d (gather queryWord index relevantDocs) = true.
Proof.
  unfold gather.
  induction index as [|[t b] index IH]; intros r d H; simpl; auto.
  apply IH. destruct (_ <? _); [|assumption].
  clear IH. revert r H. induction b as [|y b IHb]; intros r H; simpl; auto.
  apply IHb. unfold setAdd. destruct (setHas y r); auto.
  unfold setHas in *. rewrite existsb_app, H. reflexivity.
Qed.

Lemma gather_has queryWord index term docsSet d : forall relevantDocs,
  In (term, docsSet) index ->
  levenshteinDistance queryWord term < LEVENSHTEIN_DISTANCE ->
  In d docsSet ->
  setHas d (gather queryWord index relevantDocs) = true.
Proof.
  induction index as [|[t b] index IH]; intros r Hin Hlt Hd; [contradiction|].
  destruct Hin as [[= -> ->]|Hin].
  - unfold gather. simpl. apply Nat.ltb_lt in Hlt. rewrite Hlt.
    apply (@gather_incl queryWord index). now apply addAll_has.
  - unfold gather. simpl. now apply IH.
Qed.

Lemma candidates_In index queryWords d :
  In d (candidates index queryWords) ->
  exists term docsSet,
    In (term, docsSet) index /\ near queryWords term /\ In d docsSet.
Proof.
  rewrite candidates_gather.
  assert (G : forall qws r,
             In d (fold_left (fun relevantDocs queryWord =>
                                gather queryWord index relevantDocs) qws r) ->
             In d r
             \/ exists term docsSet,
                  In (term, docsSet) index
                  /\ (exists qw, In qw qws
                                 /\ levenshteinDistance qw term
                                    < LEVENSHTEIN_DISTANCE)
                  /\ In d docsSet).
  { induction qws as [|q qws IH]; intros r; simpl; auto.
    intros H. apply IH in H as [H|[term [b [H1 [[qw [H2 H3]] H4]]]]].
    - apply gather_In in H as [H|[term [b [H1 [H2 H3]]]]]; auto.
      right. exists term, b. split; [assumption|]. split; [|assumption].
      exists q. auto.
    - right. exists term, b. split; [assumption|]. split; [|assumption].
      exists qw. auto. }
  intros H. apply G in H as [[]|H]. exact H.
Qed.

Lemma candidates_has index queryWords term docsSet d :
  In (term, docsSet) index -> near queryWords term -> In d docsSet ->
  setHas d (candidates index queryWords) = true.
Proof.
  intros Hin [qw [Hq Hlt]] Hd. rewrite candidates_gather.
  generalize (@nil Doc).
  induction queryWords as [|q qws IH]; intros r; [contradiction|].
  simpl. destruct Hq as [->|Hq].
  - assert (G : forall qws r,
               setHas d r = true ->
               setHas d (fold_left (fun relevantDocs queryWord =>
                                      gather queryWord index relevantDocs)
                                   qws r) = true).
    { clear. induction qws as [|q qws IH]; intros r H; simpl; auto.
      apply IH. now apply gather_incl. }
    apply G. eapply gather_has; eassumption.
  - now apply IH.
Qed.

(** *** The where clause filters *)

Lemma whereKey_incl sch docs key condition fd :
  whereKey sch docs key condition = Ok fd -> incl fd docs.
Proof.
  unfold whereKey.
  destruct (schemaType sch key) as [ty|]; [|discriminate].
  destruct (match condition with
            | CObject c => hd_error (otherConditions c)
            | CPrimitive _ => None
            end); [discriminate|].
  assert (Hf : forall (p : Doc -> bool), incl (filter p docs) docs).
  { intros p x Hx. now apply filter_In in Hx as [Hx _]. }
  assert (Hr : incl docs docs) by (intros x Hx; exact Hx).
  destruct (String.eqb ty "number").
  { destruct (match condition with CObject c => eq c | _ => None end)
      as [[s|n|b]|]; intros [= <-]; auto. }
  destruct (String.eqb ty "string").
  { set (docs1 := match match condition with CObject c => eq c | _ => None end
                  with
                  | Some (VString s) => filter _ docs
                  | _ => docs
                  end).
    assert (H1 : incl docs1 docs).
    { unfold docs1.
      destruct (match condition with CObject c => eq c | _ => None end)
        as [[s|n|b]|]; auto. }
    destruct (match condition with CObject c => inc c | _ => None end)
      as [[sub|n|b]|]; try (intros [= <-]; exact H1).
    destruct (forallb _ docs1); [|discriminate].
    intros [= <-]. intros x Hx. apply filter_In in Hx as [Hx _]. auto. }
  destruct (_ && _); [discriminate|]. intros [= <-]. exact Hr.
Qed.

Lemma applyWhereClause_incl sch docs whereClause fd :
  applyWhereClause Number sch docs whereClause = Ok fd -> incl fd docs.
Proof.
  unfold applyWhereClause.
  assert (G : forall w docs0 docs1,
             incl docs0 docs ->
             fold_left
               (fun acc (entry : string * Condition) =>
                  match acc with
                  | Ok docs => whereKey sch docs (fst entry) (snd entry)
                  | Throw err => Throw err
                  end)
               w (Ok docs0) = Ok docs1 -> incl docs1 docs).
  { induction w as [|[k c] w IH]; intros d0 d1 H0; simpl.
    - now intros [= <-].
    - destruct (whereKey sch d0 k c) as [d|err] eqn:E.
      + apply IH. apply whereKey_incl in E.
        intros x Hx. auto.
      + intros H. exfalso. clear -H.
        induction w as [|e w IHw]; simpl in H; [discriminate | auto]. }
  destruct (fold_left _ whereClause (Ok docs)) as [d1|err] eqn:E;
    [|discriminate].
  intros [= <-]. intros x Hx. apply filter_In in Hx as [Hx _].
  revert x Hx. eapply G; [|exact E]. intros x Hx. exact Hx.
Qed.

(** *** Ranked lists *)

(** What [rank] builds for a query: no hit scores above one before it,
    every score is positive, no two hits have the same contents, and
    every hit is a document the schema accepts that has a term within the
    matching distance of a word of the query. *)
Record ranked (sch : Schema) (query : string) (l : list Hit) : Prop := {
  ranked_sorted : StronglySorted byScore l;
  ranked_positive : Forall (fun h => (0 < score h)%Qc) l;
  ranked_unique : NoDup (map contents l);
  ranked_near :
    Forall (fun h => valid sch (document h)
                     /\ exists term,
                          In term (termsOf sch (document h))
                          /\ near (queryWordsOf query) term) l
}.

Lemma ranked_filter sch query p l :
  ranked sch query l -> ranked sch query (filter p l).
Proof.
  intros [H1 H2 H3 H4]. constructor.
  - now apply filter_sorted.
  - rewrite Forall_forall in *. intros h Hh.
    apply filter_In in Hh as [Hh _]. auto.
  - now apply NoDup_map_filter.
  - rewrite Forall_forall in *. intros h Hh.
    apply filter_In in Hh as [Hh _]. auto.
Qed.

Lemma ranked_filterHitsByScore sch query l sc hits :
  ranked sch query l -> filterHitsByScore l sc = Ok hits ->
  ranked sch query hits.
Proof.
  intros Hr. unfold filterHitsByScore.
  destruct sc as [conditions|]; [|now intros [= <-]].
  destruct (checkScoreConditions conditions); [|discriminate].
  intros [= <-]. now apply ranked_filter.
Qed.

Lemma rank_In e queryWords filteredDocs h :
  In h (rank e queryWords filteredDocs) ->
  In (document h) filteredDocs /\ (0 < score h)%Qc.
Proof.
  unfold rank. rewrite uniqueHits_unseen. intros H.
  apply unseen_In in H as [H _]. apply In_sortHits, filter_In in H as [H Hp].
  apply in_map_iff in H as [d [<- Hd]]. simpl in *.
  split; [assumption | now apply Qcltb_lt].
Qed.

Lemma rank_ranked sch e query filteredDocs :
  inv sch e -> filed sch e ->
  incl filteredDocs (candidates (index e) (queryWordsOf query)) ->
  ranked sch query (rank e (queryWordsOf query) filteredDocs).
Proof.
  intros Hinv Hf Hincl. constructor.
  - unfold rank. rewrite uniqueHits_unseen.
    apply unseen_sorted, sortHits_sorted.
  - apply Forall_forall. intros h Hh. now apply rank_In in Hh.
  - unfold rank. rewrite uniqueHits_unseen. apply unseen_NoDup.
  - apply Forall_forall. intros h Hh. apply rank_In in Hh as [Hh _].
    apply Hincl, candidates_In in Hh as [term [b [H1 [H2 H3]]]].
    destruct (filed_sound Hf H1 H3) as [Hs Ht].
    split.
    + pose proof (inv_docs Hinv) as Hd. rewrite Forall_forall in Hd. auto.
    + exists term. auto.
Qed.

(** A document that is scored above 0 is in the ranked list, or one with
    the same contents is. *)
Lemma rank_complete e queryWords filteredDocs d :
  In d filteredDocs ->
  (0 < calculateScore d queryWords (fields e) (schema e))%Qc ->
  exists h, In h (rank e queryWords filteredDocs)
            /\ props (document h) = props d.
Proof.
  intros Hd Hpos. unfold rank. rewrite uniqueHits_unseen.
  set (h0 := {| score := calculateScore d queryWords (fields e) (schema e);
                document := d |}).
  assert (Hin : In h0 (sortHits
                         (filter (fun item => Qcltb 0 (score item))
                                 (map (fun doc =>
                                         {| score := calculateScore doc
                                                       queryWords (fields e)
                                                       (schema e);
                                            document := doc |})
                                      filteredDocs)))).
  { apply In_sortHits, filter_In. split.
    - apply in_map_iff. exists d. auto.
    - now apply Qcltb_lt. }
  destruct (unseen_complete [] Hin) as [[]|[h' [H1 H2]]].
  exists h'. auto.
Qed.

(** *** The query cache *)

(** Every list of the cache is a ranked list of its query. *)
Definition cached (sch : Schema) (e : Engine) : Prop :=
  forall key l, In (key, l) (cache e) -> ranked sch (fst key) l.

Lemma filtered_incl e query p fd :
  filtered Number e query p = Ok fd ->
  incl fd (candidates (index e) (queryWordsOf query)).
Proof.
  unfold filtered. destruct (whereParam p) as [w|].
  - apply applyWhereClause_incl.
  - intros [= <-] x Hx. exact Hx.
Qed.

Lemma searchBody_cached sch e query parameters :
  inv sch e -> filed sch e -> cached sch e ->
  cached sch (fst (searchBody Number e query parameters)).
Proof.
  intros Hinv Hf Hc. unfold searchBody.
  destruct (JsMap.get CacheKey_eq_dec (createCacheKey query parameters)
                      (cache e)) as [c|] eqn:E.
  - destruct (readScore parameters) as [sc|];
      [destruct (filterHitsByScore c sc)|]; exact Hc.
  - destruct (match parameters with Some _ => _ | None => _ end)
      as [fd|err] eqn:Ef; [|exact Hc].
    assert (Hincl : incl fd (candidates (index e) (queryWordsOf query))).
    { destruct parameters as [p|].
      - destruct (whereParam p) as [w|].
        + now apply applyWhereClause_incl in Ef.
        + injection Ef as <-. intros x Hx. exact Hx.
      - injection Ef as <-. intros x Hx. exact Hx. }
    assert (Hnew : cached sch
                     (withCache e
                        (JsMap.set CacheKey_eq_dec
                                   (createCacheKey query parameters)
                                   (rank e (queryWordsOf query) fd)
                                   (cache e)))).
    { intros key l Hin. simpl in Hin.
      apply JsMap.set_In in Hin as [Hin|[= -> ->]]; [now apply Hc|].
      simpl. now apply rank_ranked. }
    destruct (readScore parameters) as [sc|];
      [destruct (filterHitsByScore _ sc)|]; exact Hnew.
Qed.

Lemma cached_same sch e e' :
  cache e' = cache e -> cached sch e -> cached sch e'.
Proof. intros E H key l. rewrite E. apply H. Qed.

Lemma filed_same sch e e' : same_store e e' -> filed sch e -> filed sch e'.
Proof.
  intros [Hsch Hi Hd Hn] [Hk Hs]. constructor; rewrite Hi; [assumption|].
  intros term b d Hin Hdoc. rewrite Hd. eauto.
Qed.

Lemma search_cached sch e query parameters :
  inv sch e -> filed sch e -> cached sch e ->
  cached sch (fst (search Number e query parameters)).
Proof.
  intros Hinv Hf Hc. unfold search.
  destruct (handleParameters_same e parameters) as [Hsame Hcache].
  destruct (handleParameters e parameters) as [e1 [u|err]] eqn:Eh;
    simpl in *.
  2:{ now apply cached_same with (e := e). }
  assert (Hinv1 : inv sch e1) by (eapply same_store_inv; eassumption).
  assert (Hf1 : filed sch e1) by (eapply filed_same; eassumption).
  assert (Hc1 : cached sch e1) by (now apply cached_same with (e := e)).
  pose proof (@searchBody_cached sch e1 query parameters Hinv1 Hf1 Hc1) as H.
  destruct (searchBody Number e1 query parameters) as [e2 [r|err]]; exact H.
Qed.

Lemma processBatch_cache batch : forall e,
  cache (fst (processBatch e batch)) = cache e.
Proof.
  induction batch as [|d batch IH]; intros e; simpl; auto.
  destruct (validateDoc (schema e) d); [|reflexivity].
  assert (H : cache (fst (addValid e d)) = cache e).
  { unfold addValid. destruct (addToIndex _ d). reflexivity. }
  destruct (addValid e d) as [e' [u|err]]; simpl in *; [|assumption].
  now rewrite IH.
Qed.

Lemma addDoc_cache e d : cache (fst (addDoc e d)) = cache e.
Proof.
  unfold addDoc. destruct (validateDoc (schema e) d); [|reflexivity].
  unfold addValid. destruct (addToIndex _ d). reflexivity.
Qed.

Lemma removeEach_cache batch : forall e,
  cache (fold_left removeDoc batch e) = cache e.
Proof.
  induction batch as [|d batch IH]; intros e; simpl; auto.
  now rewrite IH.
Qed.

(** No call but [search] touches the query cache. *)
Lemma after_cache e call :
  (forall query parameters, call <> CallSearch query parameters) ->
  cache (after Number e call) = cache e.
Proof.
  intros H. destruct call; simpl.
  - apply addDoc_cache.
  - rewrite addDocs_processBatch. apply processBatch_cache.
  - reflexivity.
  - rewrite removeDocs_fold. apply removeEach_cache.
  - exfalso. eapply H. reflexivity.
Qed.

Lemma after_cached sch e call :
  inv sch e -> filed sch e -> cached sch e ->
  cached sch (after Number e call).
Proof.
  intros Hinv Hf Hc. destruct call.
  - eapply cached_same; [|exact Hc]. now apply after_cache.
  - eapply cached_same; [|exact Hc]. now apply after_cache.
  - eapply cached_same; [|exact Hc]. now apply after_cache.
  - eapply cached_same; [|exact Hc]. now apply after_cache.
  - simpl. now apply search_cached.
Qed.

Lemma after_filed sch e call :
  inv sch e -> filed sch e -> filed sch (after Number e call).
Proof.
  intros Hinv Hf.
  assert (Hb : forall batch e, inv sch e -> filed sch e ->
                 filed sch (fst (processBatch e batch))).
  { clear. induction batch as [|doc batch IHb]; intros e Hinv Hf; simpl;
      auto.
    destruct (validateDoc (schema e) doc) eqn:Ev; [|assumption].
    assert (Hv : valid sch doc)
      by (unfold valid; now rewrite <- (inv_schema Hinv)).
    pose proof (addValid_filed Hinv Hv Hf) as Hf'.
    destruct (addValid_inv Hinv Hv) as [Hinv' Hok].
    destruct (addValid e doc) as [e' st]. simpl in *. subst st.
    now apply IHb. }
  assert (Hr : forall d e, inv sch e -> filed sch e ->
                 filed sch (removeDoc e d)).
  { clear. intros d e Hinv [Hk Hs]. rewrite (removeDoc_store _ Hinv).
    constructor; simpl.
    - now apply keys_deindexed.
    - intros term docsSet x Hin Hd.
      apply In_deindexed in Hin as [b [Hb ->]].
      apply filter_In in Hd as [Hd Hkeep].
      destruct (Hs _ _ _ Hb Hd) as [H1 H2]. split; [|assumption].
      apply filter_In. auto. }
  destruct call; simpl.
  - specialize (Hb [doc] e Hinv Hf). simpl in Hb. unfold addDoc.
    destruct (validateDoc (schema e) doc); [|assumption].
    now destruct (addValid e doc) as [e' [u|err]].
  - rewrite addDocs_processBatch. now apply Hb.
  - now apply Hr.
  - rewrite removeDocs_fold. revert e Hinv Hf.
    induction docsArray as [|d l IHl]; intros e Hinv Hf; simpl; auto.
    apply IHl; [now apply removeDoc_inv | now apply Hr].
  - eapply filed_same; [apply search_same | assumption].
Qed.

Lemma reachable_cached sch calls :
  cached sch (afterAll Number (newVultos sch) calls).
Proof.
  assert (G : forall calls e, inv sch e -> filed sch e -> cached sch e ->
                cached sch (afterAll Number e calls)).
  { clear calls. unfold afterAll.
    induction calls as [|c calls IH]; intros e Hinv Hf Hc; simpl; auto.
    apply IH; [now apply after_inv | now apply after_filed
              | now apply after_cached]. }
  apply G; [apply newVultos_inv | | intros key l []].
  constructor; simpl; [constructor | intros ? ? ? []].
Qed.

(** *** An entry of the cache stays *)

Lemma searchBody_keeps e query parameters key l :
  JsMap.get CacheKey_eq_dec key (cache e) = Some l ->
  JsMap.get CacheKey_eq_dec key
            (cache (fst (searchBody Number e query parameters))) = Some l.
Proof.
  intros Hk. unfold searchBody.
  destruct (JsMap.get CacheKey_eq_dec (createCacheKey query parameters)
                      (cache e)) as [c|] eqn:E.
  - destruct (readScore parameters) as [sc|];
      [destruct (filterHitsByScore c sc)|]; exact Hk.
  - assert (Hset : JsMap.get CacheKey_eq_dec key
                     (JsMap.set CacheKey_eq_dec
                                (createCacheKey query parameters)
                                (rank e (queryWordsOf query)
                                      (candidates (index e)
                                                  (queryWordsOf query)))
                                (cache e)) = Some l
                   /\ forall fd,
                       JsMap.get CacheKey_eq_dec key
                         (JsMap.set CacheKey_eq_dec
                                    (createCacheKey query parameters)
                                    (rank e (queryWordsOf query) fd)
                                    (cache e)) = Some l).
    { split; [|intros fd]; rewrite JsMap.get_set_other; auto;
        intros <-; congruence. }
    destruct Hset as [_ Hset].
    destruct (match parameters with Some _ => _ | None => _ end)
      as [fd|err]; [|exact Hk].
    destruct (readScore parameters) as [sc|]; simpl;
      [destruct (filterHitsByScore _ sc)|]; simpl; apply Hset.
Qed.

Lemma after_keeps e call key l :
  JsMap.get CacheKey_eq_dec key (cache e) = Some l ->
  JsMap.get CacheKey_eq_dec key (cache (after Number e call)) = Some l.
Proof.
  intros Hk. destruct call;
    try (rewrite after_cache; [exact Hk | intros; discriminate]).
  simpl. unfold search.
  destruct (handleParameters_same e parameters) as [_ Hc].
  destruct (handleParameters e parameters) as [e1 [u|err]]; simpl in *.
  - rewrite <- Hc in Hk.
    pose proof (@searchBody_keeps e1 query parameters key l Hk) as H.
    destruct (searchBody Number e1 query parameters) as [e2 [r|err]];
      exact H.
  - now rewrite Hc.
Qed.

Lemma afterAll_keeps calls : forall e key l,
  JsMap.get CacheKey_eq_dec key (cache e) = Some l ->
  JsMap.get CacheKey_eq_dec key (cache (afterAll Number e calls)) = Some l.
Proof.
  unfold afterAll.
  induction calls as [|c calls IH]; intros e key l Hk; simpl; auto.
  apply IH. now apply after_keeps.
Qed.

(** *** When the parameters pass *)

Lemma setParameter_ok e n fp :
  snd (setParameter e n fp)
  = if hasOwnProperty (schema e) n then Ok tt
    else Throw (FieldNotInSchema n).
Proof.
  unfold setParameter. destruct (hasOwnProperty (schema e) n); simpl; auto.
  destruct (weightParam fp) as [w|]; auto.
  destruct (hasField n (fields e)); auto.
  destruct (Qcltb (num 5) w); auto. destruct (Qcltb w 1); auto.
Qed.

Lemma setParametersLoop_ok entries : forall e,
  snd (setParametersLoop e entries) = Ok tt
  <-> forall n, In n (map fst entries) -> hasOwnProperty (schema e) n = true.
Proof.
  induction entries as [|[n fp] entries IH]; intros e; simpl.
  - split; [intros _ n [] | reflexivity].
  - destruct (setParameter_same e n fp) as [Hs _].
    pose proof (setParameter_ok e n fp) as Hok.
    destruct (setParameter e n fp) as [e' st]. simpl in *. subst st.
    destruct (hasOwnProperty (schema e) n) eqn:En.
    + rewrite IH, (same_schema Hs). split.
      * intros H m [<-|Hm]; auto.
      * intros H m Hm. apply H. now right.
    + simpl. split; [discriminate|]. intros H.
      rewrite (H n (or_introl Logic.eq_refl)) in En. discriminate.
Qed.

Lemma find_none_forall (X : Type) (p : X -> bool) l :
  find p l = None <-> forall x, In x l -> p x = false.
Proof.
  induction l as [|x l IH]; simpl.
  - split; [intros _ y [] | reflexivity].
  - destruct (p x) eqn:E.
    + split; [discriminate|]. intros H.
      rewrite (H x (or_introl Logic.eq_refl)) in E. discriminate.
    + rewrite IH. split.
      * intros H y [<-|Hy]; auto.
      * intros H y Hy. apply H. now right.
Qed.

(** The parameters pass [#handleParameters] exactly when they hold no
    unknown key and every field name is a key of the schema. *)
Definition accepted (sch : Schema) (p : Parameters) : Prop :=
  otherParams p = []
  /\ forall n, In n (map fst (weightsOf p)) -> hasOwnProperty sch n = true.

Lemma handleParameters_ok e p :
  snd (handleParameters e (Some p)) = Ok tt <-> accepted (schema e) p.
Proof.
  unfold handleParameters, setParameters, accepted, weightsOf.
  destruct (otherParams p) as [|key rest].
  2:{ split; [discriminate | intros [H _]; discriminate]. }
  destruct (fieldsParam p) as [entries|].
  2:{ split; [intros _; split; [reflexivity | intros n []] | reflexivity]. }
  destruct (find _ (JsMap.keys entries)) as [n|] eqn:E.
  - apply find_some in E as [Hin E]. split; [discriminate|].
    intros [_ H]. rewrite (H n Hin) in E. discriminate.
  - rewrite setParametersLoop_ok. tauto.
Qed.

(** *** The result of the body of [search] *)

(** A result is cut by the score filter out of a ranked list that is in
    the cache when the call returns; [count] is the length of that list
    when the cache answered and the length of the result otherwise. *)
Lemma searchBody_result sch e query parameters e' r :
  inv sch e -> filed sch e -> cached sch e ->
  searchBody Number e query parameters = (e', Ok r) ->
  exists p l,
    parameters = Some p
    /\ ranked sch query l
    /\ JsMap.get CacheKey_eq_dec (createCacheKey query parameters) (cache e')
       = Some l
    /\ filterHitsByScore l (scoreParam p) = Ok (hits r)
    /\ (JsMap.get CacheKey_eq_dec (createCacheKey query parameters) (cache e)
        = Some l /\ e' = e
        /\ count r = length l /\ sortBy r = false
        \/ JsMap.get CacheKey_eq_dec (createCacheKey query parameters)
                     (cache e) = None
           /\ (exists fd, filtered Number e query p = Ok fd
                          /\ l = rank e (queryWordsOf query) fd)
           /\ count r = length (hits r) /\ sortBy r = true).
Proof.
  intros Hinv Hf Hc. destruct parameters as [p|].
  2:{ unfold searchBody. simpl.
      destruct (JsMap.get CacheKey_eq_dec _ (cache e)); discriminate. }
  destruct (JsMap.get CacheKey_eq_dec (createCacheKey query (Some p))
                      (cache e)) as [l|] eqn:E.
  - rewrite (searchBody_hit Number E).
    destruct (filterHitsByScore l (scoreParam p)) as [hs|err] eqn:Ef;
      [|discriminate].
    intros [= <- <-]. exists p, l. simpl.
    split; [reflexivity|]. split.
    { apply (@JsMap.get_In _ _ CacheKey_eq_dec) in E.
      exact (Hc _ _ E). }
    split; [exact E|]. split; [exact Ef|]. left. auto.
  - rewrite (searchBody_miss Number E).
    destruct (filtered Number e query p) as [fd|err] eqn:Efd;
      [|discriminate].
    cbv zeta. unfold computed.
    destruct (filterHitsByScore _ (scoreParam p)) as [hs|err] eqn:Ef;
      [|discriminate].
    intros [= <- <-]. exists p, (rank e (queryWordsOf query) fd). simpl.
    split; [reflexivity|]. split.
    { apply rank_ranked; auto. now apply filtered_incl with (p := p). }
    split; [apply JsMap.get_set_same|]. split; [exact Ef|].
    right. split; [reflexivity|]. split; [eauto|]. auto.
Qed.

Lemma filterHitsByScore_length l sc hs :
  filterHitsByScore l sc = Ok hs -> length hs <= length l.
Proof.
  unfold filterHitsByScore. destruct sc as [c|]; [|now intros [= <-]].
  destruct (checkScoreConditions c); [|discriminate].
  intros [= <-]. apply filter_length_le.
Qed.

Lemma filterHitsByScore_incl l sc hs :
  filterHitsByScore l sc = Ok hs -> incl hs l.
Proof.
  unfold filterHitsByScore.
  destruct sc as [c|]; [|intros [= <-] x Hx; exact Hx].
  destruct (checkScoreConditions c); [|discriminate].
  intros [= <-] x Hx. now apply filter_In in Hx as [Hx _].
Qed.

(** What [search] does once the parameters have passed. *)
Lemma search_body sch e query parameters r :
  inv sch e ->
  snd (search Number e query parameters) = Ok r ->
  exists e1,
    handleParameters e parameters = (e1, Ok tt)
    /\ same_store e e1 /\ cache e1 = cache e
    /\ searchBody Number e1 query parameters
       = (fst (search Number e query parameters), Ok r).
Proof.
  intros Hinv. unfold search.
  destruct (handleParameters_same e parameters) as [Hsame Hcache].
  destruct (handleParameters e parameters) as [e1 [[]|err]]; simpl in *;
    [|discriminate].
  destruct (searchBody Number e1 query parameters) as [e2 [r'|err]] eqn:Eb;
    simpl; [|discriminate].
  intros [= ->]. exists e1. auto.
Qed.

End WithImports.
End RankFacts.

(** ** Properties of search on the indexed engine *)

Section RankProperties.
Import Str Vultos VultosFacts WhereFacts ParameterFacts SearchFacts.
Import JsMapFacts IndexFacts RankFacts.
Local Open Scope Qc_scope.
Context {T : TextUtils} {S : Scorer}.
Variable Number : string -> option Qc.

(** Every list of hits a search returns is ranked, whether it was computed
    or taken from the cache: no hit scores above one before it, every score
    is above 0, no two hits have the same contents, and every document
    returned is accepted by the schema and has an index term within
    distance 2 of a stemmed word of the query.  [count] is never below the
    number of hits.  The engine is one reached through the methods of the
    class; [sortBy] on a result is not among them, and module [Sorting]
    shows what it does to the order. *)
Theorem search_hits_are_ranked
        (sch : Schema) (calls : list Call) (query : string)
        (parameters : option Parameters) (r : SearchResult) :
  let e := afterAll Number (newVultos sch) calls in
  snd (search Number e query parameters) = Ok r ->
  StronglySorted byScore (hits r)
  /\ Forall (fun h => 0 < score h) (hits r)
  /\ NoDup (map contents (hits r))
  /\ Forall (fun h => validateDoc sch (document h) = true
                      /\ exists term,
                           In term (termsOf sch (document h))
                           /\ near (queryWordsOf query) term) (hits r)
  /\ (length (hits r) <= count r)%nat.
Proof.
  intros e Hr.
  pose proof (reachable_inv Number sch calls) as Hinv.
  pose proof (reachable_filed Number sch calls) as Hf.
  pose proof (@reachable_cached _ _ Number sch calls) as Hc.
  fold e in Hinv, Hf, Hc.
  destruct (search_body Hinv Hr) as [e1 [Hh [Hsame [Hcache Hb]]]].
  assert (Hinv1 : inv sch e1) by (eapply same_store_inv; eassumption).
  assert (Hf1 : filed sch e1) by (eapply filed_same; eassumption).
  assert (Hc1 : cached sch e1) by (now apply cached_same with (e := e)).
  destruct (searchBody_result Hinv1 Hf1 Hc1 Hb)
    as [p [l [-> [Hl [_ [Hfilter Hcount]]]]]].
  destruct (ranked_filterHitsByScore Hl Hfilter) as [H1 H2 H3 H4].
  repeat split; try assumption.
  destruct Hcount as [[_ [_ [-> _]]]|[_ [_ [-> _]]]]; [|lia].
  now apply filterHitsByScore_length in Hfilter.
Qed.

(** The query cache is never invalidated.  Once a search has returned, the
    same query under the same parameters returns the same hits after any
    further calls of the methods of the class, whatever was added or
    removed in between.  The repeated call answers from the cache: it
    carries no [sortBy], and its [count] is the length of the cached list
    before the score filter, which is never below the [count] of the first
    call. *)
Theorem repeated_search_is_answered_from_the_cache
        (sch : Schema) (calls later : list Call) (query : string)
        (p : Parameters) (r1 : SearchResult) :
  let e := afterAll Number (newVultos sch) calls in
  snd (search Number e query (Some p)) = Ok r1 ->
  let e1 := fst (search Number e query (Some p)) in
  let e2 := afterAll Number e1 later in
  exists cachedResults,
    JsMap.get CacheKey_eq_dec (createCacheKey query (Some p)) (cache e2)
    = Some cachedResults
    /\ snd (search Number e2 query (Some p))
       = Ok {| count := length cachedResults; hits := hits r1;
               sortBy := false |}
    /\ (count r1 <= length cachedResults)%nat.
Proof.
  intros e Hr e1 e2.
  pose proof (reachable_inv Number sch calls) as Hinv.
  pose proof (reachable_filed Number sch calls) as Hf.
  pose proof (@reachable_cached _ _ Number sch calls) as Hc.
  fold e in Hinv, Hf, Hc.
  destruct (search_body Hinv Hr) as [ea [Hh [Hsame [Hcache Hb]]]].
  fold e1 in Hb.
  assert (Hinva : inv sch ea) by (eapply same_store_inv; eassumption).
  assert (Hfa : filed sch ea) by (eapply filed_same; eassumption).
  assert (Hca : cached sch ea) by (now apply cached_same with (e := e)).
  destruct (searchBody_result Hinva Hfa Hca Hb)
    as [p' [l [[= <-] [Hl [Hstored [Hfilter Hcount]]]]]].
  exists l.
  assert (Hkept : JsMap.get CacheKey_eq_dec (createCacheKey query (Some p))
                            (cache e2) = Some l).
  { unfold e2. now apply afterAll_keeps. }
  split; [exact Hkept|]. split.
  - assert (Hinv1 : inv sch e1).
    { unfold e1. eapply same_store_inv; [apply search_same | exact Hinv]. }
    assert (Hinv2 : inv sch e2) by (unfold e2; now apply afterAll_inv).
    assert (Hacc : accepted sch p).
    { rewrite <- (inv_schema Hinv). apply handleParameters_ok.
      now rewrite Hh. }
    unfold search.
    destruct (handleParameters_same e2 (Some p)) as [_ Hcache2].
    pose proof (proj2 (handleParameters_ok e2 p)) as Hok.
    rewrite (inv_schema Hinv2) in Hok. specialize (Hok Hacc).
    destruct (handleParameters e2 (Some p)) as [eb st]. simpl in *. subst st.
    rewrite <- Hcache2 in Hkept.
    rewrite (searchBody_hit Number Hkept), Hfilter. reflexivity.
  - destruct Hcount as [[_ [_ [-> _]]]|[_ [_ [-> _]]]]; [lia|].
    now apply filterHitsByScore_length in Hfilter.
Qed.

(** A search that is not answered from the cache returns stored documents
    only.  After [removeDoc], such a search returns no document with the
    keys and values of the removed one. *)
Theorem computing_search_returns_stored_documents
        (sch : Schema) (calls : list Call) (docToRemove : Doc)
        (query : string) (p : Parameters) :
  let e := afterAll Number (newVultos sch) calls in
  (forall r,
      JsMap.get CacheKey_eq_dec (createCacheKey query (Some p)) (cache e)
      = None ->
      snd (search Number e query (Some p)) = Ok r ->
      Forall (fun h => In (document h) (docs e)) (hits r))
  /\ (forall r,
         let e' := removeDoc e docToRemove in
         JsMap.get CacheKey_eq_dec (createCacheKey query (Some p)) (cache e')
         = None ->
         snd (search Number e' query (Some p)) = Ok r ->
         Forall (fun h => equals (document h) docToRemove = false) (hits r)).
Proof.
  intros e.
  assert (G : forall calls r,
             let e := afterAll Number (newVultos sch) calls in
             JsMap.get CacheKey_eq_dec (createCacheKey query (Some p))
                       (cache e) = None ->
             snd (search Number e query (Some p)) = Ok r ->
             Forall (fun h => In (document h) (docs e)) (hits r)).
  { clear e calls. intros calls r e Hmiss Hr.
    pose proof (reachable_inv Number sch calls) as Hinv.
    pose proof (reachable_filed Number sch calls) as Hf.
    pose proof (@reachable_cached _ _ Number sch calls) as Hc.
    fold e in Hinv, Hf, Hc.
    destruct (search_body Hinv Hr) as [e1 [Hh [Hsame [Hcache Hb]]]].
    assert (Hinv1 : inv sch e1) by (eapply same_store_inv; eassumption).
    assert (Hf1 : filed sch e1) by (eapply filed_same; eassumption).
    assert (Hc1 : cached sch e1) by (now apply cached_same with (e := e)).
    destruct (searchBody_result Hinv1 Hf1 Hc1 Hb)
      as [p' [l [[= <-] [Hl [_ [Hfilter Hcount]]]]]].
    destruct Hcount as [[Hhit _]|[_ [[fd [Hfd ->]] _]]];
      [rewrite Hcache in Hhit; congruence|].
    apply Forall_forall. intros h Hh'.
    apply (filterHitsByScore_incl Hfilter), rank_In in Hh' as [Hh' _].
    apply (filtered_incl Hfd), candidates_In in Hh'
      as [term [b [H1 [_ H3]]]].
    rewrite <- (same_docs Hsame). now destruct (filed_sound Hf1 H1 H3). }
  split; [apply G|].
  intros r e' Hmiss Hr.
  assert (E : e' = afterAll Number (newVultos sch)
                            (calls ++ [CallRemoveDoc docToRemove])).
  { unfold afterAll. now rewrite fold_left_app. }
  rewrite E in Hmiss, Hr. pose proof (G _ _ Hmiss Hr) as H.
  rewrite <- E in H. rewrite Forall_forall in *. intros h Hh.
  specialize (H h Hh). unfold e', removeDoc, removeDocFromDocsArray in H.
  simpl in H. apply filter_In in H as [_ H]. now apply negb_true_iff.
Qed.

(** A search misses no document.  When it computes, without where and
    score clause, every stored document that has a term within distance 2
    of a stemmed query word and is scored above 0 is among the hits, or a
    document with the same contents is. *)
Theorem search_finds_every_matching_document
        (sch : Schema) (calls : list Call) (query : string) (p : Parameters)
        (r : SearchResult) (doc : Doc) (term : string) :
  identified (flat_map addedDocs calls) ->
  let e := afterAll Number (newVultos sch) calls in
  JsMap.get CacheKey_eq_dec (createCacheKey query (Some p)) (cache e) = None ->
  whereParam p = None -> scoreParam p = None ->
  snd (search Number e query (Some p)) = Ok r ->
  In doc (docs e) -> In term (termsOf sch doc) ->
  near (queryWordsOf query) term ->
  0 < calculateScore doc (queryWordsOf query)
                     (fields (fst (search Number e query (Some p)))) sch ->
  exists h, In h (hits r) /\ props (document h) = props doc.
Proof.
  intros HU e Hmiss Hwhere Hscore Hr Hdoc Hterm Hnear Hpos.
  destruct (reachable_indexed Number sch HU) as [Hinv Hf Hknown Hcomplete].
  fold e in Hinv, Hf, Hknown, Hcomplete.
  pose proof (@reachable_cached _ _ Number sch calls) as Hc. fold e in Hc.
  destruct (search_body Hinv Hr) as [e1 [Hh [Hsame [Hcache Hb]]]].
  assert (Hinv1 : inv sch e1) by (eapply same_store_inv; eassumption).
  assert (Hf1 : filed sch e1) by (eapply filed_same; eassumption).
  assert (Hc1 : cached sch e1) by (now apply cached_same with (e := e)).
  destruct (searchBody_same Number e1 query (Some p)) as [_ [Hfields _]].
  rewrite Hb in Hfields. simpl in Hfields. rewrite Hfields in Hpos.
  destruct (searchBody_result Hinv1 Hf1 Hc1 Hb)
    as [p' [l [[= <-] [Hl [_ [Hfilter Hcount]]]]]].
  destruct Hcount as [[Hhit _]|[_ [[fd [Hfd ->]] _]]];
    [rewrite Hcache in Hhit; congruence|].
  rewrite Hscore in Hfilter. simpl in Hfilter. injection Hfilter as <-.
  unfold filtered in Hfd. rewrite Hwhere in Hfd. injection Hfd as <-.
  rewrite <- (inv_schema Hinv1) in Hpos.
  apply rank_complete; [|exact Hpos].
  (* the document is a candidate *)
  destruct (Hcomplete doc term Hdoc Hterm) as [b [Hb' Hdb]].
  apply (@JsMap.get_In _ _ string_dec) in Hb'.
  rewrite (same_index Hsame).
  pose proof (candidates_has Hb' Hnear Hdb) as Hhas.
  unfold setHas in Hhas. apply existsb_exists in Hhas as [y [Hy E]].
  apply Nat.eqb_eq in E.
  assert (Hys : In y (docs e)).
  { apply candidates_In in Hy as [t [b0 [H1 [_ H3]]]].
    now destruct (filed_sound Hf H1 H3). }
  now rewrite <- (HU y doc (Hknown y Hys) (Hknown doc Hdoc) E).
Qed.

(** Documents are found through their string fields only.  Under a schema
    that declares no field ['string'] the index stays empty and every
    search that returns has no hits. *)
Theorem without_string_fields_nothing_is_found
        (sch : Schema) (calls : list Call) (query : string)
        (parameters : option Parameters) :
  (forall key ty, In (key, ty) sch -> ty <> "string"%string) ->
  let e := afterAll Number (newVultos sch) calls in
  index e = []
  /\ forall r, snd (search Number e query parameters) = Ok r ->
               hits r = [] /\ count r = 0%nat.
Proof.
  intros Hsch e.
  assert (Hterms : forall doc, termsOf sch doc = []).
  { intros doc. unfold termsOf.
    assert (G : forall keys, incl keys (JsMap.keys sch) ->
                             flat_map (fieldTerms sch doc) keys = []).
    { induction keys as [|k keys IH]; intros Hk; simpl; auto.
      rewrite IH by (intros x Hx; apply Hk; now right).
      rewrite app_nil_r. unfold fieldTerms.
      destruct (prop doc k) as [[text| |]|]; auto.
      destruct (schemaType sch k) as [ty|] eqn:E; auto.
      apply (@JsMap.get_In _ _ string_dec) in E. apply Hsch in E.
      destruct (String.eqb_spec ty "string"); [contradiction | reflexivity]. }
    apply G. intros x Hx. exact Hx. }
  pose proof (reachable_inv Number sch calls) as Hinv.
  pose proof (reachable_filed Number sch calls) as Hf.
  pose proof (@reachable_cached _ _ Number sch calls) as Hc.
  fold e in Hinv, Hf, Hc.
  assert (Hempty : forall query l, ranked sch query l -> l = []).
  { intros q l [_ _ _ H]. destruct l as [|h l]; [reflexivity|].
    inversion H as [|? ? [_ [term [Hterm _]]] _]; subst.
    rewrite Hterms in Hterm. contradiction. }
  split.
  - destruct (index e) as [|[t b] index'] eqn:E; [reflexivity|].
    assert (Hin : In (t, b) (index e)) by (rewrite E; now left).
    destruct (inv_index Hinv Hin) as [Hne _].
    destruct b as [|d b]; [congruence|].
    destruct (filed_sound Hf Hin (or_introl Logic.eq_refl)) as [_ Ht].
    rewrite Hterms in Ht. contradiction.
  - intros r Hr.
    destruct (search_body Hinv Hr) as [e1 [Hh [Hsame [Hcache Hb]]]].
    assert (Hinv1 : inv sch e1) by (eapply same_store_inv; eassumption).
    assert (Hf1 : filed sch e1) by (eapply filed_same; eassumption).
    assert (Hc1 : cached sch e1) by (now apply cached_same with (e := e)).
    destruct (searchBody_result Hinv1 Hf1 Hc1 Hb)
      as [p [l [-> [Hl [_ [Hfilter Hcount]]]]]].
    pose proof (Hempty _ _ (ranked_filterHitsByScore Hl Hfilter)) as Hhits.
    split; [exact Hhits|].
    destruct Hcount as [[_ [_ [-> _]]]|[_ [_ [-> _]]]].
    + now rewrite (Hempty _ _ Hl).
    + now rewrite Hhits.
Qed.

End RankProperties.

(** ** More about the filters *)

Module FilterFacts.
Import Str Vultos VultosFacts WhereFacts ParameterFacts SearchFacts.
Import JsMapFacts IndexFacts RankFacts.
Local Open Scope Qc_scope.




Lemma checkScoreConditions_unit conditions :
  checkScoreConditions conditions = Ok tt
  \/ exists err, checkScoreConditions conditions = Throw err.
Proof.
  destruct (checkScoreConditions conditions) as [[]|err]; eauto.
Qed.


(** [{ eq: v }] and [{ inc: v }] *)
Definition eqCondition (v : Value) : Condition :=
  CObject {| lt := None; lte := None; gt := None; gte := None; bt := None;
             eq := Some v; inc := None; otherConditions := [] |}.

Definition incCondition (v : Value) : Condition :=
  CObject {| lt := None; lte := None; gt := None; gte := None; bt := None;
             eq := None; inc := Some v; otherConditions := [] |}.

Lemma valid_string sch doc key :
  valid sch doc -> schemaType sch key = Some "string"%string ->
  exists s, prop doc key = Some (VString s).
Proof.
  intros Hv Hs. unfold valid, validateDoc in Hv.
  rewrite forallb_forall in Hv.
  assert (Hin : In key (JsMap.keys sch)).
  { apply JsMap.get_In in Hs. change key with (fst (key, "string"%string)).
    now apply in_map. }
  specialize (Hv key Hin). rewrite Hs in Hv.
  destruct (prop doc key) as [[s|x|b]|]; try discriminate. eauto.
Qed.

Lemma filter_true (X : Type) (l : list X) : filter (fun _ => true) l = l.
Proof. induction l; simpl; congruence. Qed.

End FilterFacts.

Section FilterProperties.
Import Str Vultos VultosFacts WhereFacts ParameterFacts SearchFacts.
Import JsMapFacts IndexFacts RankFacts FilterFacts.
Local Open Scope Qc_scope.
Context {T : TextUtils} {S : Scorer}.
Variable Number : string -> option Qc.


(** A condition on a field declared ['boolean'] never selects.  An object
    makes the where clause throw, and so does every primitive that is no
    boolean; a boolean is accepted and then ignored, so that all documents
    stay, whatever their value of the field. *)
Theorem where_on_a_boolean_field_never_selects
        (sch : Schema) (docs : list Doc) (key : string)
        (condition : Condition) :
  schemaType sch key = Some "boolean"%string ->
  applyWhereClause Number sch docs [(key, condition)]
  = match condition with
    | CPrimitive (VBoolean _) => Ok docs
    | CPrimitive v => Throw (ExpectedBoolean key (typeof v))
    | CObject c =>
        match otherConditions c with
        | conditionKey :: _ => Throw (UnrecognizedCondition conditionKey key)
        | [] => Throw (ExpectedBoolean key "object")
        end
    end.
Proof.
  intros Hs. unfold applyWhereClause. simpl. unfold whereKey. rewrite Hs.
  destruct condition as [c|[s|n|b]]; simpl.
  - destruct (otherConditions c); reflexivity.
  - reflexivity.
  - reflexivity.
  - now rewrite filter_true.
Qed.

(** [eq] compares with [===] and [inc] is the substring test.  On a
    number or string field, [eq] with a value of the type of the field keeps
    exactly the documents that hold this value, 0 and the empty string
    included; an [eq] of another type is ignored without an error and all
    documents stay.  On a string field of stored documents, [inc] keeps
    exactly the documents whose text contains the given one. *)
Theorem where_eq_and_inc
        (sch : Schema) (docs : list Doc) (key ty : string) :
  schemaType sch key = Some ty ->
  (ty = "number" \/ ty = "string")%string ->
  (forall v,
      applyWhereClause Number sch docs [(key, eqCondition v)]
      = Ok (if String.eqb (typeof v) ty
            then filter (fun doc => strictEq (prop doc key) (Some v)) docs
            else docs))
  /\ (ty = "string"%string ->
      Forall (fun doc => validateDoc sch doc = true) docs ->
      forall sub,
        applyWhereClause Number sch docs [(key, incCondition (VString sub))]
        = Ok (filter (fun doc => match prop doc key with
                                 | Some (VString s) => includes s sub
                                 | _ => false
                                 end) docs)).
Proof.
  intros Hs Hty. split.
  - intros v. unfold applyWhereClause. simpl. unfold whereKey. rewrite Hs.
    simpl. destruct Hty as [-> | ->]; simpl.
    + destruct v as [s|n|b]; simpl; now rewrite filter_true.
    + destruct v as [s|n|b]; simpl; now rewrite filter_true.
  - intros -> Hv sub. unfold applyWhereClause. simpl. unfold whereKey.
    rewrite Hs. simpl.
    assert (Hall : forallb (fun doc => match prop doc key with
                                       | Some (VString _) => true
                                       | _ => false
                                       end) docs = true).
    { apply forallb_forall. intros doc Hin. rewrite Forall_forall in Hv.
      destruct (valid_string (Hv doc Hin) Hs) as [s ->]. reflexivity. }
    rewrite Hall. now rewrite filter_true.
Qed.

End FilterProperties.

(** ** Sorting a result by a field ([sortBy], [#sortByField])

    A result of the computing path of [search] carries the function
    [sortBy], which calls [#sortByField] on the array [hits] of the result.
    [Array.prototype.sort] sorts that array in place.  [filterHitsByScore]
    returns its argument when there is no score clause, so the array of
    the result is then the array [search] has stored in the cache, and
    sorting the one sorts the other.  With a score clause the result holds
    a filtered copy.

    [localeCompare] depends on the locale of the host and is a parameter;
    the order is that of a stable sort under a comparator that is
    consistent.
    With two or more hits, one of which holds no string under the field,
    the comparator is taken to call [localeCompare] on it. *)

Module Sorting.
Import Str Vultos.

Inductive SortOutcome : Type :=
| Sorted (hits : list Hit)
| InvalidField (fieldName : string)
| NotAFunction.

Section WithCollation.
Variable localeCompare : string -> string -> Z.

Definition isString (v : option Value) : bool :=
  match v with Some (VString _) => true | _ => false end.

Definition textOf (fieldName : string) (h : Hit) : string :=
  match prop (document h) fieldName with
  | Some (VString s) => s
  | _ => ""
  end.

(** [sort((a, b) => a.document[fieldName].localeCompare(...))]: ascending,
    stable. *)
Fixpoint insertByField (fieldName : string) (x : Hit) (l : list Hit)
  : list Hit :=
  match l with
  | [] => [x]
  | y :: l' =>
      if (0 <? localeCompare (textOf fieldName x) (textOf fieldName y))%Z
      then y :: insertByField fieldName x l'
      else x :: l
  end.

Definition sortByField (schema : Schema) (results : list Hit)
           (fieldName : string) : SortOutcome :=
  if negb (hasOwnProperty schema fieldName)
     || negb (match schemaType schema fieldName with
              | Some ty => String.eqb ty "string"
              | None => false
              end)
  then InvalidField fieldName
  else if (length results <? 2)
          || forallb (fun h => isString (prop (document h) fieldName)) results
  then Sorted (fold_right (insertByField fieldName) [] results)
  else NotAFunction.

(** [result.sortBy(fieldName)] for the [result] that
    [search(query, parameters)] has returned from its computing path: the
    engine and the result after the call, and what the call returns. *)
Definition callSortBy (e : Engine) (query : string) (parameters : Parameters)
           (result : SearchResult) (fieldName : string)
  : Engine * SearchResult * SortOutcome :=
  match sortByField (schema e) (hits result) fieldName with
  | Sorted sorted =>
      (match scoreParam parameters with
       | None =>
           withCache e (JsMap.set CacheKey_eq_dec
                                  (createCacheKey query (Some parameters))
                                  sorted (cache e))
       | Some _ => e
       end,
       {| count := count result; hits := sorted; sortBy := sortBy result |},
       Sorted sorted)
  | failure => (e, result, failure)
  end.

Lemma insertByField_perm fieldName x l :
  Permutation (insertByField fieldName x l) (x :: l).
Proof.
  induction l as [|y l IH]; simpl; [reflexivity|].
  destruct (0 <? _)%Z; [|reflexivity].
  rewrite IH. apply perm_swap.
Qed.

Lemma sortByField_perm fieldName l :
  Permutation (fold_right (insertByField fieldName) [] l) l.
Proof.
  induction l as [|x l IH]; simpl; [reflexivity|].
  rewrite insertByField_perm. now constructor.
Qed.

End WithCollation.
End Sorting.

(** ** More about parameters *)

Module RejectionFacts.
Import Str Vultos VultosFacts WhereFacts ParameterFacts SearchFacts.
Import JsMapFacts IndexFacts RankFacts.

Section WithImports.
Context {T : TextUtils} {S : Scorer}.
Variable Number : string -> option Qc.

(** [#handleParameters] throws before it sets a weight. *)
Lemma handleParameters_throws e p e1 err :
  handleParameters e (Some p) = (e1, Throw err) ->
  e1 = e
  /\ ((exists key, In key (otherParams p) /\ err = UnexpectedParameterKey key)
      \/ (exists fieldName,
             In fieldName (map fst (weightsOf p))
             /\ hasOwnProperty (schema e) fieldName = false
             /\ err = FieldNotInSchema fieldName)).
Proof.
  unfold handleParameters, setParameters, weightsOf.
  destruct (otherParams p) as [|key rest].
  2:{ intros [= <- <-]. split; [reflexivity|]. left. exists key.
      split; [now left | reflexivity]. }
  destruct (fieldsParam p) as [entries|]; [|discriminate].
  destruct (find _ (JsMap.keys entries)) as [n|] eqn:E.
  - apply find_some in E as [Hin E]. intros [= <- <-].
    split; [reflexivity|]. right. exists n.
    split; [exact Hin|]. split; [|reflexivity].
    now apply negb_true_iff.
  - intros H. exfalso.
    assert (Hok : snd (setParametersLoop e entries) = Ok tt).
    { apply setParametersLoop_ok. intros n Hn.
      pose proof (proj1 (find_none_forall _ _) E n Hn) as Hf.
      now apply negb_false_iff. }
    rewrite H in Hok. discriminate.
Qed.

End WithImports.
End RejectionFacts.

Section ParameterProperties.
Import Str Vultos VultosFacts WhereFacts ParameterFacts SearchFacts.
Import JsMapFacts IndexFacts RankFacts RejectionFacts Sorting.
Local Open Scope Qc_scope.
Context {T : TextUtils} {S : Scorer}.
Variable Number : string -> option Qc.

(** Parameters are checked as a whole before any weight is set.  When
    they hold a key other than [fields], [where] and [score], or a field
    name that is no key of the schema, [search] throws the error of that
    key or name and leaves the engine as it was: no weight is set, also
    not for the fields named before the unknown one, and nothing is
    cached. *)
Theorem rejected_parameters_change_nothing
        (e : Engine) (query : string) (p : Parameters) :
  ~ accepted (schema e) p ->
  exists err,
    search Number e query (Some p) = (e, Throw err)
    /\ ((exists key,
            In key (otherParams p) /\ err = UnexpectedParameterKey key)
        \/ (exists fieldName,
               In fieldName (map fst (weightsOf p))
               /\ hasOwnProperty (schema e) fieldName = false
               /\ err = FieldNotInSchema fieldName)).
Proof.
  intros Hn. unfold search.
  destruct (handleParameters e (Some p)) as [e1 [[]|err]] eqn:E.
  - exfalso. apply Hn. apply handleParameters_ok. now rewrite E.
  - destruct (handleParameters_throws E) as [-> H]. exists err. auto.
Qed.

(** An error of the where clause or of the score clause is thrown after
    the weights of the call have been set, and they stay set.  The where
    clause is checked before the ranked list is stored, so its error
    leaves the cache as it was.  The score clause is checked after: its
    error leaves the ranked list in the cache, and the repeated call
    throws the same error from the cached list. *)
Theorem search_throws_after_its_side_effects
        (sch : Schema) (calls : list Call) (query : string) (p : Parameters) :
  wellFormed sch p ->
  let e := afterAll Number (newVultos sch) calls in
  JsMap.get CacheKey_eq_dec (createCacheKey query (Some p)) (cache e) = None ->
  let ep := fst (handleParameters e (Some p)) in
  let r := search Number e query (Some p) in
  fields (fst r) = applyWeights (weightsOf p) (fields e)
  /\ (forall err,
         filtered Number ep query p = Throw err ->
         snd r = Throw (ErrorOf err) /\ cache (fst r) = cache e)
  /\ (forall fd err,
         filtered Number ep query p = Ok fd ->
         filterHitsByScore (rank ep (queryWordsOf query) fd) (scoreParam p)
         = Throw err ->
         snd r = Throw (ErrorOf err)
         /\ JsMap.get CacheKey_eq_dec (createCacheKey query (Some p))
                      (cache (fst r))
            = Some (rank ep (queryWordsOf query) fd)
         /\ snd (search Number (fst r) query (Some p))
            = Throw (ErrorOf err)).
Proof.
  intros Hp e Hmiss ep r.
  pose proof (reachable_inv Number sch calls) as Hinv. fold e in Hinv.
  destruct (handleParameters_spec Hinv Hp) as [_ [Hf [_ [Hsame Hc]]]].
  fold ep in Hf, Hsame, Hc.
  assert (Er : r = (fst (searchBody Number ep query (Some p)),
                    rethrown (snd (searchBody Number ep query (Some p))))).
  { apply (search_wellFormed Number query Hinv Hp). }
  assert (Hmiss' : JsMap.get CacheKey_eq_dec (createCacheKey query (Some p))
                             (cache ep) = None) by (now rewrite Hc).
  rewrite (searchBody_miss Number Hmiss') in Er.
  split; [|split].
  - rewrite Er. destruct (filtered Number ep query p); simpl; exact Hf.
  - intros err Herr. rewrite Er, Herr. simpl. auto.
  - intros fd err Hfd Herr. rewrite Er, Hfd. cbv zeta. unfold computed.
    rewrite Herr. simpl. split; [reflexivity|].
    split; [apply JsMap.get_set_same|].
    set (e1 := withCache ep _).
    assert (Hinv1 : inv sch e1).
    { apply same_store_inv with (e := ep);
        [now constructor | eapply same_store_inv; eassumption]. }
    rewrite (search_wellFormed Number query Hinv1 Hp). cbv zeta. cbn [snd].
    destruct (handleParameters_spec Hinv1 Hp) as [_ [_ [_ [_ Hc1]]]].
    assert (Hhit : JsMap.get CacheKey_eq_dec (createCacheKey query (Some p))
                             (cache (fst (handleParameters e1 (Some p))))
                   = Some (rank ep (queryWordsOf query) fd)).
    { rewrite Hc1. apply JsMap.get_set_same. }
    rewrite (searchBody_hit Number Hhit), Herr. reflexivity.
Qed.

(** [sortBy] changes what a later search returns.  After a search without
    score clause has computed its hits, sorting its result by a string
    field sorts the list in the cache too: the same search, repeated,
    returns the hits in the order [sortBy] has left them and no longer in
    the order of the scores. *)
Theorem sortBy_reorders_the_cached_list
        (localeCompare : string -> string -> Z)
        (sch : Schema) (calls : list Call) (query : string) (p : Parameters)
        (r : SearchResult) (fieldName : string) :
  let e := afterAll Number (newVultos sch) calls in
  JsMap.get CacheKey_eq_dec (createCacheKey query (Some p)) (cache e) = None ->
  scoreParam p = None ->
  snd (search Number e query (Some p)) = Ok r ->
  schemaType sch fieldName = Some "string"%string ->
  let e1 := fst (search Number e query (Some p)) in
  exists sorted e2 r',
    callSortBy localeCompare e1 query p r fieldName = (e2, r', Sorted sorted)
    /\ Permutation sorted (hits r)
    /\ hits r' = sorted
    /\ snd (search Number e2 query (Some p))
       = Ok {| count := length sorted; hits := sorted; sortBy := false |}.
Proof.
  intros e Hmiss Hscore Hr Hfield e1.
  pose proof (reachable_inv Number sch calls) as Hinv.
  pose proof (reachable_filed Number sch calls) as Hf.
  pose proof (@reachable_cached _ _ Number sch calls) as Hc.
  fold e in Hinv, Hf, Hc.
  destruct (search_body Hinv Hr) as [ea [Hh [Hsame [Hcache Hb]]]].
  fold e1 in Hb.
  assert (Hinva : inv sch ea) by (eapply same_store_inv; eassumption).
  assert (Hfa : filed sch ea) by (eapply filed_same; eassumption).
  assert (Hca : cached sch ea) by (now apply cached_same with (e := e)).
  destruct (searchBody_result Hinva Hfa Hca Hb)
    as [p' [l [[= <-] [Hl [Hstored [Hfilter _]]]]]].
  rewrite Hscore in Hfilter. simpl in Hfilter. injection Hfilter as El.
  subst l.
  assert (Hinv1 : inv sch e1).
  { unfold e1. eapply same_store_inv; [apply search_same | exact Hinv]. }
  set (sorted := fold_right (insertByField localeCompare fieldName) []
                            (hits r)).
  assert (Hsort : sortByField localeCompare (schema e1) (hits r) fieldName
                  = Sorted sorted).
  { assert (Hall : forallb (fun h => isString (prop (document h) fieldName))
                           (hits r) = true).
    { apply forallb_forall. intros h Hh'.
      pose proof (ranked_near Hl) as Hn. rewrite Forall_forall in Hn.
      destruct (Hn h Hh') as [Hv _].
      destruct (FilterFacts.valid_string Hv Hfield) as [s ->]. reflexivity. }
    assert (Hown : hasOwnProperty sch fieldName = true).
    { unfold hasOwnProperty, JsMap.has. unfold schemaType in Hfield.
      now rewrite Hfield. }
    unfold sortByField. rewrite (inv_schema Hinv1), Hown, Hfield. simpl.
    rewrite Hall, orb_true_r. reflexivity. }
  unfold callSortBy. rewrite Hsort, Hscore.
  eexists sorted, _, _. split; [reflexivity|].
  split; [apply sortByField_perm|]. split; [reflexivity|].
  set (e2 := withCache e1 _).
  assert (Hinv2 : inv sch e2).
  { apply same_store_inv with (e := e1); [now constructor | assumption]. }
  assert (Hacc : accepted sch p).
  { rewrite <- (inv_schema Hinv). apply handleParameters_ok. now rewrite Hh. }
  unfold search.
  destruct (handleParameters_same e2 (Some p)) as [_ Hcache2].
  pose proof (proj2 (handleParameters_ok e2 p)) as Hok.
  rewrite (inv_schema Hinv2) in Hok. specialize (Hok Hacc).
  destruct (handleParameters e2 (Some p)) as [eb st]. simpl in *. subst st.
  assert (Hhit : JsMap.get CacheKey_eq_dec (createCacheKey query (Some p))
                           (cache eb) = Some sorted).
  { rewrite Hcache2. apply JsMap.get_set_same. }
  rewrite (searchBody_hit Number Hhit), Hscore. reflexivity.
Qed.

End ParameterProperties.

(** ** The properties of search on the two books *)

Section RankExamples.
Import Str Vultos VultosFacts WhereFacts ParameterFacts SearchFacts.
Import JsMapFacts IndexFacts RankFacts FilterFacts Sorting Books Library.
Local Open Scope Qc_scope.
Local Open Scope string_scope.

Let loaded : list Call := [CallAddDocs [gatsby; expectations]].

Lemma search_hits_are_ranked_witness :
  exists r,
    snd (flatSearch twoBooks "great" (Some noParameters)) = Ok r
    /\ StronglySorted byScore (hits r)
    /\ NoDup (map contents (hits r)).
Proof.
  destruct (snd (flatSearch twoBooks "great" (Some noParameters)))
    as [r|err] eqn:E; [|now vm_compute in E].
  exists r. split; [reflexivity|].
  destruct (@search_hits_are_ranked flatTextUtils flatScorer
              Vultus.decimalNumber bookSchema loaded "great"
              (Some noParameters) r E) as [H1 [_ [H3 _]]].
  split; assumption.
Defined.

(** The repeated search does not see the book added in between. *)
Lemma repeated_search_is_answered_from_the_cache_witness :
  exists (r1 : SearchResult) (cachedResults : list Hit),
    snd (flatSearch twoBooks "great" (Some noParameters)) = Ok r1
    /\ snd (flatSearch
              (fst (addDoc (T := flatTextUtils)
                      (fst (flatSearch twoBooks "great" (Some noParameters)))
                      greatWar))
              "great" (Some noParameters))
       = Ok {| count := length cachedResults; hits := hits r1;
               sortBy := false |}.
Proof.
  destruct (snd (flatSearch twoBooks "great" (Some noParameters)))
    as [r1|err] eqn:E; [|now vm_compute in E].
  destruct (@repeated_search_is_answered_from_the_cache flatTextUtils
              flatScorer Vultus.decimalNumber bookSchema loaded
              [CallAddDoc greatWar] "great" noParameters r1 E)
    as [cachedResults [_ [H _]]].
  exists r1, cachedResults. split; [reflexivity | exact H].
Defined.

Lemma search_finds_every_matching_document_witness :
  exists r h,
    snd (flatSearch twoBooks "gatsby" (Some noParameters)) = Ok r
    /\ In h (hits r) /\ props (document h) = props gatsby.
Proof.
  destruct (snd (flatSearch twoBooks "gatsby" (Some noParameters)))
    as [r|err] eqn:E; [|now vm_compute in E].
  destruct (@search_finds_every_matching_document flatTextUtils flatScorer
              Vultus.decimalNumber bookSchema loaded "gatsby" noParameters
              r gatsby "gatsbi" twoBooks_identified Logic.eq_refl
              Logic.eq_refl Logic.eq_refl E)
    as [h [Hin Hp]].
  - now left.
  - vm_compute. auto.
  - exists "gatsbi". split; [now left | vm_compute; lia].
  - now vm_compute.
  - exists r, h. split; [reflexivity|]. split; assumption.
Defined.

(** A schema without a string field. *)
Definition yearSchema : Schema := [("year", "number")].

Definition year1925 : Doc :=
  {| ref := 6; props := [("year", VNumber (num 1925))] |}.

Lemma without_string_fields_nothing_is_found_witness :
  validateDoc yearSchema year1925 = true
  /\ index (fst (addDoc (T := flatTextUtils) (newVultos yearSchema) year1925))
     = []
  /\ forall r,
       snd (flatSearch
              (fst (addDoc (T := flatTextUtils) (newVultos yearSchema)
                      year1925))
              "1925" (Some noParameters)) = Ok r ->
       hits r = [] /\ count r = 0%nat.
Proof.
  split; [reflexivity|].
  refine (@without_string_fields_nothing_is_found flatTextUtils flatScorer
            Vultus.decimalNumber yearSchema [CallAddDoc year1925] "1925"
            (Some noParameters) _).
  intros key ty [[= <- <-]|[]]. discriminate.
Defined.

(** A schema with a boolean field. *)
Definition shelfSchema : Schema := [("title", "string"); ("lent", "boolean")].

Definition lentGatsby : Doc :=
  {| ref := 7;
     props := [("title", VString "The Great Gatsby");
               ("lent", VBoolean true)] |}.

Definition shelvedIliad : Doc :=
  {| ref := 8;
     props := [("title", VString "The Iliad"); ("lent", VBoolean false)] |}.

Lemma where_on_a_boolean_field_never_selects_witness :
  applyWhereClause Vultus.decimalNumber shelfSchema [lentGatsby; shelvedIliad]
                   [("lent", CPrimitive (VBoolean true))]
  = Ok [lentGatsby; shelvedIliad].
Proof.
  exact (@where_on_a_boolean_field_never_selects Vultus.decimalNumber
           shelfSchema [lentGatsby; shelvedIliad] "lent"
           (CPrimitive (VBoolean true)) Logic.eq_refl).
Defined.

Lemma where_eq_and_inc_witness :
  applyWhereClause Vultus.decimalNumber bookSchema [gatsby; expectations]
                   [("title", incCondition (VString "Gatsby"))]
  = Ok (filter (fun doc => match prop doc "title" with
                           | Some (VString s) => includes s "Gatsby"
                           | _ => false
                           end) [gatsby; expectations]).
Proof.
  refine (proj2 (@where_eq_and_inc Vultus.decimalNumber bookSchema
                   [gatsby; expectations] "title" "string" Logic.eq_refl
                   (or_intror Logic.eq_refl))
                Logic.eq_refl _ "Gatsby").
  repeat constructor.
Defined.

(** Parameters with a key that is none of [fields], [where] and [score]. *)
Definition limited : Parameters :=
  {| fieldsParam := Some [("title", {| weightParam := Some (num 3) |})];
     whereParam := None; scoreParam := None; otherParams := ["limit"] |}.

Lemma rejected_parameters_change_nothing_witness :
  exists err, flatSearch twoBooks "great" (Some limited)
              = (twoBooks, Throw err).
Proof.
  destruct (@rejected_parameters_change_nothing flatTextUtils flatScorer
              Vultus.decimalNumber twoBooks "great" limited)
    as [err [H _]].
  - intros [H _]. discriminate.
  - exists err. exact H.
Defined.

(** A score clause whose threshold is out of range. *)
Definition scoreAboveTwo : Parameters :=
  {| fieldsParam := Some [("title", {| weightParam := Some (num 3) |})];
     whereParam := None; scoreParam := Some [("gt", num 2)];
     otherParams := [] |}.

Lemma scoreAboveTwo_wellFormed : wellFormed bookSchema scoreAboveTwo.
Proof.
  split; [reflexivity|]. intros entries [= <-]. split.
  - repeat constructor. intros [].
  - intros n [<-|[]]. reflexivity.
Qed.

Lemma search_throws_after_its_side_effects_witness :
  wellFormed bookSchema scoreAboveTwo
  /\ fields (fst (flatSearch twoBooks "great" (Some scoreAboveTwo)))
     = applyWeights (weightsOf scoreAboveTwo) (fields twoBooks).
Proof.
  split; [exact scoreAboveTwo_wellFormed|].
  exact (proj1 (@search_throws_after_its_side_effects flatTextUtils
                  flatScorer Vultus.decimalNumber bookSchema loaded "great"
                  scoreAboveTwo scoreAboveTwo_wellFormed Logic.eq_refl)).
Defined.

(** The order of the code units, for [localeCompare]. *)
Definition byCodeUnits (a b : string) : Z :=
  match String.compare a b with
  | Lt => -1
  | Eq => 0
  | Gt => 1
  end%Z.

Lemma sortBy_reorders_the_cached_list_witness :
  exists (r : SearchResult) (sorted : list Hit) e2 r',
    snd (flatSearch twoBooks "great" (Some noParameters)) = Ok r
    /\ callSortBy byCodeUnits
                  (fst (flatSearch twoBooks "great" (Some noParameters)))
                  "great" noParameters r "title"
       = (e2, r', Sorted sorted)
    /\ snd (flatSearch e2 "great" (Some noParameters))
       = Ok {| count := length sorted; hits := sorted; sortBy := false |}.
Proof.
  destruct (snd (flatSearch twoBooks "great" (Some noParameters)))
    as [r|err] eqn:E; [|now vm_compute in E].
  destruct (@sortBy_reorders_the_cached_list flatTextUtils flatScorer
              Vultus.decimalNumber byCodeUnits bookSchema loaded "great"
              noParameters r "title" Logic.eq_refl Logic.eq_refl E
              Logic.eq_refl)
    as [sorted [e2 [r' [H1 [_ [_ H4]]]]]].
  exists r, sorted, e2, r'. split; [reflexivity|]. split; assumption.
Defined.

End RankExamples.

(** ** The flat engine ([src/vultus.js]): store and search

    The class [Vultus] keeps its documents in an array and scores every
    one of them for a query.  [search] looks into the query cache before it
    reads the parameters.  [console] is the trace of [console.warn]: the
    documents [addDoc] has refused.  A [where] value is a string, a number
    or a boolean; the time a search takes is left out.  [field.js] is not
    among the sources: [setWeight] is taken to store the weight it is
    given, as for the indexed engine. *)

Module FlatEngine.
Import Str Text Levenshtein Vultus.

Record Parameters : Type := {
  fieldsParam : option (list (string * Vultos.FieldParams));
  whereParam : option (list (string * Value))
}.

Definition Parameters_eq_dec (x y : Parameters) : {x = y} + {x <> y}.
Proof.
  decide equality.
  - decide equality. apply list_eq_dec. decide equality;
      [apply Value_eq_dec | apply string_dec].
  - decide equality. apply list_eq_dec. decide equality;
      [apply Vultos.FieldParams_eq_dec | apply string_dec].
Defined.

(** [JSON.stringify({ query, parameters })]; [None] is
    [parameters === undefined]. *)
Definition CacheKey : Type := string * option Parameters.

Definition CacheKey_eq_dec (x y : CacheKey) : {x = y} + {x <> y}.
Proof.
  decide equality; [decide equality; apply Parameters_eq_dec
                   | apply string_dec].
Defined.

Definition createCacheKey (query : string) (parameters : option Parameters)
  : CacheKey := (query, parameters).

Record Engine : Type := {
  schema : Schema;
  cache : JsMap.t CacheKey (list Doc);
  levenshteinCache : LevCache;
  docs : list Doc;
  fields : list Field;
  console : list Doc
}.

Definition newVultus (schema : Schema) : Engine :=
  {| schema := schema;
     cache := JsMap.empty CacheKey (list Doc);
     levenshteinCache := JsMap.empty string nat;
     docs := [];
     fields := map newField (JsMap.keys schema);
     console := [] |}.

Definition addDoc (e : Engine) (doc : Doc) : Engine :=
  if validateDoc (schema e) doc
  then {| schema := schema e; cache := cache e;
          levenshteinCache := levenshteinCache e;
          docs := docs e ++ [doc]; fields := fields e;
          console := console e |}
  else {| schema := schema e; cache := cache e;
          levenshteinCache := levenshteinCache e;
          docs := docs e; fields := fields e;
          console := console e ++ [doc] |}.

(** [#applyWhereClause]: a document stays when [doc[key] !== value] holds
    for no entry of the clause. *)
Definition applyWhereClause (docs : list Doc)
           (whereClause : list (string * Value)) : list Doc :=
  filter (fun doc =>
            forallb (fun entry =>
                       strictEq (prop doc (fst entry)) (Some (snd entry)))
                    whereClause)
         docs.

(** [#setParameters]: [if (field && fieldParams.weight)
    field.setWeight(fieldParams.weight)].  A weight of 0 is falsy. *)
Definition setParameters (fields : list Field) (parameters : Parameters)
  : list Field :=
  match fieldsParam parameters with
  | Some entries =>
      fold_left
        (fun fields entry =>
           match Vultos.weightParam (snd entry) with
           | Some w =>
               if Qceqb w 0 then fields
               else Vultos.setFieldWeight (fst entry) w fields
           | None => fields
           end)
        entries fields
  | None => fields
  end.

Inductive Result : Type :=
| Returned (e : Engine) (results : list Doc)
| Thrown (e : Engine) (err : Error)
| Diverged.

Section WithLists.
Context {L : Lists}.
Variable Number : string -> option Qc.

(** [filteredDocs.map(doc => ({ doc, score: this.#calculateScore(...) }))] *)
Fixpoint scoreAll (schema : Schema) (fields : list Field)
         (queryWords : list string) (docs : list Doc)
  : M (list Vultos.Hit) :=
  match docs with
  | [] => ret []
  | doc :: rest =>
      score <- calculateScore Number schema fields doc queryWords ;;
      scoredDocs <- scoreAll schema fields queryWords rest ;;
      ret ({| Vultos.score := score; Vultos.document := doc |} :: scoredDocs)
  end.

Definition search (e : Engine) (query : string)
           (parameters : option Parameters) : Result :=
  let cacheKey := createCacheKey query parameters in
  match JsMap.get CacheKey_eq_dec cacheKey (cache e) with
  | Some results => Returned e results
  | None =>
      let fields' :=
        match parameters with
        | Some p => setParameters (fields e) p
        | None => fields e
        end in
      let queryWords := split (toLowerCase query) in
      let filteredDocs :=
        match parameters with
        | Some p =>
            match whereParam p with
            | Some whereClause => applyWhereClause (docs e) whereClause
            | None => docs e
            end
        | None => docs e
        end in
      match scoreAll (schema e) fields' queryWords filteredDocs
                     (levenshteinCache e) with
      | Ret scoredDocs c =>
          let scoredDocs :=
            Vultos.sortHits
              (filter (fun item => Qcltb 0 (Vultos.score item)) scoredDocs) in
          let sortedDocs :=
            map Vultos.document (Vultos.uniqueHits scoredDocs) in
          Returned
            {| schema := schema e;
               cache := JsMap.set CacheKey_eq_dec cacheKey sortedDocs
                                  (cache e);
               levenshteinCache := c;
               docs := docs e; fields := fields'; console := console e |}
            sortedDocs
      | Exn err c =>
          Thrown {| schema := schema e; cache := cache e;
                    levenshteinCache := c;
                    docs := docs e; fields := fields';
                    console := console e |} err
      | Loop => Diverged
      end
  end.

(** *** Histories of calls *)

Inductive Call : Type :=
| CallAddDoc (doc : Doc)
| CallSearch (query : string) (parameters : option Parameters).

(** The engine after a call; a call that does not return has no
    successor, and the engine is left as it is. *)
Definition after (e : Engine) (call : Call) : Engine :=
  match call with
  | CallAddDoc doc => addDoc e doc
  | CallSearch query parameters =>
      match search e query parameters with
      | Returned e' _ => e'
      | Thrown e' _ => e'
      | Diverged => e
      end
  end.

Definition afterAll (e : Engine) (calls : list Call) : Engine :=
  fold_left after calls e.

End WithLists.
End FlatEngine.

(** ** Facts about the flat engine *)

Module FlatFacts.
Import Str Text Levenshtein Vultus PhraseFacts FlatEngine.
Import VultosFacts RankFacts.

Section WithLists.
Context {L : Lists}.
Variable Number : string -> option Qc.

(** Every stored document is accepted by the schema. *)
Record flatInv (sch : Schema) (e : Engine) : Prop := {
  flatInv_schema : schema e = sch;
  flatInv_docs : Forall (fun doc => validateDoc sch doc = true) (docs e)
}.

Lemma scoreAll_returns sch fs queryWords ds : forall c,
  Forall (fun doc => validateDoc sch doc = true) ds ->
  exists scoredDocs c',
    scoreAll Number sch fs queryWords ds c = Ret scoredDocs c'
    /\ map Vultos.document scoredDocs = ds.
Proof.
  induction ds as [|d ds IH]; intros c Hv; simpl.
  - exists [], c. auto.
  - inversion Hv as [|? ? Hd Hds]; subst. unfold bind.
    destruct (@calculateScore_returns L Number sch fs d queryWords c Hd)
      as [s [c1 ->]].
    destruct (IH c1 Hds) as [hs [c2 [-> Hm]]].
    exists ({| Vultos.score := s; Vultos.document := d |} :: hs), c2.
    split; [reflexivity|]. simpl. now rewrite Hm.
Qed.

Lemma applyWhereClause_In ds w doc :
  In doc (applyWhereClause ds w)
  <-> In doc ds
      /\ forall key v, In (key, v) w -> prop doc key = Some v.
Proof.
  unfold applyWhereClause. rewrite filter_In, forallb_forall.
  split; intros [H1 H2]; (split; [assumption|]).
  - intros key v Hin. specialize (H2 _ Hin). simpl in H2.
    unfold strictEq in H2. destruct (prop doc key) as [x|]; [|discriminate].
    destruct (Value_eq_dec x v); congruence.
  - intros [key v] Hin. simpl. rewrite (H2 key v Hin).
    apply IndexFacts.strictEq_refl.
Qed.

(** The documents [search] would score. *)
Definition filteredDocs (e : Engine) (parameters : option Parameters)
  : list Doc :=
  match parameters with
  | Some p =>
      match whereParam p with
      | Some whereClause => applyWhereClause (docs e) whereClause
      | None => docs e
      end
  | None => docs e
  end.

Lemma filteredDocs_incl e parameters :
  incl (filteredDocs e parameters) (docs e).
Proof.
  unfold filteredDocs. destruct parameters as [p|]; [|intros x Hx; exact Hx].
  destruct (whereParam p) as [w|]; [|intros x Hx; exact Hx].
  intros x Hx. now apply applyWhereClause_In in Hx as [Hx _].
Qed.

(** What a search that computes returns and leaves. *)
Lemma search_miss sch e query parameters :
  flatInv sch e ->
  JsMap.get CacheKey_eq_dec (createCacheKey query parameters) (cache e)
  = None ->
  exists e' results,
    search Number e query parameters = Returned e' results
    /\ JsMap.get CacheKey_eq_dec (createCacheKey query parameters) (cache e')
       = Some results
    /\ (forall key, key <> createCacheKey query parameters ->
                      JsMap.get CacheKey_eq_dec key (cache e')
                      = JsMap.get CacheKey_eq_dec key (cache e))
    /\ schema e' = schema e /\ docs e' = docs e /\ console e' = console e
    /\ incl results (filteredDocs e parameters)
    /\ NoDup (map props results).
Proof.
  intros [Hs Hd] Hmiss. unfold search. rewrite Hmiss.
  fold (filteredDocs e parameters).
  assert (Hv : Forall (fun doc => validateDoc (schema e) doc = true)
                      (filteredDocs e parameters)).
  { rewrite Hs. apply Forall_forall. intros x Hx.
    apply filteredDocs_incl in Hx. rewrite Forall_forall in Hd. auto. }
  destruct (@scoreAll_returns (schema e)
              (match parameters with
               | Some p => setParameters (fields e) p
               | None => fields e
               end)
              (split (toLowerCase query)) (filteredDocs e parameters)
              (levenshteinCache e) Hv) as [hs [c' [-> Hm]]].
  eexists _, _. split; [reflexivity|]. simpl.
  split; [apply JsMap.get_set_same|].
  split.
  { intros key Hk. apply JsMap.get_set_other. congruence. }
  split; [reflexivity|]. split; [reflexivity|]. split; [reflexivity|].
  rewrite uniqueHits_unseen. split.
  - intros d Hin. apply in_map_iff in Hin as [h [<- Hh]].
    apply unseen_In in Hh as [Hh _].
    apply In_sortHits, filter_In in Hh as [Hh _].
    rewrite <- Hm. now apply in_map.
  - rewrite map_map. apply (unseen_NoDup _ []).
Qed.

Lemma search_hit e query parameters results :
  JsMap.get CacheKey_eq_dec (createCacheKey query parameters) (cache e)
  = Some results ->
  search Number e query parameters = Returned e results.
Proof. intros H. unfold search. now rewrite H. Qed.

Lemma flat_addDoc_inv sch e doc : flatInv sch e -> flatInv sch (addDoc e doc).
Proof.
  intros [Hs Hd]. unfold addDoc.
  destruct (validateDoc (schema e) doc) eqn:E; constructor; simpl; auto.
  apply Forall_app. split; [assumption|]. constructor; [|constructor].
  now rewrite <- Hs.
Qed.

Lemma flat_after_inv sch e call :
  flatInv sch e -> flatInv sch (after Number e call).
Proof.
  intros Hinv. destruct call as [doc|query parameters]; simpl.
  - now apply flat_addDoc_inv.
  - destruct (JsMap.get CacheKey_eq_dec (createCacheKey query parameters)
                        (cache e)) as [results|] eqn:E.
    + now rewrite (search_hit E).
    + destruct (search_miss Hinv E)
        as [e' [results [-> [_ [_ [Hs [Hd _]]]]]]].
      destruct Hinv as [Hs0 Hd0]. constructor; congruence.
Qed.

Lemma flat_afterAll_inv sch calls : forall e,
  flatInv sch e -> flatInv sch (afterAll Number e calls).
Proof.
  unfold afterAll. induction calls as [|c calls IH]; intros e Hinv; simpl;
    auto.
  apply IH. now apply flat_after_inv.
Qed.

Lemma newVultus_inv sch : flatInv sch (newVultus sch).
Proof. constructor; simpl; auto. Qed.

Lemma flat_reachable_inv sch calls :
  flatInv sch (afterAll Number (newVultus sch) calls).
Proof. apply flat_afterAll_inv, newVultus_inv. Qed.

(** An entry of the query cache stays. *)
Lemma flat_after_keeps sch e call key results :
  flatInv sch e ->
  JsMap.get CacheKey_eq_dec key (cache e) = Some results ->
  JsMap.get CacheKey_eq_dec key (cache (after Number e call)) = Some results.
Proof.
  intros Hinv Hk. destruct call as [doc|query parameters]; simpl.
  - unfold addDoc. destruct (validateDoc (schema e) doc); exact Hk.
  - destruct (JsMap.get CacheKey_eq_dec (createCacheKey query parameters)
                        (cache e)) as [rs|] eqn:E.
    + now rewrite (search_hit E).
    + destruct (search_miss Hinv E) as [e' [rs [-> [_ [Hother _]]]]].
      rewrite Hother; [exact Hk | congruence].
Qed.

Lemma flat_afterAll_keeps sch calls : forall e key results,
  flatInv sch e ->
  JsMap.get CacheKey_eq_dec key (cache e) = Some results ->
  JsMap.get CacheKey_eq_dec key (cache (afterAll Number e calls))
  = Some results.
Proof.
  unfold afterAll.
  induction calls as [|c calls IH]; intros e key results Hinv Hk; simpl; auto.
  apply IH; [now apply flat_after_inv|].
  now apply flat_after_keeps with (sch := sch).
Qed.

End WithLists.
End FlatFacts.

(** ** Properties of the flat engine *)

Section FlatProperties.
Import Str Text Levenshtein Vultus FlatEngine FlatFacts.
Context {L : Lists}.
Variable Number : string -> option Qc.

(** The flat engine refuses a document without throwing.  [addDoc] on a
    document that does not match the schema leaves the store as it is and
    warns on the console; on a matching document it appends it.  After any
    history of calls every stored document matches the schema. *)
Theorem flat_addDoc_warns_and_keeps_the_store_valid
        (sch : Schema) (calls : list Call) (doc : Doc) :
  let e := afterAll Number (newVultus sch) calls in
  Forall (fun stored => validateDoc sch stored = true) (docs e)
  /\ (validateDoc sch doc = false ->
      docs (addDoc e doc) = docs e
      /\ console (addDoc e doc) = console e ++ [doc])
  /\ (validateDoc sch doc = true ->
      docs (addDoc e doc) = docs e ++ [doc]
      /\ console (addDoc e doc) = console e).
Proof.
  intros e. destruct (flat_reachable_inv Number sch calls) as [Hs Hd].
  fold e in Hs, Hd. split; [exact Hd|].
  unfold addDoc. rewrite Hs.
  split; intros ->; simpl; auto.
Qed.

(** [search] of the flat engine always returns: on an engine built by
    [addDoc] and [search] it neither throws nor runs forever, whatever the
    query and the parameters, omitted parameters included.  Every document
    it returns when it computes is a stored document that holds, under
    every key of the where clause, the value the clause gives, and no two
    returned documents have the same contents. *)
Theorem flat_search_returns_stored_documents
        (sch : Schema) (calls : list Call) (query : string)
        (parameters : option Parameters) :
  let e := afterAll Number (newVultus sch) calls in
  exists e' results,
    search Number e query parameters = Returned e' results
    /\ docs e' = docs e
    /\ (JsMap.get CacheKey_eq_dec (createCacheKey query parameters) (cache e)
        = None ->
        NoDup (map props results)
        /\ forall doc,
             In doc results ->
             In doc (docs e)
             /\ forall p whereClause key v,
                  parameters = Some p -> whereParam p = Some whereClause ->
                  In (key, v) whereClause -> prop doc key = Some v).
Proof.
  intros e. pose proof (flat_reachable_inv Number sch calls) as Hinv.
  fold e in Hinv.
  destruct (JsMap.get CacheKey_eq_dec (createCacheKey query parameters)
                      (cache e)) as [results|] eqn:E.
  - exists e, results. rewrite (search_hit Number E).
    split; [reflexivity|]. split; [reflexivity | discriminate].
  - destruct (search_miss Number Hinv E)
      as [e' [results [Hr [_ [_ [_ [Hd [_ [Hincl Hnd]]]]]]]]].
    exists e', results. split; [exact Hr|]. split; [exact Hd|].
    intros _. split; [exact Hnd|]. intros doc Hin.
    pose proof (Hincl doc Hin) as Hf. split.
    + now apply filteredDocs_incl in Hf.
    + intros p w key v -> Hw Hkv. unfold filteredDocs in Hf.
      rewrite Hw in Hf. apply applyWhereClause_In in Hf as [_ Hf]. eauto.
Qed.

(** The query cache of the flat engine is never invalidated, and it is
    read before the parameters.  Once a search has returned, the same
    query under the same parameters returns the same documents after any
    further calls, and the repeated call leaves the engine untouched: it
    sets no weight. *)
Theorem flat_repeated_search_is_answered_from_the_cache
        (sch : Schema) (calls later : list Call) (query : string)
        (parameters : option Parameters) (e1 : Engine) (results : list Doc) :
  let e := afterAll Number (newVultus sch) calls in
  search Number e query parameters = Returned e1 results ->
  let e2 := afterAll Number e1 later in
  search Number e2 query parameters = Returned e2 results.
Proof.
  intros e Hr e2. pose proof (flat_reachable_inv Number sch calls) as Hinv.
  fold e in Hinv.
  assert (H1 : flatInv sch e1
               /\ JsMap.get CacheKey_eq_dec (createCacheKey query parameters)
                            (cache e1) = Some results).
  { destruct (JsMap.get CacheKey_eq_dec (createCacheKey query parameters)
                        (cache e)) as [rs|] eqn:E.
    - rewrite (search_hit Number E) in Hr. injection Hr as <- <-. auto.
    - destruct (search_miss Number Hinv E)
        as [e' [rs [Hr' [Hk [_ [Hs [Hd _]]]]]]].
      rewrite Hr' in Hr. injection Hr as <- <-. split; [|exact Hk].
      destruct Hinv as [Hs0 Hd0]. constructor; congruence. }
  destruct H1 as [Hinv1 Hk].
  apply search_hit. unfold e2. now apply flat_afterAll_keeps with (sch := sch).
Qed.

End FlatProperties.

(** ** More about the scorer of the flat engine *)

Module MemoFacts.
Import Str Text Stemmer Levenshtein EditDistance Vultus ScoreFacts PhraseFacts.
Local Open Scope Qc_scope.

(** *** Words without the separator of the memo keys *)

Definition clean (s : string) : Prop := sepFree s = true.

Lemma clean_iff s :
  clean s <-> Forall (fun c => Ascii.eqb c sep = false) (chars s).
Proof.
  split; [apply sepFree_chars|].
  intros H. unfold clean. rewrite <- (ofChars_chars s).
  now apply sepFree_ofChars.
Qed.

Lemma clean_append a b : clean a -> clean b -> clean (a ++ b)%string.
Proof.
  rewrite !clean_iff, chars_append. intros Ha Hb. apply Forall_app. auto.
Qed.

Lemma clean_dropEnd n w : clean w -> clean (dropEnd n w).
Proof.
  rewrite !clean_iff. unfold dropEnd. rewrite chars_ofChars.
  intros H. apply Forall_rev. rewrite Forall_forall in *.
  intros c Hc. apply In_skipn, in_rev in Hc. auto.
Qed.

Lemma clean_replaceEnd alternatives replacement w :
  clean w -> clean replacement ->
  clean (replaceEnd alternatives replacement w).
Proof.
  intros Hw Hr. unfold replaceEnd.
  destruct (matchEnd alternatives w); [|assumption].
  apply clean_append; [now apply clean_dropEnd | assumption].
Qed.

Lemma clean_dropPluralS w : clean w -> clean (dropPluralS w).
Proof.
  intros H. unfold dropPluralS.
  destruct (rev (chars w)) as [|s [|c l]]; try assumption.
  destruct (_ && _); [now apply clean_dropEnd | assumption].
Qed.

Section WithLists.
Context {L : Lists}.
Variable Number : string -> option Qc.

(** No replacement of the suffix table brings the separator in. *)
Definition cleanLists : Prop :=
  Forall (fun entry => clean (snd entry)) list_2_3.

Lemma clean_stemmer w : cleanLists -> clean w -> clean (stemmer w).
Proof.
  intros HL Hw. unfold stemmer.
  set (w1 := dropPluralS (replaceEnd ["sses"; "ies"]%string "ss" w)).
  assert (H1 : clean w1).
  { apply clean_dropPluralS, clean_replaceEnd; [assumption | reflexivity]. }
  set (w2 := if testEnd ["eed"; "eedly"]%string w1 then _ else _).
  assert (H2 : clean w2).
  { unfold w2. destruct (testEnd ["eed"; "eedly"]%string w1).
    - apply clean_replaceEnd; [assumption | reflexivity].
    - destruct (testEnd reEdIngLy w1); [|assumption].
      assert (Hb : clean (replaceEnd reEdIngLy "" w1))
        by (apply clean_replaceEnd; [assumption | reflexivity]).
      destruct (testEnd reAtBlIz _).
      { apply clean_append; [assumption | reflexivity]. }
      destruct (reDoubleConsonant _); [now apply clean_dropEnd|].
      destruct (reCvc _); [|assumption].
      apply clean_append; [assumption | reflexivity]. }
  set (w3 := replaceEnd ["y"; "Y"]%string "i" w2).
  assert (H3 : clean w3)
    by (apply clean_replaceEnd; [assumption | reflexivity]).
  destruct (find _ list_2_3) as [[suffix replacement]|] eqn:E.
  - apply find_some in E as [Hin _]. unfold cleanLists in HL.
    rewrite Forall_forall in HL. specialize (HL _ Hin). simpl in HL.
    apply clean_append; [now apply clean_dropEnd | assumption].
  - destruct (find _ list_4); [now apply clean_dropEnd|].
    apply clean_replaceEnd; [|reflexivity].
    apply clean_replaceEnd; [assumption | reflexivity].
Qed.

Lemma clean_splitFrom s : forall cur inRun,
  Forall (fun c => Ascii.eqb c sep = false) cur ->
  Forall (fun c => Ascii.eqb c sep = false) s ->
  Forall clean (splitFrom cur inRun s).
Proof.
  induction s as [|c s IH]; intros cur inRun Hc Hs; simpl.
  - constructor; [|constructor]. apply clean_iff. rewrite chars_ofChars.
    now apply Forall_rev.
  - inversion Hs as [|? ? H1 H2]; subst.
    destruct (isSpace c).
    + destruct inRun; [now apply IH|].
      constructor; [|now apply IH].
      apply clean_iff. rewrite chars_ofChars. now apply Forall_rev.
    + apply IH; [now constructor | assumption].
Qed.

Lemma clean_split s : clean s -> Forall clean (split s).
Proof.
  intros H. apply clean_splitFrom; [constructor | now apply clean_iff].
Qed.

(** *** Two runs from two sound memo tables *)

Definition agree (A : Type) (r r' : run A) : Prop :=
  match r, r' with
  | Ret a c, Ret a' c' => a = a' /\ sound c /\ sound c'
  | Exn e c, Exn e' c' => e = e' /\ sound c /\ sound c'
  | Loop, Loop => True
  | _, _ => False
  end.

Lemma agree_distance (A : Type) a b (k : nat -> M A) c c' :
  clean a -> clean b -> sound c -> sound c' ->
  (forall d c1 c1', sound c1 -> sound c1' -> agree (k d c1) (k d c1')) ->
  agree ((d <- levenshteinDistance a b ;; k d) c)
        ((d <- levenshteinDistance a b ;; k d) c').
Proof.
  intros Ha Hb Hc Hc' Hk. unfold bind, levenshteinDistance.
  pose proof (levenshteinDistance_sound Hc Ha Hb) as E.
  pose proof (levenshteinDistance_sound Hc' Ha Hb) as E'.
  pose proof (@sound_step a b c Hc) as S1.
  pose proof (@sound_step a b c' Hc') as S1'.
  destruct (Levenshtein.levenshteinDistance a b c) as [d c1].
  destruct (Levenshtein.levenshteinDistance a b c') as [d' c1'].
  simpl in *. subst d d'. now apply Hk.
Qed.

Lemma agree_forEach (X : Type) (Q : X -> Prop) (l : list X)
      (body : X -> Qc -> M Qc) :
  Forall Q l ->
  (forall x s c c', Q x -> sound c -> sound c' ->
                    agree (body x s c) (body x s c')) ->
  forall s c c', sound c -> sound c' ->
                 agree (forEach l body s c) (forEach l body s c').
Proof.
  intros Hl Hb. induction Hl as [|x l Hx _ IH]; intros s c c' Hc Hc'; simpl.
  - auto.
  - unfold bind. specialize (Hb x s c c' Hx Hc Hc').
    destruct (body x s c) as [s1 c1|e1 c1|], (body x s c') as [s2 c2|e2 c2|];
      simpl in Hb; try contradiction; auto.
    destruct Hb as [<- [H1 H2]]. now apply IH.
Qed.

Lemma agree_bind (A B : Type) (m : M A) (k : A -> M B) c c' :
  agree (m c) (m c') ->
  (forall a c1 c1', sound c1 -> sound c1' -> agree (k a c1) (k a c1')) ->
  agree ((a <- m ;; k a) c) ((a <- m ;; k a) c').
Proof.
  intros H Hk. unfold bind.
  destruct (m c) as [a c1|e c1|], (m c') as [a' c1'|e' c1'|];
    simpl in *; try contradiction; auto.
  destruct H as [<- [H1 H2]]. now apply Hk.
Qed.

Lemma agree_phraseLoop fieldContent fullQuery w :
  clean fieldContent -> clean fullQuery ->
  forall fuel i s c c',
    sound c -> sound c' ->
    agree (phraseLoop fuel fieldContent fullQuery w i s c)
          (phraseLoop fuel fieldContent fullQuery w i s c').
Proof.
  intros Hf Hq. induction fuel as [|fuel IH]; intros i s c c' Hc Hc'; simpl;
    auto.
  destruct (_ <=? _)%Z; [|simpl; auto].
  apply agree_distance; auto.
  - now apply substring_sepFree.
  - intros d c1 c1' H1 H1'. destruct (d <? 3)%nat; now apply IH.
Qed.

Lemma agree_calculateWordScore text queryWords w c c' :
  cleanLists -> sound c -> sound c' ->
  agree (calculateWordScore (sanitizeText text) queryWords w c)
        (calculateWordScore (sanitizeText text) queryWords w c').
Proof.
  intros HL Hc Hc'. unfold calculateWordScore.
  apply agree_forEach with (Q := clean); auto.
  - apply Forall_forall. intros x Hx. apply in_map_iff in Hx as [q [<- _]].
    apply clean_stemmer; [assumption | apply sanitizeText_sepFree].
  - intros word s c0 c0' Hw H0 H0'.
    apply agree_forEach with (Q := clean); auto.
    + apply Forall_forall. intros x Hx. apply in_map_iff in Hx as [q [<- Hq]].
      apply clean_stemmer; [assumption|].
      pose proof (clean_split (sanitizeText_sepFree text)) as Hs.
      rewrite Forall_forall in Hs. auto.
    + intros fieldWord s1 c1 c1' Hfw H1 H1'.
      apply agree_distance; auto.
      intros d c2 c2' H2 H2'. simpl. auto.
Qed.

Lemma agree_scoreString fieldContent queryWords w s c c' :
  cleanLists -> sound c -> sound c' ->
  agree (scoreString fieldContent queryWords w s c)
        (scoreString fieldContent queryWords w s c').
Proof.
  intros HL Hc Hc'. unfold scoreString.
  destruct fieldContent as [text| |]; try (simpl; auto; fail).
  apply agree_bind.
  - destruct (1 <? length queryWords)%nat; [|simpl; auto].
    apply agree_bind.
    + unfold calculatePhraseScore.
      apply agree_phraseLoop; auto; apply sanitizeText_sepFree.
    + intros p c1 c1' H1 H1'. simpl. auto.
  - intros s1 c1 c1' H1 H1'. apply agree_bind.
    + now apply agree_calculateWordScore.
    + intros p c2 c2' H2 H2'. simpl. auto.
Qed.

Lemma agree_calculateScore schema fields doc queryWords c c' :
  cleanLists -> sound c -> sound c' ->
  agree (calculateScore Number schema fields doc queryWords c)
        (calculateScore Number schema fields doc queryWords c').
Proof.
  intros HL Hc Hc'. unfold calculateScore.
  apply agree_forEach with (Q := fun _ => True); auto.
  - apply Forall_forall. auto.
  - intros f s c0 c0' _ H0 H0'. unfold scoreField.
    destruct (prop doc (name f)) as [content|]; [|simpl; auto].
    destruct (schemaType schema (name f)) as [ty|]; [|simpl; auto].
    destruct (String.eqb ty "string"); [now apply agree_scoreString|].
    destruct (String.eqb ty "number"); [simpl; auto|].
    destruct (String.eqb ty "boolean"); simpl; auto.
Qed.

(** *** Scores are not negative *)

Definition holds (P : Qc -> Prop) (r : run Qc) : Prop :=
  match r with
  | Ret s _ => P s
  | _ => True
  end.

Definition nonneg (s : Qc) : Prop := 0 <= s.

Lemma holds_forEach (X : Type) (P : Qc -> Prop) (l : list X)
      (body : X -> Qc -> M Qc) :
  (forall x s c, P s -> holds P (body x s c)) ->
  forall s c, P s -> holds P (forEach l body s c).
Proof.
  intros Hb. induction l as [|x l IH]; intros s c Hs; simpl; auto.
  unfold bind. specialize (Hb x s c Hs).
  destruct (body x s c) as [s1 c1|e1 c1|]; simpl in *; auto.
Qed.

Lemma holds_bind (P Q : Qc -> Prop) (m : M Qc) (k : Qc -> M Qc) c :
  holds P (m c) -> (forall a c1, P a -> holds Q (k a c1)) ->
  holds Q ((a <- m ;; k a) c).
Proof.
  intros H Hk. unfold bind.
  destruct (m c) as [a c1|e c1|]; simpl in *; auto.
Qed.

Lemma nonneg_plus s p : nonneg s -> nonneg p -> nonneg (s + p).
Proof.
  unfold nonneg. intros Hs Hp. rewrite <- (Qcplus_0_l 0).
  now apply Qcplus_le_compat.
Qed.

Lemma nonneg_phrase_award w d : nonneg w -> nonneg (w * num 5 / (ofNat d + 1)).
Proof.
  unfold nonneg. intros Hw.
  pose proof (@phrase_award_mono 0 w d Hw) as H.
  unfold Qcdiv in H. rewrite !Qcmult_0_l in H. exact H.
Qed.

Lemma nonneg_word_award w d : nonneg w -> nonneg (w / (ofNat d + 1)).
Proof.
  unfold nonneg. intros Hw.
  pose proof (@word_award_mono 0 w d Hw) as H.
  unfold Qcdiv in H. rewrite !Qcmult_0_l in H. exact H.
Qed.

Lemma nonneg_phraseLoop fieldContent fullQuery w :
  nonneg w ->
  forall fuel i s c,
    nonneg s -> holds nonneg (phraseLoop fuel fieldContent fullQuery w i s c).
Proof.
  intros Hw. induction fuel as [|fuel IH]; intros i s c Hs; simpl; auto.
  destruct (_ <=? _)%Z; [|exact Hs].
  unfold bind, levenshteinDistance.
  destruct (Levenshtein.levenshteinDistance _ _ c) as [d c1].
  destruct (d <? 3)%nat; apply IH; auto.
  apply nonneg_plus; [assumption | now apply nonneg_phrase_award].
Qed.

Lemma nonneg_calculateWordScore fieldContent queryWords w c :
  nonneg w -> holds nonneg (calculateWordScore fieldContent queryWords w c).
Proof.
  intros Hw. unfold calculateWordScore.
  apply holds_forEach; [|apply Qcle_refl].
  intros word s c0 Hs. apply holds_forEach; [|assumption].
  intros fieldWord s1 c1 Hs1. unfold bind, levenshteinDistance.
  destruct (Levenshtein.levenshteinDistance _ _ c1) as [d c2]. simpl.
  destruct (d <? 3)%nat; [|assumption].
  apply nonneg_plus; [assumption | now apply nonneg_word_award].
Qed.

Lemma nonneg_calculateNumberScore fieldContent queryWords w :
  nonneg w -> nonneg (calculateNumberScore Number fieldContent queryWords w).
Proof.
  intros Hw. unfold calculateNumberScore.
  assert (G : forall s, nonneg s ->
                nonneg (fold_left
                          (fun score queryWord =>
                             match Number queryWord, fieldContent with
                             | Some n, VNumber x =>
                                 if Qceqb n x then score + w else score
                             | _, _ => score
                             end) queryWords s)).
  { induction queryWords as [|q qs IH]; intros s Hs; simpl; auto.
    apply IH. destruct (Number q); [|assumption].
    destruct fieldContent; try assumption.
    destruct (Qceqb q0 n); [now apply nonneg_plus | assumption]. }
  apply G, Qcle_refl.
Qed.

Lemma nonneg_calculateBooleanScore fieldContent queryWords w :
  nonneg w -> nonneg (calculateBooleanScore fieldContent queryWords w).
Proof.
  intros Hw. unfold calculateBooleanScore.
  assert (G : forall l s, nonneg s ->
                nonneg (fold_left
                          (fun score (queryWord : option bool) =>
                             match queryWord, fieldContent with
                             | Some q, VBoolean x =>
                                 if Bool.eqb q x then score + w else score
                             | _, _ => score
                             end) l s)).
  { induction l as [|q qs IH]; intros s Hs; simpl; auto.
    apply IH. destruct q; [|assumption].
    destruct fieldContent; try assumption.
    destruct (Bool.eqb b b0); [now apply nonneg_plus | assumption]. }
  apply G, Qcle_refl.
Qed.

Lemma nonneg_weightOrOne f : nonneg (weight f) -> nonneg (weightOrOne f).
Proof.
  intros H. unfold weightOrOne. destruct (Qceqb (weight f) 0); [|assumption].
  apply one_nonneg.
Qed.

Lemma nonneg_scoreField schema doc queryWords f s c :
  nonneg (weight f) -> nonneg s ->
  holds nonneg (scoreField Number schema doc queryWords f s c).
Proof.
  intros Hf Hs. apply nonneg_weightOrOne in Hf. unfold scoreField.
  destruct (prop doc (name f)) as [content|]; [|exact Hs].
  destruct (schemaType schema (name f)) as [ty|]; [|exact Hs].
  destruct (String.eqb ty "string").
  { unfold scoreString. destruct content as [text| |]; try exact I.
    apply holds_bind with (P := nonneg).
    - destruct (1 <? length queryWords)%nat; [|exact Hs].
      apply holds_bind with (P := nonneg).
      + unfold calculatePhraseScore.
        apply nonneg_phraseLoop; [assumption | apply Qcle_refl].
      + intros p c1 Hp. simpl. now apply nonneg_plus.
    - intros s1 c1 Hs1. apply holds_bind with (P := nonneg).
      + now apply nonneg_calculateWordScore.
      + intros p c2 Hp. simpl. now apply nonneg_plus. }
  destruct (String.eqb ty "number").
  { simpl. apply nonneg_plus; [assumption|].
    now apply nonneg_calculateNumberScore. }
  destruct (String.eqb ty "boolean"); [|exact Hs].
  simpl. apply nonneg_plus; [assumption|].
  now apply nonneg_calculateBooleanScore.
Qed.

Lemma nonneg_calculateScore schema fields doc queryWords c :
  Forall (fun f => nonneg (weight f)) fields ->
  holds nonneg (calculateScore Number schema fields doc queryWords c).
Proof.
  intros Hf. unfold calculateScore.
  assert (G : forall s c, nonneg s ->
                holds nonneg
                      (forEach fields (scoreField Number schema doc queryWords)
                               s c)).
  { induction Hf as [|f fs Hw _ IH]; intros s c0 Hs; simpl; auto.
    unfold bind.
    pose proof (@nonneg_scoreField schema doc queryWords f s c0 Hw Hs) as H.
    destruct (scoreField Number schema doc queryWords f s c0)
      as [s1 c1|e c1|]; simpl in *; auto. }
  apply G, Qcle_refl.
Qed.

(** *** The word score as a sum *)

(** What a pair of words at distance [d] earns under the weight [w]. *)
Definition award (w : Qc) (d : nat) : Qc :=
  if (d <? 3)%nat then w / (ofNat d + 1) else 0.

Fixpoint total (X : Type) (g : X -> Qc) (l : list X) : Qc :=
  match l with
  | [] => 0
  | x :: l' => g x + total g l'
  end.

Lemma forEach_total (X : Type) (Q : X -> Prop) (g : X -> Qc) (l : list X)
      (body : X -> Qc -> M Qc) :
  Forall Q l ->
  (forall x s c, Q x -> sound c ->
                 exists c', body x s c = Ret (s + g x) c' /\ sound c') ->
  forall s c, sound c ->
              exists c', forEach l body s c = Ret (s + total g l) c'
                         /\ sound c'.
Proof.
  intros Hl Hb. induction Hl as [|x l Hx _ IH]; intros s c Hc; simpl.
  - exists c. split; [|assumption]. unfold ret. f_equal. ring.
  - unfold bind. destruct (Hb x s c Hx Hc) as [c1 [-> H1]].
    destruct (IH (s + g x) c1 H1) as [c2 [-> H2]].
    exists c2. split; [|assumption]. f_equal. ring.
Qed.

Lemma award_nonneg w d : nonneg w -> nonneg (award w d).
Proof.
  intros Hw. unfold award. destruct (d <? 3)%nat; [|apply Qcle_refl].
  now apply nonneg_word_award.
Qed.

Lemma award_0 w : award w 0 = w.
Proof.
  unfold award. simpl. unfold Qcdiv.
  replace (ofNat 0 + 1) with 1 by (apply Qc_is_canon; reflexivity).
  replace (/ 1) with 1 by (apply Qc_is_canon; reflexivity). ring.
Qed.

Lemma total_nonneg (X : Type) (g : X -> Qc) l :
  (forall x, nonneg (g x)) -> nonneg (total g l).
Proof.
  intros Hg. induction l as [|x l IH]; simpl; [apply Qcle_refl|].
  now apply nonneg_plus.
Qed.

Lemma total_In (X : Type) (g : X -> Qc) l x :
  (forall y, nonneg (g y)) -> In x l -> g x <= total g l.
Proof.
  intros Hg. induction l as [|y l IH]; simpl; [tauto|].
  intros [->|Hin].
  - rewrite <- (Qcplus_0_r (g x)) at 1.
    apply Qcplus_le_compat; [apply Qcle_refl | now apply total_nonneg].
  - rewrite <- (Qcplus_0_l (g x)).
    apply Qcplus_le_compat; [apply Hg | now apply IH].
Qed.

Lemma tableDistance_same a : tableDistance a a = 0%nat.
Proof. rewrite tableDistance_dist. now apply DistanceFacts.dist_zero. Qed.

(** *** Counting the query words that match a number or a boolean *)

Lemma ofNat_S n : ofNat (S n) = ofNat n + 1.
Proof.
  unfold ofNat, num, Qcplus. apply Q2Qc_eq_iff.
  change (this 1) with 1%Q. cbn [this Q2Qc]. setoid_rewrite Qred_correct.
  rewrite Nat2Z.inj_succ. unfold Qeq, Qplus, inject_Z. simpl. lia.
Qed.

End WithLists.
End MemoFacts.

Section ScoreProperties.
Import Str Text Stemmer Levenshtein EditDistance Vultus ScoreFacts PhraseFacts.
Import MemoFacts.
Local Open Scope Qc_scope.
Context {L : Lists}.
Variable Number : string -> option Qc.

(** The scorer is total on the documents the schema accepts: it returns a
    score, it does not throw, and the phrase loop ends.  With no negative
    weight the score is not negative. *)
Theorem score_is_total_and_not_negative
        (schema : Schema) (fields : list Field) (doc : Doc)
        (queryWords : list string) (c : LevCache) :
  validateDoc schema doc = true ->
  Forall (fun f => 0 <= weight f) fields ->
  exists s c',
    calculateScore Number schema fields doc queryWords c = Ret s c'
    /\ 0 <= s.
Proof.
  intros Hv Hf.
  destruct (@calculateScore_returns L Number schema fields doc queryWords c Hv)
    as [s [c' E]].
  exists s, c'. split; [exact E|].
  pose proof (@nonneg_calculateScore L Number schema fields doc queryWords c Hf)
    as H.
  now rewrite E in H.
Qed.

(** The memo table of the edit distance does not change a score.  On
    every sound table, which the empty table is and which the scorer leaves
    sound, the scorer returns for a document the score it returns on the
    empty table.  The replacements of the suffix table of the stemmer are
    taken to hold no ':'. *)
Theorem memo_does_not_change_the_score
        (schema : Schema) (fields : list Field) (doc : Doc)
        (queryWords : list string) (c : LevCache) :
  Forall (fun entry => sepFree (snd entry) = true) list_2_3 ->
  validateDoc schema doc = true ->
  sound c ->
  exists s c1 c2,
    calculateScore Number schema fields doc queryWords c = Ret s c1
    /\ calculateScore Number schema fields doc queryWords
                      (JsMap.empty string nat) = Ret s c2
    /\ sound c1.
Proof.
  intros HL Hv Hc.
  pose proof (@agree_calculateScore L Number schema fields doc queryWords
                c (JsMap.empty string nat) HL Hc (exact_sound exact_empty))
    as H.
  destruct (@calculateScore_returns L Number schema fields doc queryWords c Hv)
    as [s [c1 E1]].
  destruct (@calculateScore_returns L Number schema fields doc queryWords
              (JsMap.empty string nat) Hv) as [s' [c2 E2]].
  rewrite E1, E2 in H. destruct H as [<- [H1 _]].
  exists s, c1, c2. auto.
Qed.

(** The word score of a string field is a sum over all pairs of a
    stemmed query word and a stemmed word of the field: a pair at edit
    distance [d] below 3 earns [w / (d + 1)], any other pair nothing.  The
    memo table does not show in it.  A field that holds a query word, up
    to normalising and stemming, therefore scores its weight at least. *)
Theorem word_score_sums_the_matching_pairs
        (text : string) (queryWords : list string) (w : Qc) (c : LevCache) :
  Forall (fun entry => sepFree (snd entry) = true) list_2_3 ->
  sound c ->
  let queryStems := map (fun q => stemmer (sanitizeText q)) queryWords in
  let fieldStems := map stemmer (split (sanitizeText text)) in
  let sum :=
    total (fun q => total (fun f => award w (tableDistance q f)) fieldStems)
          queryStems in
  exists c',
    calculateWordScore (sanitizeText text) queryWords w c = Ret sum c'
    /\ sound c'
    /\ (0 <= w ->
        (exists stem, In stem queryStems /\ In stem fieldStems) ->
        w <= sum).
Proof.
  intros HL Hc queryStems fieldStems sum.
  assert (Hq : Forall clean queryStems).
  { apply Forall_forall. intros x Hx. apply in_map_iff in Hx as [q [<- _]].
    apply clean_stemmer; [assumption | apply sanitizeText_sepFree]. }
  assert (Hf : Forall clean fieldStems).
  { apply Forall_forall. intros x Hx. apply in_map_iff in Hx as [q [<- Hin]].
    apply clean_stemmer; [assumption|].
    pose proof (clean_split (sanitizeText_sepFree text)) as Hs.
    rewrite Forall_forall in Hs. auto. }
  destruct (@forEach_total string clean
              (fun q => total (fun f => award w (tableDistance q f))
                              fieldStems)
              queryStems
              (fun word score =>
                 forEach fieldStems
                   (fun fieldWord score =>
                      distance <- levenshteinDistance word fieldWord ;;
                      ret (if (distance <? 3)%nat
                           then score + w / (ofNat distance + 1)
                           else score))
                   score)
              Hq) with (s := 0) (c := c) as [c' [E Hc']]; [|assumption|].
  { intros word s c0 Hw H0.
    apply (@forEach_total string clean
             (fun f => award w (tableDistance word f)) fieldStems); auto.
    intros fieldWord s1 c1 Hfw H1. unfold bind, levenshteinDistance.
    pose proof (levenshteinDistance_sound H1 Hw Hfw) as Ed.
    pose proof (@sound_step word fieldWord c1 H1) as S1.
    destruct (Levenshtein.levenshteinDistance word fieldWord c1) as [d c2].
    simpl in *. subst d. exists c2. split; [|assumption].
    unfold ret, award. f_equal.
    destruct (tableDistance word fieldWord <? 3)%nat; ring. }
  exists c'. split.
  { unfold calculateWordScore. fold queryStems. fold fieldStems.
    rewrite E. f_equal. unfold sum. ring. }
  split; [assumption|].
  intros Hw [stem [H1 H2]]. unfold sum.
  apply Qcle_trans
    with (y := total (fun f => award w (tableDistance stem f)) fieldStems).
  - rewrite <- (award_0 w) at 1. rewrite <- (tableDistance_same stem).
    apply (@total_In string (fun f => award w (tableDistance stem f)));
      [|assumption].
    intros y. now apply award_nonneg.
  - apply (@total_In string
             (fun q => total (fun f => award w (tableDistance q f))
                             fieldStems)); [|assumption].
    intros y. apply total_nonneg. intros z. now apply award_nonneg.
Qed.

(** A number field and a boolean field score the field weight once for
    every query word that reads as the value of the field, so a word that
    is repeated in the query counts each time; a field that holds another
    kind of value scores 0. *)
Theorem number_and_boolean_fields_count_matching_words
        (queryWords : list string) (w : Qc) :
  (forall x,
      calculateNumberScore Number (VNumber x) queryWords w
      = w * ofNat (length (filter (fun q => match Number q with
                                            | Some n => Qceqb n x
                                            | None => false
                                            end) queryWords)))
  /\ (forall b,
         calculateBooleanScore (VBoolean b) queryWords w
         = w * ofNat (length (filter (fun q =>
                                        String.eqb q (if b then "true"
                                                      else "false"))
                                     queryWords)))
  /\ (forall s, calculateNumberScore Number (VString s) queryWords w = 0
                /\ calculateBooleanScore (VString s) queryWords w = 0).
Proof.
  assert (Z0 : ofNat 0 = 0) by (apply Qc_is_canon; reflexivity).
  split; [|split].
  - intros x. unfold calculateNumberScore.
    assert (G : forall s,
               fold_left
                 (fun score queryWord =>
                    match Number queryWord, VNumber x with
                    | Some n, VNumber x =>
                        if Qceqb n x then score + w else score
                    | _, _ => score
                    end) queryWords s
               = s + w * ofNat (length (filter (fun q => match Number q with
                                                         | Some n => Qceqb n x
                                                         | None => false
                                                         end) queryWords))).
    { induction queryWords as [|q qs IH]; intros s; simpl.
      - rewrite Z0. ring.
      - rewrite IH. destruct (Number q) as [n|]; [|reflexivity].
        destruct (Qceqb n x); [|reflexivity].
        simpl. rewrite ofNat_S. ring. }
    rewrite G. ring.
  - intros b. unfold calculateBooleanScore.
    assert (G : forall s,
               fold_left
                 (fun score (queryWord : option bool) =>
                    match queryWord, VBoolean b with
                    | Some q, VBoolean x =>
                        if Bool.eqb q x then score + w else score
                    | _, _ => score
                    end)
                 (map (fun word =>
                         if String.eqb word "true" then Some true
                         else if String.eqb word "false" then Some false
                         else None) queryWords) s
               = s + w * ofNat (length (filter (fun q =>
                                                  String.eqb q
                                                    (if b then "true"
                                                     else "false"))
                                               queryWords))).
    { induction queryWords as [|q qs IH]; intros s; simpl.
      - rewrite Z0. ring.
      - rewrite IH.
        destruct (String.eqb_spec q "true") as [->|N1].
        + destruct b; simpl; [rewrite ofNat_S; ring | reflexivity].
        + destruct (String.eqb_spec q "false") as [->|N2].
          * destruct b; simpl; [reflexivity | rewrite ofNat_S; ring].
          * destruct b.
            -- destruct (String.eqb_spec q "true"); [contradiction|].
               reflexivity.
            -- destruct (String.eqb_spec q "false"); [contradiction|].
               reflexivity. }
    rewrite G. ring.
  - intros s. split.
    + unfold calculateNumberScore. generalize 0.
      induction queryWords as [|q qs IH]; intros s0; simpl; auto.
      rewrite IH. now destruct (Number q).
    + unfold calculateBooleanScore. generalize 0.
      induction queryWords as [|q qs IH]; intros s0; simpl; auto.
      rewrite IH.
      destruct (String.eqb q "true"); [reflexivity|].
      now destruct (String.eqb q "false").
Qed.

End ScoreProperties.

(** ** The flat engine on the two books *)

Section FlatExamples.
Import Str Text Levenshtein Vultus FlatEngine FlatFacts Books.
Local Open Scope string_scope.

Definition flatBooks : list Call :=
  [CallAddDoc gatsby; CallAddDoc expectations].

(** The repeated search does not see the book added in between. *)
Lemma flat_repeated_search_is_answered_from_the_cache_witness :
  exists e1 results,
    search (L := sampleLists) decimalNumber
           (afterAll (L := sampleLists) decimalNumber (newVultus bookSchema)
                     flatBooks)
           "great" None = Returned e1 results
    /\ search (L := sampleLists) decimalNumber (addDoc e1 iliad) "great" None
       = Returned (addDoc e1 iliad) results.
Proof.
  destruct (search (L := sampleLists) decimalNumber
              (afterAll (L := sampleLists) decimalNumber
                        (newVultus bookSchema) flatBooks)
              "great" None) as [e1 results|e1 err|] eqn:E;
    [|now vm_compute in E|now vm_compute in E].
  exists e1, results. split; [reflexivity|].
  exact (@flat_repeated_search_is_answered_from_the_cache sampleLists
           decimalNumber bookSchema flatBooks [CallAddDoc iliad] "great"
           None e1 results E).
Defined.

End FlatExamples.

(** ** The scorer on The Great Gatsby *)

Section MemoExamples.
Import Str Text Stemmer Levenshtein EditDistance Vultus ScoreFacts PhraseFacts.
Import MemoFacts Books.
Local Open Scope Qc_scope.
Local Open Scope string_scope.

Lemma sampleLists_clean :
  Forall (fun entry => sepFree (snd entry) = true)
         (list_2_3 (Lists := sampleLists)).
Proof. repeat constructor. Qed.

(** A memo table that holds a pair. *)
Definition warmTable : LevCache :=
  snd (Levenshtein.levenshteinDistance "great" "gatsbi"
                                       (JsMap.empty string nat)).

Lemma warmTable_sound : sound warmTable.
Proof. apply sound_step. exact (exact_sound exact_empty). Qed.

Lemma score_is_total_and_not_negative_witness :
  exists s c',
    calculateScore (L := sampleLists) decimalNumber bookSchema
                   (map newField (JsMap.keys bookSchema)) gatsby
                   ["great"; "1925"] (JsMap.empty string nat) = Ret s c'
    /\ 0 <= s.
Proof.
  apply (@score_is_total_and_not_negative sampleLists decimalNumber
           bookSchema (map newField (JsMap.keys bookSchema)) gatsby
           ["great"; "1925"] (JsMap.empty string nat)).
  - reflexivity.
  - repeat constructor; now vm_compute.
Defined.

Lemma memo_does_not_change_the_score_witness :
  exists s c1 c2,
    calculateScore (L := sampleLists) decimalNumber bookSchema
                   (map newField (JsMap.keys bookSchema)) gatsby
                   ["great"; "gatsby"] warmTable = Ret s c1
    /\ calculateScore (L := sampleLists) decimalNumber bookSchema
                      (map newField (JsMap.keys bookSchema)) gatsby
                      ["great"; "gatsby"] (JsMap.empty string nat)
       = Ret s c2.
Proof.
  destruct (@memo_does_not_change_the_score sampleLists decimalNumber
              bookSchema (map newField (JsMap.keys bookSchema)) gatsby
              ["great"; "gatsby"] warmTable sampleLists_clean Logic.eq_refl
              warmTable_sound)
    as [s [c1 [c2 [H1 [H2 _]]]]].
  exists s, c1, c2. split; assumption.
Defined.

Lemma word_score_sums_the_matching_pairs_witness :
  exists c',
    calculateWordScore (L := sampleLists) (sanitizeText "The Great Gatsby")
                       ["Great"] (num 2) warmTable
    = Ret (total (fun q =>
                    total (fun f => award (num 2) (tableDistance q f))
                          (map (stemmer (L := sampleLists))
                               (split (sanitizeText "The Great Gatsby"))))
                 (map (fun q => stemmer (L := sampleLists) (sanitizeText q))
                      ["Great"]))
          c'
    /\ sound c'.
Proof.
  destruct (@word_score_sums_the_matching_pairs sampleLists
              "The Great Gatsby" ["Great"] (num 2) warmTable
              sampleLists_clean warmTable_sound)
    as [c' [H1 [H2 _]]].
  exists c'. split; assumption.
Defined.

End MemoExamples.
